(** * Ant simulation: a shallow embedding of the simulation core

    The development follows the browser script that holds the classes
    [NeuralNetwork], [Ant] and [Simulation] and the global [params] object.

    Modelling decisions, all of them visible in the definitions below:
    - JavaScript numbers that carry health, weights, biases, probabilities and
      random draws are exact rationals ([Q]); grid coordinates are integers
      ([Z]); tick counters and population counts are naturals.
    - [Math.random()] is a stream [Math_random : nat -> Q]; the simulation
      state carries the number of draws made so far, so every call site reads
      the next element of the stream and advances the position.
    - [predict] and [softmax] go through [Math.exp]; their composition is
      the field [softmax_predict] of the ambient [World], left uninterpreted.
    - Objects of class [Ant] live in the array [ants]; an object reference is
      the index of the object in that array.  The array only grows during a
      tick (by [push]) and is filtered once at its very end, so an index names
      the same object throughout a tick.
    - The [Map] keyed by the template string [`${x},${y}`] is a finite map
      keyed by the pair [(x, y)]: the string is an injective rendering of a
      pair of integers.
    - [for (const ant of this.ants)] visits a live array: elements pushed
      while the loop runs are visited too.  The loop is [forOf] below, driven
      by fuel; the fuel handed to it by [update] is shown to be sufficient. *)

From Stdlib Require Import ZArith QArith Qabs Lqa Lia.
From stdpp Require Import base option list gmap.
From Stdlib Require Import Qround.

(** ** Outcomes of a computation that may throw *)

Inductive Result (A : Type) : Type :=
| Ok (a : A)
| TypeError
| OutOfFuel.
Arguments Ok {A} a.
Arguments TypeError {A}.
Arguments OutOfFuel {A}.

Definition bindR {A B} (r : Result A) (k : A -> Result B) : Result B :=
  match r with
  | Ok a => k a
  | TypeError => TypeError
  | OutOfFuel => OutOfFuel
  end.

(** ** Data model *)

Module Cell.
Inductive t := empty | food | terrain.
End Cell.

Module Stage.
Inductive t := egg | adult | old.
End Stage.

Module Action.
Inductive t :=
| up | down | left | right | attack | eat | sleep | mate | asexual | none.
End Action.

#[global] Instance Cell_eq_dec : EqDecision Cell.t.
Proof. solve_decision. Defined.
#[global] Instance Stage_eq_dec : EqDecision Stage.t.
Proof. solve_decision. Defined.
#[global] Instance Action_eq_dec : EqDecision Action.t.
Proof. solve_decision. Defined.

(** [new NeuralNetwork(weights, biases)].  The genomes the script builds
    ([randomWeights], [randomBiases], and the crossover of two such genomes)
    are arrays of layers, each layer an array of numbers. *)
Record NeuralNetwork := mkNN {
  weights : list (list Q);
  biases : list (list Q)
}.

Module Ant.
Record t := mk {
    x : Z;
    y : Z;
    age : nat;
    health : Q;
    stage : Stage.t;
    stageAge : nat;
    id : nat;
    neuralNetwork : NeuralNetwork;
    (** [nextAction] is a property that exists only once phase 1 has
        assigned it: [None] is JavaScript's [undefined]. *)
    nextAction : option Action.t
}.

Definition set_pos (x' y' : Z) (a : t) : t :=
    mk x' y' (age a) (health a) (stage a) (stageAge a) (id a)
       (neuralNetwork a) (nextAction a).
Definition set_health (h : Q) (a : t) : t :=
    mk (x a) (y a) (age a) h (stage a) (stageAge a) (id a)
       (neuralNetwork a) (nextAction a).
Definition set_stage (st : Stage.t) (a : t) : t :=
    mk (x a) (y a) (age a) (health a) st (stageAge a) (id a)
       (neuralNetwork a) (nextAction a).
Definition set_nextAction (act : option Action.t) (a : t) : t :=
    mk (x a) (y a) (age a) (health a) (stage a) (stageAge a) (id a)
       (neuralNetwork a) act.
(** [ant.age++; ant.stageAge++; ant.health -= 1] *)
Definition tick (a : t) : t :=
    mk (x a) (y a) (S (age a)) (health a - 1) (stage a) (S (stageAge a)) (id a)
       (neuralNetwork a) (nextAction a).
End Ant.

(** The global [params] object. *)
Record Params := mkParams {
  antLifespan : nat;
  antDensity : nat;
  maxAnts : nat;
  maxAntHealth : Q;
  foodDensity : Q;
  terrainDensity : Q;
  eggToAdultTicks : nat;
  foodSpawnInterval : nat;
  foodSpawnCount : nat;
  genomeNoise : Q
}.

Definition default_params : Params :=
  mkParams 500 50 200 100 (5 # 100) (5 # 100) 50 100 5 (1 # 10).

(** The [Simulation] object ([ants], [grid]) together with the two ambient
    streams the script reads: [draws] counts the calls of [Math.random()]
    made so far and [uuids] the calls of [crypto.randomUUID()]. *)
Record Simulation := mkSim {
  ants : list Ant.t;
  grid : gmap (Z * Z) Cell.t;
  draws : nat;
  uuids : nat
}.

Definition set_ants (l : list Ant.t) (s : Simulation) : Simulation :=
  mkSim l (grid s) (draws s) (uuids s).
Definition set_grid (g : gmap (Z * Z) Cell.t) (s : Simulation) : Simulation :=
  mkSim (ants s) g (draws s) (uuids s).
Definition set_draws (n : nat) (s : Simulation) : Simulation :=
  mkSim (ants s) (grid s) n (uuids s).
Definition set_uuids (n : nat) (s : Simulation) : Simulation :=
  mkSim (ants s) (grid s) (draws s) n.

(** Mutation of the object at index [i]. *)
Definition updAnt (i : nat) (f : Ant.t -> Ant.t) (s : Simulation) : Simulation :=
  set_ants (alter f i (ants s)) s.

Definition Qltb (a b : Q) : bool := negb (Qle_bool b a).

(** [Math.min] *)
Definition Math_min (a b : Q) : Q := if Qle_bool a b then a else b.

(** ** The live-array loop *)

Fixpoint forOf {S : Type} (size : S -> nat) (body : nat -> S -> Result S)
    (fuel i : nat) (s : S) : Result S :=
  if size s <=? i then Ok s
  else match fuel with
       | O => OutOfFuel
       | Datatypes.S fuel' =>
           match body i s with
           | Ok s' => forOf size body fuel' (Datatypes.S i) s'
           | TypeError => TypeError
           | OutOfFuel => OutOfFuel
           end
       end.

(** ** NeuralNetwork.sampleIndex

    [r] is the value of [let r = Math.random()]. *)

Fixpoint sampleIndex_loop (probabilities : list Q) (i : Z) (r : Q) : option Z :=
  match probabilities with
  | [] => None
  | p :: rest =>
      let r' := (r - p)%Q in
      if Qle_bool r' 0 then Some i else sampleIndex_loop rest (i + 1)%Z r'
  end.

Definition sampleIndex (r : Q) (probabilities : list Q) : Z :=
  match sampleIndex_loop probabilities 0%Z r with
  | Some i => i
  | None => (Z.of_nat (length probabilities) - 1)%Z (* Fallback *)
  end.

Definition Qsum (l : list Q) : Q := foldr Qplus 0%Q l.

(** ** The ambient world of the script

    The global [params], the stream behind [Math.random()], and the
    floating-point pipeline [softmax(predict(inputVector))] of a network,
    taken as a total function of the genome and of the sensory vector. *)

Class World := {
  params : Params;
  Math_random : nat -> Q;
  softmax_predict : NeuralNetwork -> list Z -> list Q
}.

Section Model.
Context {W : World}.

(** ** Simulation.getCell, clearCell, getAntAt *)

Definition getCell (x y : Z) (s : Simulation) : Cell.t * Simulation :=
  match grid s !! (x, y) with
  | Some cell => (cell, s)
  | None =>
      let rand := Math_random (draws s) in
      let cellType :=
        if Qltb rand (foodDensity params) then Cell.food
        else if Qltb rand (foodDensity params + terrainDensity params)
             then Cell.terrain
             else Cell.empty in
      (cellType, set_draws (S (draws s)) (set_grid (<[(x, y) := cellType]> (grid s)) s))
  end.

Definition clearCell (x y : Z) (s : Simulation) : Simulation :=
  set_grid (<[(x, y) := Cell.empty]> (grid s)) s.

(** [this.ants.find(...)]: the first ant of the array standing on [(x, y)],
    as a reference (an index), or [None] for [undefined]. *)
Definition getAntAt (x y : Z) (s : Simulation) : option nat :=
  fst <$> list_find (fun ant => Ant.x ant = x /\ Ant.y ant = y) (ants s).

(** ** Ant.processVision *)

Definition visionOffsets : list (Z * Z) :=
  flat_map (fun dy => map (fun dx => (dx, dy)) [-1; 0; 1]%Z) [-1; 0; 1]%Z.

Definition cellValue (ant : option nat) (cell : Cell.t) : Z :=
  match ant with
  | Some _ => 2
  | None =>
      match cell with
      | Cell.food => 1
      | Cell.terrain => 0
      | Cell.empty => -1
      end
  end%Z.

Fixpoint visionLoop (this : Ant.t) (offsets : list (Z * Z)) (s : Simulation)
  : list Z * Simulation :=
  match offsets with
  | [] => ([], s)
  | (dx, dy) :: rest =>
      let '(cell, s1) := getCell (Ant.x this + dx) (Ant.y this + dy) s in
      let ant := getAntAt (Ant.x this + dx) (Ant.y this + dy) s1 in
      let '(values, s2) := visionLoop this rest s1 in
      (cellValue ant cell :: values, s2)
  end.

Definition processVision (this : Ant.t) (s : Simulation) : list Z * Simulation :=
  visionLoop this visionOffsets s.

(** ** Ant.decideAction *)

Definition adultActions : list Action.t :=
  [Action.up; Action.down; Action.left; Action.right; Action.attack;
   Action.eat; Action.sleep; Action.mate; Action.asexual].

Definition otherActions : list Action.t :=
  [Action.attack; Action.eat; Action.sleep].

(** [actions[k]] for a JavaScript number [k]: [undefined] off the array. *)
Definition index {A} (l : list A) (k : Z) : option A :=
  if (k <? 0)%Z then None else l !! Z.to_nat k.

Definition decideAction (this : Ant.t) (s : Simulation)
  : option Action.t * Simulation :=
  if decide (Ant.stage this = Stage.egg) then (Some Action.none, s)
  else
    let '(inputVector, s1) := processVision this s in
    let probabilities := softmax_predict (Ant.neuralNetwork this) inputVector in
    let chosenIndex := sampleIndex (Math_random (draws s1)) probabilities in
    let s2 := set_draws (S (draws s1)) s1 in
    let actions :=
      if decide (Ant.stage this = Stage.adult) then adultActions
      else otherActions in
    (index actions (Z.rem chosenIndex (Z.of_nat (length actions))), s2).

(** ** Ant.processAction *)

Definition isMove (action : option Action.t) : bool :=
  match action with
  | Some Action.up | Some Action.down | Some Action.left | Some Action.right => true
  | _ => false
  end.

Definition orElse {A} (a b : option A) : option A :=
  match a with
  | Some _ => a
  | None => b
  end.

(** [new Ant(x, y)] followed by the assignments that turn it into the egg
    pushed by either reproduction path. *)
Definition newEgg (x y : Z) (nn : NeuralNetwork) (uuid : nat) : Ant.t :=
  Ant.mk x y 0 50 Stage.egg 0 uuid nn None.

Definition processAction (action : option Action.t) (i : nat) (s : Simulation)
  : Simulation :=
  match ants s !! i with
  | None => s
  | Some this =>
      if isMove action then
        let newX :=
          match action with
          | Some Action.left => (Ant.x this - 1)%Z
          | Some Action.right => (Ant.x this + 1)%Z
          | _ => Ant.x this
          end in
        let newY :=
          match action with
          | Some Action.up => (Ant.y this - 1)%Z
          | Some Action.down => (Ant.y this + 1)%Z
          | _ => Ant.y this
          end in
        let '(cell, s1) := getCell newX newY s in
        if decide (cell = Cell.terrain) then s1
        else updAnt i (Ant.set_pos newX newY) s1
      else
        match action with
        | Some Action.attack =>
            let target :=
              orElse (getAntAt (Ant.x this) (Ant.y this - 1) s)
                (orElse (getAntAt (Ant.x this) (Ant.y this + 1) s)
                   (orElse (getAntAt (Ant.x this - 1) (Ant.y this) s)
                      (getAntAt (Ant.x this + 1) (Ant.y this) s))) in
            match target with
            | None => s
            | Some j =>
                match ants s !! j with
                | None => s
                | Some tgt =>
                    if decide (Ant.stage tgt = Stage.egg) then
                      let s1 := updAnt j (fun t => Ant.set_health (Ant.health t - 50) t) s in
                      updAnt i (fun a => Ant.set_health
                                  (Math_min (maxAntHealth params) (Ant.health a + 20)) a) s1
                    else updAnt j (fun t => Ant.set_health (Ant.health t - 10) t) s
                end
            end
        | Some Action.eat =>
            let '(cell, s1) := getCell (Ant.x this) (Ant.y this) s in
            if decide (cell = Cell.food) then
              let s2 := updAnt i (fun a => Ant.set_health
                                    (Math_min 100 (Ant.health a + 20)) a) s1 in
              clearCell (Ant.x this) (Ant.y this) s2
            else s1
        | Some Action.sleep =>
            updAnt i (fun a => Ant.set_health (Math_min 100 (Ant.health a + 5)) a) s
        | Some Action.asexual =>
            if length (ants s) <? maxAnts params then
              let s1 := updAnt i (fun a => Ant.set_health (Ant.health a / 2) a) s in
              (* [new Ant(this.x, this.y)] draws a random genome (3 x 10
                 weights, 3 x 10 biases) that is then replaced *)
              let egg := newEgg (Ant.x this) (Ant.y this)
                           (mkNN (weights (Ant.neuralNetwork this))
                                 (biases (Ant.neuralNetwork this)))
                           (uuids s1) in
              set_uuids (S (uuids s1))
                (set_draws (draws s1 + 60) (set_ants (ants s1 ++ [egg]) s1))
            else s
        | _ => s
        end
  end.

(** ** Crossover (phase 2 of [update])

    [pickLayers] is the loop that fills [offspringWeights] and
    [offspringBiases]: both are indexed up to [ant.neuralNetwork.weights.length],
    and an index past the end of an array reads [undefined].  [noiseLayers] is
    [layers.map(layer => layer.map(value => value + (Math.random() - 0.5) *
    params.genomeNoise))]; calling [map] on [undefined] throws. *)

Definition pickLayers (mine theirs : list (list Q)) (n : nat)
  : list (option (list Q)) :=
  map (fun i => if Nat.even i then mine !! i else theirs !! i) (seq 0 n).

Fixpoint noiseLayer (layer : list Q) (k : nat) : list Q * nat :=
  match layer with
  | [] => ([], k)
  | value :: rest =>
      let value' := (value + (Math_random k - (1 # 2)) * genomeNoise params)%Q in
      let '(rest', k') := noiseLayer rest (S k) in
      (value' :: rest', k')
  end.

Fixpoint noiseLayers (layers : list (option (list Q))) (k : nat)
  : Result (list (list Q) * nat) :=
  match layers with
  | [] => Ok ([], k)
  | None :: _ => TypeError
  | Some layer :: rest =>
      let '(layer', k1) := noiseLayer layer k in
      bindR (noiseLayers rest k1) (fun '(rest', k2) => Ok (layer' :: rest', k2))
  end.

Definition crossover (ant partner : NeuralNetwork) (k : nat)
  : Result (NeuralNetwork * nat) :=
  let n := length (weights ant) in
  let offspringWeights := pickLayers (weights ant) (weights partner) n in
  let offspringBiases := pickLayers (biases ant) (biases partner) n in
  bindR (noiseLayers offspringWeights k) (fun '(ws, k1) =>
  bindR (noiseLayers offspringBiases k1) (fun '(bs, k2) =>
  Ok (mkNN ws bs, k2))).

(** ** Simulation.update *)

(** Phase 1: [ant.nextAction = ant.decideAction(this)]. *)
Definition decideStep (i : nat) (s : Simulation) : Simulation :=
  match ants s !! i with
  | None => s
  | Some ant =>
      let '(action, s1) := decideAction ant s in
      updAnt i (Ant.set_nextAction action) s1
  end.

(** No ant is pushed during phase 1, so the loop visits the indices of the
    array as it stood when the tick began. *)
Definition phase1 (s : Simulation) : Simulation :=
  foldl (fun s i => decideStep i s) s (seq 0 (length (ants s))).

(** Phase 2.  [matedAnts] is the set of references of the ants paired so far. *)
Definition wantsMate (matedAnts : gset nat) (s : Simulation) (j : nat) : bool :=
  match ants s !! j with
  | Some other =>
      bool_decide (Ant.nextAction other = Some Action.mate /\
                   Ant.stage other = Stage.adult /\ j ∉ matedAnts)
  | None => false
  end.

Fixpoint findPartner (neighbors : list (Z * Z)) (matedAnts : gset nat)
    (s : Simulation) : option nat :=
  match neighbors with
  | [] => None
  | (nx, ny) :: rest =>
      match getAntAt nx ny s with
      | Some other =>
          if wantsMate matedAnts s other then Some other
          else findPartner rest matedAnts s
      | None => findPartner rest matedAnts s
      end
  end.

Definition neighborsOf (ant : Ant.t) : list (Z * Z) :=
  [(Ant.x ant, Ant.y ant - 1); (Ant.x ant, Ant.y ant + 1);
   (Ant.x ant - 1, Ant.y ant); (Ant.x ant + 1, Ant.y ant)]%Z.

Definition mateStep (i : nat) (st : Simulation * gset nat)
  : Result (Simulation * gset nat) :=
  let '(s, matedAnts) := st in
  match ants s !! i with
  | None => Ok st
  | Some ant =>
      if wantsMate matedAnts s i then
        match findPartner (neighborsOf ant) matedAnts s with
        | Some j =>
            match ants s !! j with
            | Some partner =>
                if length (ants s) <? maxAnts params then
                  bindR (crossover (Ant.neuralNetwork ant)
                           (Ant.neuralNetwork partner) (draws s))
                    (fun '(nn, k) =>
                       let egg := newEgg (Ant.x ant) (Ant.y ant) nn (uuids s) in
                       Ok (set_uuids (S (uuids s))
                             (set_draws k (set_ants (ants s ++ [egg]) s)),
                           matedAnts ∪ {[i]} ∪ {[j]}))
                else Ok st
            | None => Ok st
            end
        | None => Ok st
        end
      else Ok st
  end.

Definition phase2 (s : Simulation) : Result (Simulation * gset nat) :=
  forOf (fun st => length (ants st.1)) mateStep (2 * length (ants s)) 0 (s, ∅).

(** Phase 3: one iteration of the loop that acts and ages. *)
Definition hatch (a : Ant.t) : Ant.t :=
  if decide (Ant.stage a = Stage.egg) then
    if eggToAdultTicks params <=? Ant.stageAge a
    then Ant.set_health 100 (Ant.set_stage Stage.adult a)
    else a
  else a.

(** [ant.age >= params.antLifespan + (Math.random() - 0.5) * 0.05], on exact
    rationals.  The script makes the sum in doubles, which can round a jitter
    below the spacing of the doubles at [antLifespan] away. *)
Definition lifespanReached (r : Q) (a : Ant.t) : bool :=
  Qle_bool (inject_Z (Z.of_nat (antLifespan params)) + (r - (1 # 2)) * (5 # 100))
           (inject_Z (Z.of_nat (Ant.age a))).

Definition retire (i : nat) (s : Simulation) : Simulation :=
  match ants s !! i with
  | None => s
  | Some a =>
      if decide (Ant.stage a = Stage.adult) then
        let r := Math_random (draws s) in
        let s1 := set_draws (S (draws s)) s in
        if lifespanReached r a then updAnt i (Ant.set_stage Stage.old) s1 else s1
      else s
  end.

(** [if (ant.nextAction !== "mate") ant.processAction(ant.nextAction, this)] *)
Definition act (i : nat) (s : Simulation) : Simulation :=
  match ants s !! i with
  | None => s
  | Some ant =>
      if decide (Ant.nextAction ant = Some Action.mate) then s
      else processAction (Ant.nextAction ant) i s
  end.

(** The rest of the loop body: upkeep, hatching, retirement. *)
Definition ageing (i : nat) (s : Simulation) : Simulation :=
  retire i (updAnt i hatch (updAnt i Ant.tick s)).

Definition actStep (i : nat) (s : Simulation) : Simulation :=
  ageing i (act i s).

Definition phase3 (s : Simulation) : Result Simulation :=
  forOf (fun s => length (ants s)) (fun i s => Ok (actStep i s))
    (2 * length (ants s)) 0 s.

Definition alive (ant : Ant.t) : bool := Qltb 0 (Ant.health ant).
Definition notOld (ant : Ant.t) : bool :=
  bool_decide (Ant.stage ant <> Stage.old).

Definition cull (s : Simulation) : Simulation :=
  set_ants (List.filter notOld (List.filter alive (ants s))) s.

(** The state at the end of phase 3, before the two [filter]s. *)
Definition beforeCull (s : Simulation) : Result Simulation :=
  bindR (phase2 (phase1 s)) (fun st => phase3 st.1).

Definition update (s : Simulation) : Result Simulation :=
  bindR (beforeCull s) (fun s3 => Ok (cull s3)).

End Model.

(** ** Vocabulary of the properties *)

(** The layer shape of one of the two arrays of a genome. *)
Definition shape (layers : list (list Q)) : list nat := map length layers.

(** Two records of one ant that differ at most in the proposed action. *)
Definition sameButAction (a b : Ant.t) : Prop :=
  exists action, b = Ant.set_nextAction action a.

(** Identifiers are pairwise distinct and below the next one to be issued. *)
Definition uniqueIds (s : Simulation) : Prop :=
  (forall j b, ants s !! j = Some b -> Ant.id b < uuids s) /\
  (forall j k b c, ants s !! j = Some b -> ants s !! k = Some c ->
     Ant.id b = Ant.id c -> j = k).

(** [x * 2^-52], which is no less than the distance from a double [x >= 1]
    to the next double.  A jitter above it is not lost when it is added to
    [x] in double arithmetic. *)
Definition doubleSpacing (x : Q) : Q := (x * (1 # 4503599627370496))%Q.

Section Vocabulary.
Context {W : World}.

(** Every draw of [Math.random()] lies in [[0, 1)]. *)
Definition randomInRange : Prop :=
  forall n, (0 <= Math_random n /\ Math_random n < 1)%Q.

(** [w] lies within [genomeNoise / 2] of [v]. *)
Definition withinNoise (v w : Q) : Prop :=
  (v - genomeNoise params / 2 <= w /\ w <= v + genomeNoise params / 2)%Q.

(** The child's layer exists, has the length of the parent's layer and is
    pointwise related to it by [R]. *)
Definition layerRel (R : Q -> Q -> Prop) (parent child : option (list Q))
  : Prop :=
  match parent, child with
  | Some p, Some c => Forall2 R p c
  | _, _ => False
  end.

(** The child's layer is the parent's, every value within the noise. *)
Definition layerFrom (parent child : option (list Q)) : Prop :=
  layerRel withinNoise parent child.

(** Every genome of the population has the weight shape [sw] and the bias
    shape [sb]. *)
Definition genomesShaped (sw sb : list nat) (s : Simulation) : Prop :=
  forall j a, ants s !! j = Some a ->
    shape (weights (Ant.neuralNetwork a)) = sw /\
    shape (biases (Ant.neuralNetwork a)) = sb.

(** The first ant of the array standing on its cell: what [getAntAt] finds. *)
Definition firstAt (j : nat) (l : list Ant.t) : Prop :=
  exists b, l !! j = Some b /\
    forall k c, l !! k = Some c -> k < j ->
      ~ (Ant.x c = Ant.x b /\ Ant.y c = Ant.y b).

(** Two records of one ant that differ at most in position and health. *)
Definition sameCore (a b : Ant.t) : Prop :=
  Ant.age b = Ant.age a /\ Ant.stage b = Ant.stage a /\
  Ant.stageAge b = Ant.stageAge a /\ Ant.id b = Ant.id a /\
  Ant.neuralNetwork b = Ant.neuralNetwork a /\
  Ant.nextAction b = Ant.nextAction a.

(** What one pass of upkeep, hatching and retirement makes of an ant, when
    [k] draws of [Math.random()] have been made before it. *)
Definition agedAnt (k : nat) (a : Ant.t) : Ant.t :=
  let b := hatch (Ant.tick a) in
  if decide (Ant.stage b = Stage.adult) then
    if lifespanReached (Math_random k) b then Ant.set_stage Stage.old b else b
  else b.

(** The footprint of [processAction] on the array: the acting ant keeps its
    core (and its cell unless it moves), any other ant is untouched or, being
    the first ant on its cell, has its health changed by an attack, and at
    most one egg is pushed, by [asexual], below the cap. *)
Definition ActEffect (action : option Action.t) (i : nat) (this : Ant.t)
    (s s' : Simulation) : Prop :=
  (exists this', ants s' !! i = Some this' /\ sameCore this this' /\
      (isMove action = false ->
       Ant.x this' = Ant.x this /\ Ant.y this' = Ant.y this)) /\
  (forall j b, j <> i -> ants s !! j = Some b ->
      ants s' !! j = Some b \/
      ((exists h, ants s' !! j = Some (Ant.set_health h b)) /\
       firstAt j (ants s) /\ action = Some Action.attack)) /\
  ((length (ants s') = length (ants s) /\ uuids s' = uuids s) \/
   (action = Some Action.asexual /\ length (ants s) < maxAnts params /\
    ants s' !! length (ants s) =
      Some (newEgg (Ant.x this) (Ant.y this)
              (mkNN (weights (Ant.neuralNetwork this))
                    (biases (Ant.neuralNetwork this))) (uuids s)) /\
    length (ants s') = S (length (ants s)) /\ uuids s' = S (uuids s))).

(** The footprint of one iteration of phase 3. *)
Definition StepEffect (i : nat) (this : Ant.t) (s s' : Simulation) : Prop :=
  (exists this1 k,
      sameCore this this1 /\
      (isMove (Ant.nextAction this) = false ->
       Ant.x this1 = Ant.x this /\ Ant.y this1 = Ant.y this) /\
      draws s <= k /\ k <= draws s' /\
      (Ant.stage (hatch (Ant.tick this1)) = Stage.adult -> draws s' = S k) /\
      ants s' !! i = Some (agedAnt k this1)) /\
  (forall j b, j <> i -> ants s !! j = Some b ->
      ants s' !! j = Some b \/
      ((exists h, ants s' !! j = Some (Ant.set_health h b)) /\
       firstAt j (ants s))) /\
  ((length (ants s') = length (ants s) /\ uuids s' = uuids s) \/
   (Ant.nextAction this = Some Action.asexual /\
    length (ants s) < maxAnts params /\
    ants s' !! length (ants s) =
      Some (newEgg (Ant.x this) (Ant.y this)
              (mkNN (weights (Ant.neuralNetwork this))
                    (biases (Ant.neuralNetwork this))) (uuids s)) /\
    length (ants s') = S (length (ants s)) /\ uuids s' = S (uuids s))).

(** The ants born during the tick are those at the indices from [n] on, [n]
    being the length of the array when the tick began.  While phase 3 stands
    at index [i], each of them is still the egg that was pushed, or that egg
    aged once if the loop has passed it; and an older ant that does not move
    this tick stands on its cell. *)
Definition Newborn (n i : nat) (s : Simulation) : Prop :=
  n <= length (ants s) /\
  forall e b, n <= e -> ants s !! e = Some b ->
    (exists x y nn u,
        if decide (e < i) then exists k, b = agedAnt k (newEgg x y nn u)
        else b = newEgg x y nn u) /\
    (exists p c, p < e /\ ants s !! p = Some c /\
        Ant.x c = Ant.x b /\ Ant.y c = Ant.y b /\
        isMove (Ant.nextAction c) = false).

(** The adult [a], found at index [m] when the tick began, as phase 3 stands
    at index [i]: before its turn it is the same adult of the same age; after
    its turn it is one tick older and is old exactly when the draw [k] made at
    its retirement test reached its lifespan. *)
Definition Tracked (m : nat) (a : Ant.t) (k0 : nat) (i : nat) (s : Simulation)
  : Prop :=
  k0 <= draws s /\
  exists b, ants s !! m = Some b /\ Ant.id b = Ant.id a /\
    if decide (m < i) then
      Ant.age b = S (Ant.age a) /\
      exists k, k0 <= k /\ k < draws s /\
        Ant.stage b =
          if lifespanReached (Math_random k) b then Stage.old else Stage.adult
    else Ant.stage b = Stage.adult /\ Ant.age b = Ant.age a.
End Vocabulary.

(** * The rest of the script: constructors, network, page *)

(** [Math.floor] and [Math.ceil], on exact rationals. *)
Definition Math_floor (q : Q) : Z := Qfloor q.
Definition Math_ceil (q : Q) : Z := Qceiling q.

(** The remainder operator [%] on numbers: the result has the sign of the
    dividend, the quotient being truncated towards zero. *)
Definition Qtruncate (q : Q) : Z := Z.quot (Qnum q) (Zpos (Qden q)).
Definition JS_rem (a b : Q) : Q := (a - b * inject_Z (Qtruncate (a / b)))%Q.

(** [Math.max(...values)]: [None] stands for [-Infinity], the maximum of no
    value. *)
Definition Math_max (values : list Q) : option Q :=
  match values with
  | [] => None
  | v :: rest => Some (foldl (fun m w => if Qle_bool m w then w else m) v rest)
  end.

Section Constructors.
Context {W : World}.

(** ** Ant: constructor, randomWeights, randomBiases

    [Array(n).fill().map(() => Math.random() * 2 - 1)], the draws being made
    from position [k] on, and [Array.from({ length: count }, ...)] of such
    rows. *)

Fixpoint randomRow (n k : nat) : list Q * nat :=
  match n with
  | O => ([], k)
  | S n' =>
      let value := (Math_random k * 2 - 1)%Q in
      let '(rest, k') := randomRow n' (S k) in
      (value :: rest, k')
  end.

Fixpoint randomRows (count n k : nat) : list (list Q) * nat :=
  match count with
  | O => ([], k)
  | S count' =>
      let '(row, k1) := randomRow n k in
      let '(rest, k2) := randomRows count' n k1 in
      (row :: rest, k2)
  end.

Definition randomWeights (k : nat) : list (list Q) * nat := randomRows 3 10 k.
Definition randomBiases (k : nat) : list (list Q) * nat := randomRows 3 10 k.

(** [new Ant(x, y, neuralNetwork = null, stage = null)], given the positions
    [k] and [u] of the two ambient streams; it returns the ant and the new
    positions.  [baseColor] is always [calculateColorFromNN()] of the network
    the ant ends up with, so it is not stored. *)
Definition Ant_new (x y : Z) (neuralNetwork : option NeuralNetwork)
    (stage : option Stage.t) (k u : nat) : Ant.t * nat * nat :=
  let stage' := match stage with Some st => st | None => Stage.egg end in
  match neuralNetwork with
  | Some nn => (Ant.mk x y 0 100 stage' 0 u nn None, k, S u)
  | None =>
      let '(ws, k1) := randomWeights k in
      let '(bs, k2) := randomBiases k1 in
      (Ant.mk x y 0 100 stage' 0 u (mkNN ws bs) None, k2, S u)
  end.

(** ** Simulation: constructor

    [seedGenome] is the global of that name: [None] for [null]. *)

Fixpoint populate (n : nat) (seedGenome : option NeuralNetwork)
    (s : Simulation) : Simulation :=
  match n with
  | O => s
  | S n' =>
      let x := Math_floor (Math_random (draws s) * 100 - 50) in
      let y := Math_floor (Math_random (S (draws s)) * 100 - 50) in
      let '(ant, k, u) :=
        Ant_new x y seedGenome (Some Stage.adult) (S (S (draws s))) (uuids s) in
      populate n' seedGenome (mkSim (ants s ++ [ant]) (grid s) k u)
  end.

Definition Simulation_new (seedGenome : option NeuralNetwork) (k u : nat)
  : Simulation :=
  populate (antDensity params) seedGenome (mkSim [] ∅ k u).

(** ** Ant.calculateColorFromNN

    On the genomes of this script a layer is an array of numbers, so
    [weightMatrix[0]] is a number and is sampled as it is.  The result is the
    triple of numbers written into the string [rgb(r,g,b)]. *)

Definition firstValues (layers : list (list Q)) : list Q :=
  flat_map (fun layer => match layer with
                         | [] => []
                         | value :: _ => [value]
                         end) layers.

Fixpoint sumChannels (sampledValues : list Q) (i : nat) (rgb : Q * Q * Q)
  : Q * Q * Q :=
  match sampledValues with
  | [] => rgb
  | value :: rest =>
      let '(r, g, b) := rgb in
      sumChannels rest (S i)
        (match i mod 3 with
         | 0 => ((r + value)%Q, g, b)
         | 1 => (r, (g + value)%Q, b)
         | _ => (r, g, (b + value)%Q)
         end)
  end.

Definition clamp (val : Q) : Q := Qabs (JS_rem (val * 256) 256).

Definition calculateColorFromNN (nn : NeuralNetwork) : Q * Q * Q :=
  let sampledValues := firstValues (weights nn) ++ firstValues (biases nn) in
  let '(r, g, b) := sumChannels sampledValues 0 (0, 0, 0)%Q in
  (clamp r, clamp g, clamp b).

(** ** The page: camera, canvas, spawnFood, render, updateStats *)

Record View := mkView {
  camera_x : Q;
  camera_y : Q;
  canvas_width : Q;
  canvas_height : Q
}.

(** [let cellSize = 10], never assigned again. *)
Definition cellSize : Q := 10.

Fixpoint spawnFoodLoop (n : nat) (left top right bottom : Z) (s : Simulation)
  : Simulation :=
  match n with
  | O => s
  | S n' =>
      let foodX :=
        (Math_floor (Math_random (draws s) * inject_Z (right - left + 1)) + left)%Z in
      let foodY :=
        (Math_floor (Math_random (S (draws s)) * inject_Z (bottom - top + 1)) + top)%Z in
      spawnFoodLoop n' left top right bottom
        (set_draws (S (S (draws s)))
           (set_grid (<[(foodX, foodY) := Cell.food]> (grid s)) s))
  end.

Definition spawnFood (v : View) (s : Simulation) : Simulation :=
  let left := Math_floor (camera_x v / cellSize) in
  let top := Math_floor (camera_y v / cellSize) in
  let right := Math_floor ((camera_x v + canvas_width v) / cellSize) in
  let bottom := Math_floor ((camera_y v + canvas_height v) / cellSize) in
  spawnFoodLoop (foodSpawnCount params) left top right bottom s.

(** The values [0, 1, ..., n] of the counter of [for (let i = 0; i <= n; i++)]. *)
Definition upTo (n : Z) : list Z := map Z.of_nat (seq 0 (Z.to_nat (n + 1))).

(** The cells [render] asks [getCell] for, in the order of its two loops. *)
Definition renderCells (v : View) : list (Z * Z) :=
  let cols := Math_ceil (canvas_width v / cellSize) in
  let rows := Math_ceil (canvas_height v / cellSize) in
  let startX := (Math_floor (camera_x v / cellSize) - 1)%Z in
  let startY := (Math_floor (camera_y v / cellSize) - 1)%Z in
  flat_map (fun i => map (fun j => (startX + i, startY + j)%Z) (upTo (rows + 2)))
    (upTo (cols + 2)).

(** What [render] does to the simulation: its calls of [getCell] classify
    the cells they meet.  The drawing on the canvas is not modelled. *)
Definition render (v : View) (s : Simulation) : Simulation :=
  foldl (fun s '(gridX, gridY) => (getCell gridX gridY s).2) s (renderCells v).

(** The three numbers [updateStats] writes into the stats drawer. *)
Definition updateStats (s : Simulation) : nat * nat * nat :=
  let total := length (ants s) in
  let eggs :=
    length (List.filter (fun a => bool_decide (Ant.stage a = Stage.egg)) (ants s)) in
  let adults :=
    length (List.filter (fun a => bool_decide (Ant.stage a = Stage.adult)) (ants s)) in
  (total, eggs, adults).

(** ** The main loop *)

Record Page := mkPage {
  simulation : Simulation;
  tickCount : nat;
  lastUpdateTime : Z;
  isPaused : bool;
  simulationSpeed : Q;
  view : View
}.

(** [!isPaused && delta > 1000 / simulationSpeed], where [1000 / 0] is
    [Infinity]. *)
Definition updateDue (now : Z) (p : Page) : bool :=
  negb (isPaused p) &&
  (if Qeq_bool (simulationSpeed p) 0 then false
   else Qltb (1000 / simulationSpeed p) (inject_Z (now - lastUpdateTime p))).

(** [tickCount % params.foodSpawnInterval === 0], where [n % 0] is [NaN]. *)
Definition foodDue (tickCount : nat) : bool :=
  match foodSpawnInterval params with
  | O => false
  | S _ => tickCount mod foodSpawnInterval params =? 0
  end.

(** One call of [simulationLoop], [now] being the value of [Date.now()]. *)
Definition simulationLoop (now : Z) (p : Page) : Result Page :=
  bindR
    (if updateDue now p then
       bindR (update (simulation p)) (fun s1 =>
         let tickCount' := S (tickCount p) in
         let s2 := if foodDue tickCount' then spawnFood (view p) s1 else s1 in
         Ok (mkPage s2 tickCount' now (isPaused p) (simulationSpeed p) (view p)))
     else Ok p)
    (fun p1 =>
       Ok (mkPage (render (view p1) (simulation p1)) (tickCount p1)
             (lastUpdateTime p1) (isPaused p1) (simulationSpeed p1) (view p1))).

(** The calls of [simulationLoop] that [requestAnimationFrame] schedules one
    after the other, at the times [nows]; a call that throws schedules no
    further one. *)
Fixpoint frames (nows : list Z) (p : Page) : Result Page :=
  match nows with
  | [] => Ok p
  | now :: rest => bindR (simulationLoop now p) (frames rest)
  end.

End Constructors.

(** ** NeuralNetwork: activate, predict, softmax *)

(** A JavaScript number that may be [NaN] ([None]). *)
Definition jsAdd (a b : option Q) : option Q :=
  match a, b with
  | Some x, Some y => Some (x + y)%Q
  | _, _ => None
  end.
Definition jsMul (a b : option Q) : option Q :=
  match a, b with
  | Some x, Some y => Some (x * y)%Q
  | _, _ => None
  end.

(** What [weightMatrix[neuron]] is: an array of weights, as the class
    expects, or a single number, as in the genomes that [randomWeights]
    builds (there, a "matrix" is one row of numbers). *)
Inductive Row :=
| RowArray (weightsForNeuron : list Q)
| RowNumber (weight : Q).

Section Network.
(** [Math.exp] *)
Variable Math_exp : Q -> Q.

Definition activate (x : option Q) : option Q :=
  (fun v => 1 / (1 + Math_exp (- v)))%Q <$> x.

(** [for (let j = 0; j < weightsForNeuron.length; j++) sum +=
    weightsForNeuron[j] * output[j]], from [j] on.  An index past the end of
    [output] reads [undefined], which makes the product [NaN]. *)
Fixpoint dotFrom (weightsForNeuron : list Q) (output : list (option Q))
    (j : nat) (sum : option Q) : option Q :=
  match weightsForNeuron with
  | [] => sum
  | w :: rest =>
      dotFrom rest output (S j)
        (jsAdd sum (jsMul (Some w) (default None (output !! j))))
  end.

(** The loop over [j] for one neuron.  The [length] of a number is
    [undefined] and [0 < undefined] is false: on a number the loop does not
    run. *)
Definition weightedSum (weightsForNeuron : Row) (output : list (option Q))
  : option Q :=
  match weightsForNeuron with
  | RowArray ws => dotFrom ws output 0 (Some 0%Q)
  | RowNumber _ => Some 0%Q
  end.

(** One layer.  [biasVector] is [this.biases[layer]]: reading [biasVector[neuron]]
    throws when it is [undefined], and yields [undefined], hence the sum
    [NaN], past its end. *)
Definition predictLayer (weightMatrix : list Row) (biasVector : option (list Q))
    (output : list (option Q)) : Result (list (option Q)) :=
  match weightMatrix, biasVector with
  | [], _ => Ok []
  | _ :: _, None => TypeError
  | _ :: _, Some bv =>
      Ok (imap (fun neuron weightsForNeuron =>
                  activate (jsAdd (weightedSum weightsForNeuron output)
                                  (bv !! neuron)))
            weightMatrix)
  end.

Fixpoint predictFrom (weights : list (list Row)) (biases : list (list Q))
    (layer : nat) (output : list (option Q)) : Result (list (option Q)) :=
  match weights with
  | [] => Ok output
  | weightMatrix :: rest =>
      bindR (predictLayer weightMatrix (biases !! layer) output)
        (predictFrom rest biases (S layer))
  end.

(** [predict] on a network whose weights are arrays of matrices. *)
Definition predictRows (weights : list (list Row)) (biases : list (list Q))
    (inputVector : list Z) : Result (list (option Q)) :=
  predictFrom weights biases 0 (map (fun z => Some (inject_Z z)) inputVector).

(** [predict] on a genome of this script. *)
Definition predict (nn : NeuralNetwork) (inputVector : list Z)
  : Result (list (option Q)) :=
  predictRows (map (map RowNumber) (weights nn)) (biases nn) inputVector.

(** [softmax], on numbers that are not [NaN]. *)
Definition softmax (values : list Q) : list Q :=
  match Math_max values with
  | None => []
  | Some maxVal =>
      let expValues := map (fun v => Math_exp (v - maxVal)) values in
      let sumExp := foldl Qplus 0%Q expValues in
      map (fun v => v / sumExp)%Q expValues
  end.

End Network.

(** ** Vocabulary of the further properties *)

Section Footprint.
Context {W : World}.

(** The elementary effects a tick is made of.  Every statement of [update]
    that touches the simulation is one of them. *)
Inductive Effect : Simulation -> Simulation -> Prop :=
| eff_getCell x y s :
    Effect s (getCell x y s).2
| eff_random k s :
    draws s <= k -> Effect s (set_draws k s)
| eff_nextAction i action s :
    Effect s (updAnt i (Ant.set_nextAction action) s)
| eff_move i this x y cell s :
    ants s !! i = Some this ->
    grid s !! (x, y) = Some cell -> cell <> Cell.terrain ->
    (Z.abs (x - Ant.x this) + Z.abs (y - Ant.y this) = 1)%Z ->
    Effect s (updAnt i (Ant.set_pos x y) s)
| eff_damage j d s :
    (0 <= d)%Q ->
    Effect s (updAnt j (fun t => Ant.set_health (Ant.health t - d) t) s)
| eff_heal i cap gain s :
    cap = 100%Q \/ cap = maxAntHealth params ->
    Effect s (updAnt i (fun a => Ant.set_health
                          (Math_min cap (Ant.health a + gain)) a) s)
| eff_halve i s :
    Effect s (updAnt i (fun a => Ant.set_health (Ant.health a / 2) a) s)
| eff_clear i this s :
    ants s !! i = Some this ->
    grid s !! (Ant.x this, Ant.y this) = Some Cell.food ->
    Effect s (clearCell (Ant.x this) (Ant.y this) s)
| eff_push p parent nn k s :
    ants s !! p = Some parent ->
    draws s <= k ->
    length (ants s) < maxAnts params ->
    (weights nn = weights (Ant.neuralNetwork parent) /\
     biases nn = biases (Ant.neuralNetwork parent) \/
     exists j partner k0,
       ants s !! j = Some partner /\
       crossover (Ant.neuralNetwork parent) (Ant.neuralNetwork partner) k0
         = Ok (nn, k)) ->
    Effect s (set_uuids (S (uuids s))
                (set_draws k
                   (set_ants (ants s ++ [newEgg (Ant.x parent) (Ant.y parent)
                                           nn (uuids s)]) s)))
| eff_tick i s :
    Effect s (updAnt i Ant.tick s)
| eff_hatch i s :
    Effect s (updAnt i hatch s)
| eff_retire i s :
    Effect s (retire i s).

End Footprint.

(** What a tick may make of a cell that is already classified: it keeps its
    type, or it was food and has been eaten. *)
Definition cellAfter (c c' : Cell.t) : Prop :=
  c' = c \/ (c = Cell.food /\ c' = Cell.empty).

(** Every ant stands on a cell that is classified and is not terrain. *)
Definition onOpenGround (s : Simulation) : Prop :=
  forall a, a ∈ ants s ->
    exists c, grid s !! (Ant.x a, Ant.y a) = Some c /\ c <> Cell.terrain.

(** The stages in the order an ant goes through them. *)
Definition stageRank (st : Stage.t) : nat :=
  match st with
  | Stage.egg => 0
  | Stage.adult => 1
  | Stage.old => 2
  end.

(** [b] is the record of the ant [a] one tick later: the same identifier and
    genome, one tick older, at most one cell away, no earlier stage. *)
Definition tickedFrom (a b : Ant.t) : Prop :=
  Ant.id b = Ant.id a /\
  Ant.neuralNetwork b = Ant.neuralNetwork a /\
  Ant.age b = S (Ant.age a) /\
  Ant.stageAge b = S (Ant.stageAge a) /\
  (Z.abs (Ant.x b - Ant.x a) + Z.abs (Ant.y b - Ant.y a) <= 1)%Z /\
  stageRank (Ant.stage a) <= stageRank (Ant.stage b).

(** The record [b] found at an index while phase 3 stands at index [i],
    against the record [a] found there when the tick began. *)
Definition tickedSoFar (visited : bool) (a b : Ant.t) : Prop :=
  Ant.id b = Ant.id a /\
  Ant.neuralNetwork b = Ant.neuralNetwork a /\
  if visited then
    Ant.age b = S (Ant.age a) /\ Ant.stageAge b = S (Ant.stageAge a) /\
    (Z.abs (Ant.x b - Ant.x a) + Z.abs (Ant.y b - Ant.y a) <= 1)%Z /\
    stageRank (Ant.stage a) <= stageRank (Ant.stage b)
  else
    Ant.age b = Ant.age a /\ Ant.stageAge b = Ant.stageAge a /\
    Ant.x b = Ant.x a /\ Ant.y b = Ant.y a /\ Ant.stage b = Ant.stage a.

(** The cell a movement action aims at: [up] is towards smaller [y]. *)
Definition destination (action : Action.t) (a : Ant.t) : Z * Z :=
  match action with
  | Action.up => (Ant.x a, Ant.y a - 1)
  | Action.down => (Ant.x a, Ant.y a + 1)
  | Action.left => (Ant.x a - 1, Ant.y a)
  | Action.right => (Ant.x a + 1, Ant.y a)
  | _ => (Ant.x a, Ant.y a)
  end%Z.

(** The two ants stand on cells that share a side. *)
Definition adjacent (a b : Ant.t) : Prop :=
  (Z.abs (Ant.x b - Ant.x a) + Z.abs (Ant.y b - Ant.y a) = 1)%Z.

Section Founders.
Context {W : World}.

(** The ant that the constructor of [Simulation] makes when the streams of
    draws and of identifiers stand at [k] and [u]. *)
Definition founder (seedGenome : option NeuralNetwork) (k u : nat) (a : Ant.t)
  : Prop :=
  Ant.id a = u /\
  Ant.x a = Math_floor (Math_random k * 100 - 50) /\
  Ant.y a = Math_floor (Math_random (S k) * 100 - 50) /\
  Ant.stage a = Stage.adult /\ Ant.age a = 0 /\ Ant.stageAge a = 0 /\
  Ant.health a = 100%Q /\ Ant.nextAction a = None /\
  match seedGenome with
  | Some nn => Ant.neuralNetwork a = nn
  | None =>
      weights (Ant.neuralNetwork a) = (randomWeights (k + 2)).1 /\
      biases (Ant.neuralNetwork a) = (randomBiases (k + 32)).1
  end.

(** The draws one founder costs: two for its cell, sixty for a random genome. *)
Definition founderDraws (seedGenome : option NeuralNetwork) : nat :=
  match seedGenome with
  | Some _ => 2
  | None => 62
  end.

End Founders.

Section Windows.
Context {W : World}.

(** The cell that [spawnFood] turns into food with the two draws made from
    position [k] on, the visible area going from [left] to [right] and from
    [top] to [bottom]. *)
Definition foodCell (left top right bottom : Z) (k : nat) : Z * Z :=
  ((Math_floor (Math_random k * inject_Z (right - left + 1)) + left)%Z,
   (Math_floor (Math_random (S k) * inject_Z (bottom - top + 1)) + top)%Z).

(** The cell under the pixel of the canvas at [(px, py)]: the cell the
    click handler looks an ant up on. *)
Definition cellUnder (v : View) (px py : Q) : Z * Z :=
  (Math_floor ((px + camera_x v) / cellSize),
   Math_floor ((py + camera_y v) / cellSize)).

End Windows.

(** ** Concrete worlds and states used to exercise the theorems *)

(** A stand-in for [Math.exp] that is positive everywhere and 1 at 0. *)
Definition exp_example (x : Q) : Q :=
  if Qle_bool 0 x then (1 + x)%Q else (/ (1 - x))%Q.

(** [NeuralNetwork.softmax(this.neuralNetwork.predict(inputVector))], the
    pipeline of [decideAction], run on the [predict] and the [softmax] above.
    It stands for the script's on the genomes for which [predict] returns
    numbers; the states below hold no other genome. *)
Definition network (Math_exp : Q -> Q) (nn : NeuralNetwork)
    (inputVector : list Z) : list Q :=
  match predict Math_exp nn inputVector with
  | Ok output =>
      match mapM id output with
      | Some values => softmax Math_exp values
      | None => []
      end
  | _ => []
  end.

(** Two genomes of the shape that [randomWeights] and [randomBiases] build,
    three rows of ten numbers.  The last row of biases is zero: the ten
    outputs of [predict] are [sigmoid(0) = 1/2] each, and [softmax] gives
    each of the ten indices the probability 1/10.  No value of [Math.exp]
    other than [exp(0) = 1] has a part in these probabilities. *)
Definition nnA : NeuralNetwork :=
  mkNN [repeat (1 # 2) 10; repeat (-1 # 4) 10; repeat (1 # 8) 10]%Q
       [repeat (1 # 10) 10; repeat (-1 # 10) 10; repeat 0 10]%Q.
Definition nnB : NeuralNetwork :=
  mkNN [repeat (-1 # 2) 10; repeat (3 # 4) 10; repeat (-1 # 8) 10]%Q
       [repeat (2 # 10) 10; repeat (3 # 10) 10; repeat 0 10]%Q.

(** The default parameters and every draw equal to 3/4.  A cell never seen
    is classified empty; on [nnA] and [nnB] the draw 3/4 selects index 7 of
    the ten: an adult proposes [mate]. *)
Definition world_example : World := {|
  params := default_params;
  Math_random := fun _ => (3 # 4)%Q;
  softmax_predict := network exp_example |}.

(** The same world with eggs that hatch after one tick. *)
Definition world_hatch_at_once : World := {|
  params := mkParams 500 50 200 100 (5 # 100) (5 # 100) 1 100 5 (1 # 10);
  Math_random := fun _ => (3 # 4)%Q;
  softmax_predict := network exp_example |}.

(** Every draw equal to 1/4, a negative jitter: on [nnA] and [nnB] the draw
    selects index 2, and an adult proposes [left]. *)
Definition world_low_draws : World := {|
  params := default_params;
  Math_random := fun _ => (1 # 4)%Q;
  softmax_predict := network exp_example |}.

(** Every draw equal to 11/20: on [nnA] and [nnB] the draw selects index 5,
    and an adult proposes [eat]. *)
Definition world_eater : World := {|
  params := default_params;
  Math_random := fun _ => (11 # 20)%Q;
  softmax_predict := network exp_example |}.

(** Two adults side by side, in good health. *)
Definition pair_state : Simulation :=
  mkSim [Ant.mk 0 0 10 100 Stage.adult 10 0 nnA None;
         Ant.mk 1 0 10 100 Stage.adult 10 1 nnB None] ∅ 0 2.

(** Two adults side by side with one point of health left. *)
Definition frail_pair_state : Simulation :=
  mkSim [Ant.mk 0 0 10 1 Stage.adult 10 0 nnA None;
         Ant.mk 1 0 10 1 Stage.adult 10 1 nnB None] ∅ 0 2.

(** One adult, one tick short of [antLifespan = 500]. *)
Definition elder_state : Simulation :=
  mkSim [Ant.mk 0 0 499 100 Stage.adult 499 0 nnA None] ∅ 0 1.

(** One adult alone, standing on a food cell. *)
Definition lone_food_state : Simulation :=
  mkSim [Ant.mk 0 0 10 50 Stage.adult 10 0 nnA None]
        {[ (0%Z, 0%Z) := Cell.food ]} 0 1.

(** No ant, one terrain cell. *)
Definition terrain_state : Simulation :=
  mkSim [] {[ (0%Z, 0%Z) := Cell.terrain ]} 0 0.

(** A canvas of 100 by 100 pixels, the camera at the origin. *)
Definition view_example : View := mkView 0 0 100 100.

(** A paused page. *)
Definition paused_page : Page := mkPage elder_state 0 0 true 30 view_example.

(** * Proofs *)

Section Proofs.
Context {W : World}.

(** ** Sampling *)

Lemma sampleIndex_loop_range ps : forall i r z,
  sampleIndex_loop ps i r = Some z -> (i <= z < i + Z.of_nat (length ps))%Z.
Proof.
  induction ps as [|p ps IH]; intros i r z H; simpl in H; [discriminate|].
  destruct (Qle_bool (r - p) 0).
  - inversion H; subst. simpl length. lia.
  - apply IH in H. simpl length. lia.
Qed.

Lemma sampleIndex_range r ps : ps <> [] ->
  (0 <= sampleIndex r ps < Z.of_nat (length ps))%Z.
Proof.
  intros Hne. unfold sampleIndex.
  destruct (sampleIndex_loop ps 0 r) as [z|] eqn:E.
  - apply sampleIndex_loop_range in E. lia.
  - destruct ps; [congruence|]. simpl length. lia.
Qed.

(** C7.  On a probability vector whose sum is within a tolerance below 1 of
    1, and a draw [r] in [[0, 1)], [sampleIndex] returns an index of the
    vector; on the vector [1, 0, 0, ...] it returns index 0 whatever the
    draw. *)
Theorem C7_sampleIndex (tol r : Q) (probabilities : list Q) (n : nat) :
  (tol < 1)%Q -> (Qabs (Qsum probabilities - 1) <= tol)%Q ->
  (0 <= r)%Q -> (r < 1)%Q ->
  (0 <= sampleIndex r probabilities < Z.of_nat (length probabilities))%Z /\
  sampleIndex r (1%Q :: repeat 0%Q n) = 0%Z.
Proof.
  intros Htol Hsum Hr0 Hr1. split.
  - apply sampleIndex_range. intros ->. simpl in Hsum.
    assert (Qabs (0 - 1) == 1)%Q as E by reflexivity.
    rewrite E in Hsum. lra.
  - unfold sampleIndex. simpl.
    destruct (Qle_bool (r - 1) 0) eqn:E; [reflexivity|].
    exfalso. assert (Qle_bool (r - 1) 0 = true) as E'.
    { apply Qle_bool_iff. lra. }
    congruence.
Qed.

(** ** Crossover *)

Lemma pickLayers_length mine theirs n : length (pickLayers mine theirs n) = n.
Proof. unfold pickLayers. by rewrite length_map, length_seq. Qed.

Lemma pickLayers_lookup mine theirs n i : i < n ->
  pickLayers mine theirs n !! i =
    Some (if Nat.even i then mine !! i else theirs !! i).
Proof.
  intros Hi. unfold pickLayers. rewrite list_lookup_fmap.
  rewrite lookup_seq_lt by assumption. reflexivity.
Qed.

Lemma pickLayers_defined mine theirs n :
  n <= length mine -> n <= length theirs ->
  Forall (fun l => is_Some l) (pickLayers mine theirs n).
Proof.
  intros H1 H2. apply Forall_lookup. intros i l Hl.
  assert (i < n) as Hi.
  { apply lookup_lt_Some in Hl. by rewrite pickLayers_length in Hl. }
  rewrite pickLayers_lookup in Hl by assumption. inversion Hl; subst.
  destruct (Nat.even i); apply lookup_lt_is_Some; lia.
Qed.

Lemma shape_length l1 l2 : shape l1 = shape l2 -> length l1 = length l2.
Proof.
  unfold shape. intros H. apply (f_equal length) in H.
  by rewrite !length_map in H.
Qed.

Lemma shape_lookup l1 l2 i a :
  shape l1 = shape l2 -> l1 !! i = Some a ->
  exists b, l2 !! i = Some b /\ length b = length a.
Proof.
  intros Hs Ha. pose proof (f_equal (fun l => l !! i) Hs) as Hi. simpl in Hi.
  unfold shape in Hi. rewrite !list_lookup_fmap, Ha in Hi. simpl in Hi.
  destruct (l2 !! i) as [b|]; simpl in Hi; [|discriminate].
  exists b. split; [done|]. congruence.
Qed.

Section CrossoverRelation.

(** Whatever relation [R] every single mutation establishes between a value
    and its mutated copy, the crossover establishes layer by layer between
    the parents and the child. *)
Variable R : Q -> Q -> Prop.
Hypothesis R_mutation :
  forall v j, R v (v + (Math_random j - (1 # 2)) * genomeNoise params)%Q.

Lemma noiseLayer_related layer : forall k, Forall2 R layer (noiseLayer layer k).1.
Proof.
  induction layer as [|v layer IH]; intros k; simpl; [constructor|].
  specialize (IH (S k)). destruct (noiseLayer layer (S k)) as [rest' k'].
  simpl in *. by constructor.
Qed.

Lemma noiseLayers_related layers : forall k,
  Forall (fun l => is_Some l) layers ->
  exists out k', noiseLayers layers k = Ok (out, k') /\
    Forall2 (fun src lay => layerRel R src (Some lay)) layers out.
Proof.
  induction layers as [|l layers IH]; intros k Hall; simpl.
  - exists [], k. split; [reflexivity|constructor].
  - inversion Hall as [|? ? [src ->] Hrest]; subst.
    pose proof (noiseLayer_related src k) as Hw.
    destruct (noiseLayer src k) as [lay k1].
    destruct (IH k1 Hrest) as (out & k' & -> & HF).
    simpl. exists (lay :: out), k'. split; [reflexivity|].
    by constructor.
Qed.

Lemma picked_shape mine theirs out :
  shape mine = shape theirs ->
  Forall2 (fun src lay => layerRel R src (Some lay))
    (pickLayers mine theirs (length mine)) out ->
  shape out = shape mine.
Proof.
  intros Hs HF. unfold shape. apply list_eq. intros i.
  rewrite !list_lookup_fmap.
  pose proof (Forall2_length _ _ _ HF) as Hlen.
  rewrite pickLayers_length in Hlen.
  destruct (decide (i < length mine)) as [Hi|Hi].
  - destruct (lookup_lt_is_Some_2 out i ltac:(lia)) as [lay Hlay].
    destruct (lookup_lt_is_Some_2 mine i Hi) as [m Hm].
    rewrite Hlay, Hm. simpl. f_equal.
    pose proof (Forall2_lookup_lr _ _ _ i _ _ HF
                  (pickLayers_lookup mine theirs _ i Hi) Hlay) as Hl.
    destruct (shape_lookup mine theirs i m Hs Hm) as (t & Ht & Hlt).
    destruct (Nat.even i).
    + rewrite Hm in Hl. simpl in Hl. symmetry. by eapply Forall2_length.
    + rewrite Ht in Hl. simpl in Hl. apply Forall2_length in Hl. congruence.
  - rewrite !lookup_ge_None_2 by lia. reflexivity.
Qed.

Lemma picked_layers mine theirs out i :
  i < length mine ->
  Forall2 (fun src lay => layerRel R src (Some lay))
    (pickLayers mine theirs (length mine)) out ->
  layerRel R ((if Nat.even i then mine else theirs) !! i) (out !! i).
Proof.
  intros Hi HF.
  pose proof (Forall2_length _ _ _ HF) as Hlen.
  rewrite pickLayers_length in Hlen.
  destruct (lookup_lt_is_Some_2 out i ltac:(lia)) as [lay Hlay].
  pose proof (Forall2_lookup_lr _ _ _ i _ _ HF
                (pickLayers_lookup mine theirs _ i Hi) Hlay) as Hl.
  rewrite Hlay. destruct (Nat.even i); exact Hl.
Qed.

Lemma crossover_related (ant partner : NeuralNetwork) (k : nat) :
  shape (weights ant) = shape (weights partner) ->
  shape (biases ant) = shape (biases partner) ->
  length (biases ant) = length (weights ant) ->
  exists child k',
    crossover ant partner k = Ok (child, k') /\
    shape (weights child) = shape (weights ant) /\
    shape (biases child) = shape (biases ant) /\
    forall i, i < length (weights ant) ->
      layerRel R ((if Nat.even i then weights ant else weights partner) !! i)
                 (weights child !! i) /\
      layerRel R ((if Nat.even i then biases ant else biases partner) !! i)
                 (biases child !! i).
Proof.
  intros Hw Hb Hlen. unfold crossover.
  pose proof (shape_length _ _ Hw) as Hlw.
  pose proof (shape_length _ _ Hb) as Hlb.
  destruct (noiseLayers_related (pickLayers (weights ant) (weights partner)
              (length (weights ant))) k) as (ws & k1 & -> & HFw).
  { apply pickLayers_defined; lia. }
  simpl.
  destruct (noiseLayers_related (pickLayers (biases ant) (biases partner)
              (length (weights ant))) k1) as (bs & k2 & -> & HFb).
  { apply pickLayers_defined; lia. }
  simpl. exists (mkNN ws bs), k2. simpl.
  rewrite <- Hlen in HFb.
  split; [done|]. split; [exact (picked_shape _ _ _ Hw HFw)|].
  split; [exact (picked_shape _ _ _ Hb HFb)|].
  intros i Hi. split; apply picked_layers; (done || lia).
Qed.

End CrossoverRelation.

Lemma noise_bound (v r : Q) :
  (0 <= genomeNoise params)%Q -> (0 <= r)%Q -> (r < 1)%Q ->
  withinNoise v (v + (r - (1 # 2)) * genomeNoise params).
Proof.
  intros Hn H0 H1. unfold withinNoise.
  generalize dependent (genomeNoise params). intros g Hn.
  split.
  - assert (0 <= r * g)%Q by (apply Qmult_le_0_compat; assumption).
    assert ((r - (1 # 2)) * g == r * g - g / 2)%Q as -> by field. lra.
  - assert (0 <= (1 - r) * g)%Q by (apply Qmult_le_0_compat; lra).
    assert ((r - (1 # 2)) * g == g / 2 - (1 - r) * g)%Q as -> by field. lra.
Qed.

(** Two parents of the same shapes always have a child, of those shapes. *)
Lemma crossover_returns (ant partner : NeuralNetwork) (k : nat) :
  shape (weights ant) = shape (weights partner) ->
  shape (biases ant) = shape (biases partner) ->
  length (biases ant) = length (weights ant) ->
  exists child k',
    crossover ant partner k = Ok (child, k') /\
    shape (weights child) = shape (weights ant) /\
    shape (biases child) = shape (biases ant).
Proof.
  intros Hw Hb Hlen.
  destruct (crossover_related (fun _ _ => True) ltac:(done) ant partner k Hw Hb Hlen)
    as (child & k' & ? & ? & ? & _).
  eauto.
Qed.

(** C1.  Crossover of two genomes of identical layer shapes (each with as many
    bias layers as weight layers) returns a genome of the same shapes, whose
    layer [i] comes from the initiating parent when [i] is even and from the
    partner when [i] is odd, every value within [genomeNoise / 2] of the value
    it was taken from. *)
Theorem C1_crossover (ant partner : NeuralNetwork) (k : nat) :
  (0 <= genomeNoise params)%Q -> randomInRange ->
  shape (weights ant) = shape (weights partner) ->
  shape (biases ant) = shape (biases partner) ->
  length (biases ant) = length (weights ant) ->
  exists child k',
    crossover ant partner k = Ok (child, k') /\
    shape (weights child) = shape (weights ant) /\
    shape (weights child) = shape (weights partner) /\
    shape (biases child) = shape (biases ant) /\
    shape (biases child) = shape (biases partner) /\
    forall i, i < length (weights ant) ->
      layerFrom ((if Nat.even i then weights ant else weights partner) !! i)
                (weights child !! i) /\
      layerFrom ((if Nat.even i then biases ant else biases partner) !! i)
                (biases child !! i).
Proof.
  intros Hn Hr Hw Hb Hlen.
  destruct (crossover_related withinNoise
              (fun v j => noise_bound v _ Hn (proj1 (Hr j)) (proj2 (Hr j)))
              ant partner k Hw Hb Hlen)
    as (child & k' & Hc & Sw & Sb & Hlayers).
  exists child, k'. repeat split; try congruence; by apply Hlayers.
Qed.

(** ** Frames of the queries and of the actions *)

Lemma getCell_ants x y s : ants (getCell x y s).2 = ants s.
Proof. unfold getCell. destruct (grid s !! (x, y)); reflexivity. Qed.

Lemma getCell_uuids x y s : uuids (getCell x y s).2 = uuids s.
Proof. unfold getCell. destruct (grid s !! (x, y)); reflexivity. Qed.

Lemma getCell_draws x y s : draws s <= draws (getCell x y s).2.
Proof. unfold getCell. destruct (grid s !! (x, y)); simpl; lia. Qed.

Lemma getCell_lookup x y s :
  grid (getCell x y s).2 !! (x, y) = Some (getCell x y s).1.
Proof.
  unfold getCell. destruct (grid s !! (x, y)) eqn:E; simpl; [exact E|].
  apply lookup_insert_eq.
Qed.

Lemma getCell_stable x y s k c :
  grid s !! k = Some c -> grid (getCell x y s).2 !! k = Some c.
Proof.
  intros H. unfold getCell. destruct (grid s !! (x, y)) eqn:E; simpl; [exact H|].
  rewrite lookup_insert_ne; [exact H|]. intros <-. congruence.
Qed.

Lemma getCell_known x y s c : grid s !! (x, y) = Some c -> getCell x y s = (c, s).
Proof. intros H. unfold getCell. by rewrite H. Qed.

(** Name the result of the call of [getCell] in the goal, with its frame. *)
Ltac open_getCell cell s1 Ha Hu Hd :=
  match goal with
  | |- context [getCell ?a ?b ?s] =>
      pose proof (getCell_ants a b s) as Ha;
      pose proof (getCell_uuids a b s) as Hu;
      pose proof (getCell_draws a b s) as Hd;
      destruct (getCell a b s) as [cell s1];
      simpl in Ha, Hu, Hd
  end.

Lemma getAntAt_Some x y s j :
  getAntAt x y s = Some j <->
  exists a, ants s !! j = Some a /\ (Ant.x a = x /\ Ant.y a = y) /\
    forall k b, ants s !! k = Some b -> k < j -> ~ (Ant.x b = x /\ Ant.y b = y).
Proof.
  unfold getAntAt. split.
  - intros H. destruct (list_find _ (ants s)) as [[j' a]|] eqn:E; [|discriminate].
    simpl in H. inversion H; subst. apply list_find_Some in E. eauto.
  - intros (a & H1 & H2 & H3).
    assert (list_find (fun ant => Ant.x ant = x /\ Ant.y ant = y) (ants s) = Some (j, a)) as ->.
    { apply list_find_Some. auto. }
    reflexivity.
Qed.

Lemma getAntAt_firstAt x y s j : getAntAt x y s = Some j -> firstAt j (ants s).
Proof.
  intros H. apply getAntAt_Some in H as (a & H1 & [Hx Hy] & H3).
  exists a. split; [assumption|]. intros k c Hc Hk. rewrite Hx, Hy. eauto.
Qed.

Lemma getAntAt_pos x y s j a :
  getAntAt x y s = Some j -> ants s !! j = Some a -> Ant.x a = x /\ Ant.y a = y.
Proof.
  intros H Ha. apply getAntAt_Some in H as (a' & H1 & H2 & _). congruence.
Qed.

Lemma alter_at {A} (f : A -> A) (l : list A) i a :
  l !! i = Some a -> alter f i l !! i = Some (f a).
Proof. intros H. by rewrite list_lookup_alter_eq, H. Qed.

Lemma sameCore_refl a : sameCore a a.
Proof. by repeat split. Qed.

Lemma effect_alter action i this s s' f :
  ants s !! i = Some this ->
  ants s' = alter f i (ants s) -> uuids s' = uuids s ->
  sameCore this (f this) ->
  (isMove action = false ->
   Ant.x (f this) = Ant.x this /\ Ant.y (f this) = Ant.y this) ->
  ActEffect action i this s s'.
Proof.
  intros Hi Ha Hu Hc Hp. repeat split.
  - exists (f this). rewrite Ha. split; [by apply alter_at|]. by split.
  - intros j b Hj Hb. left. rewrite Ha. by rewrite list_lookup_alter_ne.
  - left. rewrite Ha, length_alter. by split.
Qed.

Lemma effect_skip action i this s s' :
  ants s !! i = Some this ->
  ants s' = ants s -> uuids s' = uuids s ->
  ActEffect action i this s s'.
Proof.
  intros Hi Ha Hu. repeat split.
  - exists this. rewrite Ha. split; [assumption|]. split; [apply sameCore_refl|].
    by intros _.
  - intros j b Hj Hb. left. by rewrite Ha.
  - left. by rewrite Ha.
Qed.

Lemma effect_attack i this s s' j tgt (f g : Ant.t -> Ant.t) :
  ants s !! i = Some this -> ants s !! j = Some tgt -> j <> i ->
  firstAt j (ants s) ->
  ants s' = alter f i (alter g j (ants s)) -> uuids s' = uuids s ->
  (forall a, exists h, f a = Ant.set_health h a) ->
  (forall a, exists h, g a = Ant.set_health h a) ->
  ActEffect (Some Action.attack) i this s s'.
Proof.
  intros Hi Hj Hne Hfirst Ha Hu Hf Hg. repeat split.
  - exists (f this). rewrite Ha. split.
    + apply alter_at. by rewrite list_lookup_alter_ne.
    + destruct (Hf this) as [h ->]. split; [by repeat split|]. by intros _.
  - intros k b Hk Hb. rewrite Ha. rewrite list_lookup_alter_ne by congruence.
    destruct (decide (k = j)) as [->|Hkj].
    + right. split; [|by split].
      rewrite list_lookup_alter_eq, Hb. simpl.
      destruct (Hg b) as [h ->]. by exists h.
    + left. by rewrite list_lookup_alter_ne.
  - left. rewrite Ha, !length_alter. by split.
Qed.

Lemma orElse_Some {A} (a b : option A) v :
  orElse a b = Some v -> a = Some v \/ b = Some v.
Proof. destruct a; simpl; auto. Qed.

Lemma processAction_effect action i s this :
  ants s !! i = Some this ->
  ActEffect action i this s (processAction action i s).
Proof.
  intros Hi. unfold processAction. rewrite Hi.
  destruct (isMove action) eqn:Hmove.
  - open_getCell cell s1 Ha Hu Hd. case_decide.
    + by apply effect_skip.
    + eapply effect_alter; [done|simpl; by rewrite Ha|done|by repeat split|].
      congruence.
  - destruct action as [[]|]; try discriminate; try by apply effect_skip.
    + (* attack *)
      match goal with |- context [match ?t with Some _ => _ | None => _ end] =>
        destruct t as [j|] eqn:Ht end; [|by apply effect_skip].
      destruct (ants s !! j) as [tgt|] eqn:Hj; [|by apply effect_skip].
      assert (firstAt j (ants s) /\ j <> i) as [Hfirst Hne].
      { repeat (apply orElse_Some in Ht as [Ht|Ht]);
          (split; [by eapply getAntAt_firstAt|]); intros ->;
          destruct (getAntAt_pos _ _ _ _ _ Ht Hi); lia. }
      case_decide.
      * eapply (effect_attack i this s _ j tgt); try done.
        -- intros a. eexists. reflexivity.
        -- intros a. eexists. reflexivity.
      * eapply (effect_attack i this s _ j tgt id); try done.
        -- simpl. by rewrite (list_alter_id id) by done.
        -- intros [? ? ? h ? ? ? ? ?]. by exists h.
        -- intros a. eexists. reflexivity.
    + (* eat *)
      open_getCell cell s1 Ha Hu Hd. case_decide.
      * eapply effect_alter; [done|simpl; by rewrite Ha|done|by repeat split|done].
      * by apply effect_skip.
    + (* sleep *)
      eapply effect_alter; [done|reflexivity|done|by repeat split|done].
    + (* asexual *)
      destruct (length (ants s) <? maxAnts params) eqn:Hlt;
        [|by apply effect_skip].
      apply Nat.ltb_lt in Hlt. unfold ActEffect. cbn. repeat split.
      * eexists. rewrite lookup_app_l by (rewrite length_alter; by eapply lookup_lt_Some).
        split; [by apply alter_at|]. split; [by repeat split|done].
      * intros j b Hj Hb. left.
        rewrite lookup_app_l by (rewrite length_alter; by eapply lookup_lt_Some).
        by rewrite list_lookup_alter_ne.
      * right. repeat split; try done.
        -- rewrite lookup_app_r by (by rewrite length_alter).
           rewrite length_alter, Nat.sub_diag. reflexivity.
        -- rewrite length_app, length_alter. simpl. lia.
Qed.

Lemma act_effect i s this :
  ants s !! i = Some this ->
  ActEffect (Ant.nextAction this) i this s (act i s).
Proof.
  intros Hi. unfold act. rewrite Hi. case_decide.
  - by apply effect_skip.
  - by apply processAction_effect.
Qed.

Lemma alter_insert_at {A} (f : A -> A) (l : list A) i a :
  l !! i = Some a -> alter f i l = <[i := f a]> l.
Proof.
  intros H. apply list_eq. intros j.
  destruct (decide (i = j)) as [->|Hne].
  - rewrite list_lookup_alter_eq, H. simpl.
    by rewrite list_lookup_insert_eq by (by eapply lookup_lt_Some).
  - by rewrite list_lookup_alter_ne, list_lookup_insert_ne.
Qed.

Lemma updAnt_twice_ants i s a f g :
  ants s !! i = Some a ->
  ants (updAnt i g (updAnt i f s)) = <[i := g (f a)]> (ants s).
Proof.
  intros Hi. unfold updAnt. cbn.
  rewrite (alter_insert_at f _ i a) by done.
  rewrite (alter_insert_at g _ i (f a))
    by (apply list_lookup_insert_eq; by eapply lookup_lt_Some).
  by rewrite list_insert_insert_eq.
Qed.

Lemma ageing_ants i s a :
  ants s !! i = Some a ->
  ants (ageing i s) = <[i := agedAnt (draws s) a]> (ants s).
Proof.
  intros Hi. unfold ageing, retire.
  pose proof (updAnt_twice_ants i s a Ant.tick hatch Hi) as H2.
  assert (draws (updAnt i hatch (updAnt i Ant.tick s)) = draws s) as Hd by done.
  set (s2 := updAnt i hatch (updAnt i Ant.tick s)) in *.
  assert (ants s2 !! i = Some (hatch (Ant.tick a))) as Hi2.
  { rewrite H2. apply list_lookup_insert_eq. by eapply lookup_lt_Some. }
  rewrite Hi2, Hd. unfold agedAnt.
  case_decide; [|done].
  destruct (lifespanReached _ _); [|done].
  unfold updAnt. cbn.
  rewrite (alter_insert_at _ _ i _ Hi2), H2.
  by rewrite list_insert_insert_eq.
Qed.

Lemma alter_none {A} (f : A -> A) (l : list A) i :
  l !! i = None -> alter f i l = l.
Proof.
  intros H. apply list_eq. intros j.
  destruct (decide (i = j)) as [->|Hne].
  - by rewrite list_lookup_alter_eq, H.
  - by rewrite list_lookup_alter_ne.
Qed.

Lemma ageing_none i s : ants s !! i = None -> ageing i s = s.
Proof.
  intros Hi. unfold ageing, retire, updAnt. cbn.
  rewrite !(alter_none _ _ _ Hi), Hi.
  by destruct s.
Qed.

Lemma ageing_uuids i s : uuids (ageing i s) = uuids s.
Proof.
  unfold ageing, retire. cbn.
  destruct (alter _ _ _ !! i); [|done]. case_decide; [|done].
  by destruct (lifespanReached _ _).
Qed.

Lemma ageing_grid i s : grid (ageing i s) = grid s.
Proof.
  unfold ageing, retire. cbn.
  destruct (alter _ _ _ !! i); [|done]. case_decide; [|done].
  by destruct (lifespanReached _ _).
Qed.

Lemma ageing_draws i s : draws s <= draws (ageing i s) <= S (draws s).
Proof.
  unfold ageing, retire. cbn.
  destruct (alter _ _ _ !! i); [|cbn; lia]. case_decide; [|cbn; lia].
  destruct (lifespanReached _ _); cbn; lia.
Qed.

Lemma processAction_draws action i s : draws s <= draws (processAction action i s).
Proof.
  unfold processAction. destruct (ants s !! i) as [this|]; [|done].
  destruct (isMove action).
  - open_getCell cell s1 Ha Hu Hd. by case_decide.
  - destruct action as [[]|]; try done.
    + repeat case_match; done.
    + open_getCell cell s1 Ha Hu Hd. by case_decide.
    + case_match; cbn; lia.
Qed.

Lemma ageing_draws_adult i s a :
  ants s !! i = Some a ->
  Ant.stage (hatch (Ant.tick a)) = Stage.adult ->
  draws (ageing i s) = S (draws s).
Proof.
  intros Hi Hadult. unfold ageing, retire.
  rewrite (updAnt_twice_ants i s a Ant.tick hatch Hi).
  rewrite list_lookup_insert_eq by (by eapply lookup_lt_Some).
  rewrite decide_True by done. by destruct (lifespanReached _ _).
Qed.

Lemma act_draws i s : draws s <= draws (act i s).
Proof.
  unfold act. destruct (ants s !! i); [|done]. case_decide; [done|].
  apply processAction_draws.
Qed.

Lemma actStep_effect i s this :
  ants s !! i = Some this -> StepEffect i this s (actStep i s).
Proof.
  intros Hi. destruct (act_effect i s this Hi) as ((this1 & H1 & Hc & Hp) & Ho & Hl).
  pose proof (ageing_ants i (act i s) this1 H1) as Ha.
  assert (i < length (ants (act i s))) as Hlt by (by eapply lookup_lt_Some).
  unfold actStep. split; [|split].
  - exists this1, (draws (act i s)).
    split; [done|]. split; [done|]. split; [apply act_draws|].
    split; [apply ageing_draws|].
    split; [by apply ageing_draws_adult|].
    rewrite Ha. by apply list_lookup_insert_eq.
  - intros j b Hj Hb. rewrite Ha, list_lookup_insert_ne by done.
    destruct (Ho j b Hj Hb) as [?|(? & ? & ?)]; auto.
  - rewrite Ha, length_insert, ageing_uuids, list_lookup_insert_ne.
    + destruct Hl as [?|(? & ? & ? & ? & ?)]; auto.
      right. repeat split; done.
    + apply lookup_lt_Some in Hi. lia.
Qed.

(** ** The live-array loop *)

Lemma forOf_inv {S} (size : S -> nat) (body : nat -> S -> Result S)
    (Inv : nat -> S -> Prop) :
  (forall i s s1, Inv i s -> i < size s -> body i s = Ok s1 -> Inv (Datatypes.S i) s1) ->
  forall fuel i s s', Inv i s -> forOf size body fuel i s = Ok s' ->
    exists i', i <= i' /\ size s' <= i' /\ Inv i' s'.
Proof.
  intros Hstep. induction fuel as [|fuel IH]; intros i s s' HI Hrun; simpl in Hrun.
  - destruct (size s <=? i) eqn:E; [|discriminate].
    inversion Hrun; subst. apply Nat.leb_le in E. eauto.
  - destruct (size s <=? i) eqn:E.
    + inversion Hrun; subst. apply Nat.leb_le in E. eauto.
    + apply Nat.leb_gt in E. destruct (body i s) as [s1| |] eqn:Hb; try discriminate.
      destruct (IH _ _ _ (Hstep _ _ _ HI E Hb) Hrun) as (i' & ? & ? & ?).
      exists i'. repeat split; try done. lia.
Qed.

Lemma forOf_fuel {S} (size : S -> nat) (body : nat -> S -> Result S)
    (Inv : nat -> S -> Prop) (bound : nat) :
  (forall i s, Inv i s -> i < size s ->
     match body i s with
     | Ok s1 => Inv (Datatypes.S i) s1 /\ size s1 <= Datatypes.S (size s) /\
                (bound <= i -> size s1 = size s)
     | TypeError => True
     | OutOfFuel => False
     end) ->
  forall fuel i s, Inv i s -> (size s - i) + (bound - i) <= fuel ->
    forOf size body fuel i s <> OutOfFuel.
Proof.
  intros Hstep. induction fuel as [|fuel IH]; intros i s HI Hf; simpl.
  - destruct (size s <=? i) eqn:E; [done|]. apply Nat.leb_gt in E. lia.
  - destruct (size s <=? i) eqn:E; [done|]. apply Nat.leb_gt in E.
    specialize (Hstep i s HI E). destruct (body i s) as [s1| |]; try done.
    destruct Hstep as (HI1 & Hsz & Hb). apply IH; [done|].
    destruct (decide (bound <= i)) as [Hbi|Hbi]; [rewrite (Hb Hbi)|]; lia.
Qed.

(** ** Phase 1 *)

Lemma visionLoop_frame this offsets : forall s,
  ants (visionLoop this offsets s).2 = ants s /\
  uuids (visionLoop this offsets s).2 = uuids s.
Proof.
  induction offsets as [|[dx dy] rest IH]; intros s; simpl; [done|].
  pose proof (getCell_ants (Ant.x this + dx) (Ant.y this + dy) s) as Ha.
  pose proof (getCell_uuids (Ant.x this + dx) (Ant.y this + dy) s) as Hu.
  destruct (getCell _ _ s) as [cell s1]. simpl in Ha, Hu.
  destruct (IH s1) as [Ha' Hu'].
  destruct (visionLoop this rest s1) as [values s2]. simpl in *.
  split; congruence.
Qed.

Lemma decideAction_frame this s :
  ants (decideAction this s).2 = ants s /\
  uuids (decideAction this s).2 = uuids s.
Proof.
  unfold decideAction. case_decide; [done|]. unfold processVision.
  destruct (visionLoop_frame this visionOffsets s) as [Ha Hu].
  destruct (visionLoop this visionOffsets s) as [v s1]. by simpl in *.
Qed.

Lemma decideStep_frame i s :
  (exists action, ants (decideStep i s) =
     alter (Ant.set_nextAction action) i (ants s)) /\
  uuids (decideStep i s) = uuids s.
Proof.
  unfold decideStep. destruct (ants s !! i) as [ant|] eqn:Hi.
  - destruct (decideAction_frame ant s) as [Ha Hu].
    destruct (decideAction ant s) as [action s1]. simpl in *.
    split; [exists action; by rewrite Ha|done].
  - split; [|done]. exists None. symmetry. by apply alter_none.
Qed.

Lemma sameButAction_refl a : sameButAction a a.
Proof. exists (Ant.nextAction a). by destruct a. Qed.

Lemma sameButAction_trans a b c :
  sameButAction a b -> sameButAction b c -> sameButAction a c.
Proof. intros [x ->] [z ->]. by exists z. Qed.

Lemma decideSteps_frame l : forall s0 s,
  Forall2 sameButAction (ants s0) (ants s) -> uuids s = uuids s0 ->
  Forall2 sameButAction (ants s0)
    (ants (foldl (fun s i => decideStep i s) s l)) /\
  uuids (foldl (fun s i => decideStep i s) s l) = uuids s0.
Proof.
  induction l as [|i l IH]; intros s0 s HF Hu; simpl; [done|].
  destruct (decideStep_frame i s) as [[action Ha] Hu'].
  apply IH; [|congruence].
  rewrite Ha. apply Forall2_same_length_lookup. split.
  - rewrite length_alter. by eapply Forall2_length.
  - intros j a c Haj Hc.
    rewrite list_lookup_alter in Hc.
    case_decide.
    + subst. destruct (ants s !! j) as [b|] eqn:Hb; [|done]. simpl in Hc.
      inversion Hc; subst. eapply sameButAction_trans; [|by eexists].
      eapply Forall2_lookup_lr; eauto.
    + eapply Forall2_lookup_lr; eauto.
Qed.

Lemma phase1_frame s :
  Forall2 sameButAction (ants s) (ants (phase1 s)) /\
  uuids (phase1 s) = uuids s.
Proof.
  apply decideSteps_frame; [|done].
  apply Forall_Forall2_diag, Forall_forall. intros. apply sameButAction_refl.
Qed.

Lemma phase1_lookup s j a :
  ants s !! j = Some a ->
  exists action, ants (phase1 s) !! j = Some (Ant.set_nextAction action a).
Proof.
  intros Ha. destruct (phase1_frame s) as [HF _].
  destruct (Forall2_lookup_l _ _ _ _ _ HF Ha) as (b & Hb & [action ->]).
  eauto.
Qed.

Lemma phase1_length s : length (ants (phase1 s)) = length (ants s).
Proof. destruct (phase1_frame s) as [HF _]. symmetry. by eapply Forall2_length. Qed.

(** ** Phase 2, one step *)

Lemma mateStep_effect i s m s' m' :
  mateStep i (s, m) = Ok (s', m') ->
  (s' = s /\ m' = m) \/
  exists this j partner child k,
    ants s !! i = Some this /\
    Ant.nextAction this = Some Action.mate /\
    Ant.stage this = Stage.adult /\ (i ∉ m) /\
    findPartner (neighborsOf this) m s = Some j /\
    ants s !! j = Some partner /\
    length (ants s) < maxAnts params /\
    crossover (Ant.neuralNetwork this) (Ant.neuralNetwork partner) (draws s)
      = Ok (child, k) /\
    s' = set_uuids (S (uuids s))
           (set_draws k
              (set_ants (ants s ++ [newEgg (Ant.x this) (Ant.y this) child (uuids s)]) s)) /\
    m' = m ∪ {[i]} ∪ {[j]}.
Proof.
  unfold mateStep. intros H.
  destruct (ants s !! i) as [this|] eqn:Hi; [|left; by inversion H].
  destruct (wantsMate m s i) eqn:Hw; [|left; by inversion H].
  destruct (findPartner _ m s) as [j|] eqn:Hf; [|left; by inversion H].
  destruct (ants s !! j) as [partner|] eqn:Hj; [|left; by inversion H].
  destruct (length (ants s) <? maxAnts params) eqn:Hlt; [|left; by inversion H].
  destruct (crossover _ _ _) as [[child k]| |] eqn:Hc; try discriminate.
  simpl in H. inversion H; subst. right.
  unfold wantsMate in Hw. rewrite Hi in Hw. apply bool_decide_eq_true in Hw.
  destruct Hw as (? & ? & ?). apply Nat.ltb_lt in Hlt.
  exists this, j, partner, child, k. repeat split; done.
Qed.

Lemma agedAnt_core k a :
  Ant.x (agedAnt k a) = Ant.x a /\ Ant.y (agedAnt k a) = Ant.y a /\
  Ant.nextAction (agedAnt k a) = Ant.nextAction a /\
  Ant.id (agedAnt k a) = Ant.id a /\
  Ant.neuralNetwork (agedAnt k a) = Ant.neuralNetwork a /\
  Ant.age (agedAnt k a) = S (Ant.age a) /\
  Ant.stageAge (agedAnt k a) = S (Ant.stageAge a).
Proof.
  unfold agedAnt, hatch. repeat case_match; done.
Qed.

Lemma newborn_unset n i s e b :
  Newborn n i s -> n <= e -> ants s !! e = Some b -> Ant.nextAction b = None.
Proof.
  intros [_ H] He Hb. destruct (H e b He Hb) as [(x & y & nn & u & Hform) _].
  case_decide.
  - destruct Hform as [k ->]. by rewrite (proj1 (proj2 (proj2 (agedAnt_core _ _)))).
  - by subst.
Qed.

Lemma newborn_not_first n i s e b :
  Newborn n i s -> n <= e -> ants s !! e = Some b -> ~ firstAt e (ants s).
Proof.
  intros [_ H] He Hb (b' & Hb' & Hfirst).
  assert (b' = b) as -> by congruence.
  destruct (H e b He Hb) as [_ (p & c & Hp & Hc & Hx & Hy & _)].
  by apply (Hfirst p c Hc Hp).
Qed.

Lemma newborn_start s i : Newborn (length (ants s)) i s.
Proof.
  split; [done|]. intros e b He Hb. apply lookup_lt_Some in Hb. lia.
Qed.

Lemma processAction_idle i s : processAction None i s = s.
Proof. unfold processAction. by destruct (ants s !! i). Qed.

Lemma act_idle i s this :
  ants s !! i = Some this -> Ant.nextAction this = None -> act i s = s.
Proof.
  intros Hi Hn. unfold act. rewrite Hi, Hn. case_decide; [done|].
  apply processAction_idle.
Qed.

Lemma shadow_step i this s s' p c :
  StepEffect i this s s' -> ants s !! i = Some this ->
  ants s !! p = Some c -> isMove (Ant.nextAction c) = false ->
  exists c', ants s' !! p = Some c' /\
    Ant.x c' = Ant.x c /\ Ant.y c' = Ant.y c /\
    isMove (Ant.nextAction c') = false.
Proof.
  intros ((this1 & k & Hcore & Hpos & _ & _ & _ & Hself) & Hothers & _) Hi Hp Hmove.
  destruct (decide (p = i)) as [->|Hne].
  - assert (c = this) as -> by congruence.
    exists (agedAnt k this1). split; [done|].
    destruct (agedAnt_core k this1) as (-> & -> & -> & _).
    destruct (Hpos Hmove) as [-> ->].
    destruct Hcore as (_ & _ & _ & _ & _ & ->). done.
  - destruct (Hothers p c Hne Hp) as [H|[[h H] _]]; [by eauto|].
    exists (Ant.set_health h c). by destruct c.
Qed.

Lemma step_length i this s s' :
  StepEffect i this s s' ->
  length (ants s) <= length (ants s') <= S (length (ants s)).
Proof. intros (_ & _ & [[-> _]|(_ & _ & _ & -> & _)]); lia. Qed.

Lemma newborn_actStep n i s :
  Newborn n i s -> i < length (ants s) -> Newborn n (S i) (actStep i s).
Proof.
  intros HN Hlt. pose proof HN as [Hn H].
  destruct (lookup_lt_is_Some_2 _ _ Hlt) as [this Hi].
  pose proof (actStep_effect i s this Hi) as HE.
  pose proof (step_length _ _ _ _ HE) as Hlen.
  split; [lia|]. intros e b' He Hb'.
  destruct (decide (e = i)) as [->|Hei].
  - (* the loop stands on a newborn *)
    destruct (H i this He Hi) as [(x & y & nn & u & Hform) (p & c & Hp & Hc & Hx & Hy & Hm)].
    rewrite decide_False in Hform by lia. subst this.
    assert (actStep i s = ageing i s) as Hidle.
    { unfold actStep. by erewrite act_idle. }
    rewrite Hidle, (ageing_ants i s _ Hi), list_lookup_insert_eq in Hb' by done.
    inversion Hb'; subst b'. split.
    + exists x, y, nn, u. rewrite decide_True by lia. eauto.
    + destruct (shadow_step _ _ _ _ p c HE Hi Hc Hm) as (c' & Hc' & Hx' & Hy' & Hm').
      exists p, c'. destruct (agedAnt_core (draws s) (newEgg x y nn u)) as (-> & -> & _).
      repeat split; try done; congruence.
  - destruct HE as (Hself & Hothers & Hpush).
    destruct (decide (e < length (ants s))) as [Hold|Hnew].
    + destruct (lookup_lt_is_Some_2 _ _ Hold) as [b Hb].
      assert (b' = b) as ->.
      { destruct (Hothers e b Hei Hb) as [Hsame|[_ Hfirst]]; [congruence|].
        by destruct (newborn_not_first n i s e b HN He Hb). }
      destruct (H e b He Hb) as [(x & y & nn & u & Hform) (p & c & Hp & Hc & Hx & Hy & Hm)].
      split.
      * exists x, y, nn, u.
        destruct (decide (e < i)); [rewrite decide_True by lia|rewrite decide_False by lia]; done.
      * destruct (shadow_step i this s _ p c (conj Hself (conj Hothers Hpush)) Hi Hc Hm)
          as (c' & Hc' & Hx' & Hy' & Hm').
        exists p, c'. repeat split; try done; congruence.
    + destruct Hpush as [[Hsame _]|(Hact & _ & Hegg & Hlen' & _)].
      { apply lookup_lt_Some in Hb'. lia. }
      assert (e = length (ants s)) as -> by (apply lookup_lt_Some in Hb'; lia).
      rewrite Hegg in Hb'. inversion Hb'; subst b'. split.
      * eexists _, _, _, _. rewrite decide_False by lia. reflexivity.
      * destruct Hself as (this1 & k & Hcore & Hpos & _ & _ & _ & Hself).
        exists i, (agedAnt k this1).
        destruct (agedAnt_core k this1) as (-> & -> & -> & _).
        assert (isMove (Ant.nextAction this) = false) as Hm by (by rewrite Hact).
        destruct (Hpos Hm) as [-> ->].
        destruct Hcore as (_ & _ & _ & _ & _ & ->).
        repeat split; done.
Qed.

Lemma actStep_no_push n i s :
  Newborn n i s -> n <= i -> i < length (ants s) ->
  length (ants (actStep i s)) = length (ants s).
Proof.
  intros HN Hn Hlt. destruct (lookup_lt_is_Some_2 _ _ Hlt) as [this Hi].
  pose proof (newborn_unset n i s i this HN Hn Hi) as Hnone.
  unfold actStep. rewrite (act_idle i s this Hi Hnone), (ageing_ants i s _ Hi).
  by rewrite length_insert.
Qed.

Lemma phase3_never_out_of_fuel s : phase3 s <> OutOfFuel.
Proof.
  unfold phase3.
  apply (forOf_fuel _ _ (Newborn (length (ants s))) (length (ants s))).
  - intros i s1 HN Hlt. split; [by apply newborn_actStep|]. split.
    + destruct (lookup_lt_is_Some_2 _ _ Hlt) as [this Hi].
      apply (step_length _ _ _ _ (actStep_effect i s1 this Hi)).
    + intros Hn. by eapply actStep_no_push.
  - apply newborn_start.
  - lia.
Qed.

(** ** Phase 2 keeps the ants it found and pushes eggs *)

Lemma newborn_mateStep n i s m s' m' :
  Newborn n 0 s -> mateStep i (s, m) = Ok (s', m') -> Newborn n 0 s'.
Proof.
  intros HN Hstep. pose proof HN as [Hn H].
  destruct (mateStep_effect _ _ _ _ _ Hstep)
    as [[-> _]|(this & j & partner & child & k & Hi & Hact & _ & _ & _ & _ & _ & _ & -> & _)];
    [done|].
  split; [cbn; rewrite length_app; lia|]. cbn. intros e b He Hb.
  destruct (decide (e < length (ants s))) as [Hold|Hnew].
  - rewrite lookup_app_l in Hb by done.
    destruct (H e b He Hb) as [Hform (p & c & Hp & Hc & Hx & Hy & Hm)].
    split; [done|]. exists p, c. rewrite lookup_app_l by lia. done.
  - assert (e = length (ants s)) as ->.
    { apply lookup_lt_Some in Hb. rewrite length_app in Hb. simpl in Hb. lia. }
    rewrite lookup_app_r, Nat.sub_diag in Hb by done. inversion Hb; subst b.
    split.
    + eexists _, _, _, _. rewrite decide_False by lia. reflexivity.
    + exists i, this. rewrite lookup_app_l by (by eapply lookup_lt_Some).
      repeat split; try done.
      * by eapply lookup_lt_Some.
      * by rewrite Hact.
Qed.

Lemma mateStep_length i s m s' m' :
  mateStep i (s, m) = Ok (s', m') ->
  length (ants s') = length (ants s) \/
  (length (ants s) < maxAnts params /\ length (ants s') = S (length (ants s))).
Proof.
  intros Hstep.
  destruct (mateStep_effect _ _ _ _ _ Hstep)
    as [[-> _]|(this & j & partner & child & k & _ & _ & _ & _ & _ & _ & Hlt & _ & -> & _)];
    [by left|].
  right. split; [done|]. cbn. rewrite length_app. simpl. lia.
Qed.

Lemma mateStep_no_push n i s m :
  Newborn n 0 s -> n <= i -> mateStep i (s, m) = Ok (s, m).
Proof.
  intros HN Hn. unfold mateStep.
  destruct (ants s !! i) as [this|] eqn:Hi; [|done].
  unfold wantsMate. rewrite Hi.
  rewrite (newborn_unset n 0 s i this HN Hn Hi).
  rewrite bool_decide_eq_false_2; [done|]. by intros [? _].
Qed.

Lemma noiseLayers_never_out_of_fuel layers : forall k,
  noiseLayers layers k <> OutOfFuel.
Proof.
  induction layers as [|[lay|] l IH]; intros k; simpl; try done.
  destruct (noiseLayer lay k) as [lay' k1].
  specialize (IH k1). by destruct (noiseLayers l k1) as [[]| |].
Qed.

Lemma crossover_never_out_of_fuel a b k : crossover a b k <> OutOfFuel.
Proof.
  unfold crossover.
  destruct (noiseLayers _ k) as [[ws k1]| |] eqn:E1; simpl; try done.
  - destruct (noiseLayers _ k1) as [[bs k2]| |] eqn:E2; simpl; try done.
    by apply noiseLayers_never_out_of_fuel in E2.
  - by apply noiseLayers_never_out_of_fuel in E1.
Qed.

Lemma mateStep_never_out_of_fuel i st : mateStep i st <> OutOfFuel.
Proof.
  destruct st as [s m]. unfold mateStep. repeat case_match; try done.
  match goal with |- context [crossover ?a ?b ?k] =>
    pose proof (crossover_never_out_of_fuel a b k);
    by destruct (crossover a b k) as [[]| |] end.
Qed.

Lemma phase2_never_out_of_fuel s : phase2 s <> OutOfFuel.
Proof.
  unfold phase2.
  apply (forOf_fuel _ _ (fun _ st => Newborn (length (ants s)) 0 st.1)
           (length (ants s))).
  - intros i [s1 m1] HN Hlt. simpl in HN, Hlt.
    destruct (mateStep i (s1, m1)) as [[s2 m2]| |] eqn:Hstep; [|done|].
    + split; [by eapply newborn_mateStep|]. simpl. split.
      * destruct (mateStep_length _ _ _ _ _ Hstep) as [->|[_ ->]]; lia.
      * intros Hn. rewrite (mateStep_no_push _ _ _ _ HN Hn) in Hstep.
        by inversion Hstep.
    + by apply mateStep_never_out_of_fuel in Hstep.
  - apply newborn_start.
  - simpl. lia.
Qed.

Theorem update_never_out_of_fuel s : update s <> OutOfFuel.
Proof.
  unfold update, beforeCull.
  destruct (phase2 (phase1 s)) as [[s2 m2]| |] eqn:E2; simpl; try done.
  - destruct (phase3 s2) as [s3| |] eqn:E3; simpl; try done.
    by apply phase3_never_out_of_fuel in E3.
  - by apply phase2_never_out_of_fuel in E2.
Qed.

(** ** The tick as a whole *)

Lemma phase2_newborn s s2 m2 :
  phase2 s = Ok (s2, m2) -> Newborn (length (ants s)) 0 s2.
Proof.
  unfold phase2. intros H.
  eapply (forOf_inv _ _ (fun _ (st : Simulation * gset nat) =>
                           Newborn (length (ants s)) 0 st.1)) in H
    as (i' & _ & _ & HN); [exact HN| |apply newborn_start].
  intros i [s1 m1] [s1' m1'] HN _ Hs. by eapply newborn_mateStep.
Qed.

Lemma phase3_newborn n s s3 :
  Newborn n 0 s -> phase3 s = Ok s3 ->
  exists i', length (ants s3) <= i' /\ Newborn n i' s3.
Proof.
  unfold phase3. intros HN H.
  eapply (forOf_inv _ _ (Newborn n)) in H as (i' & _ & Hi' & HN');
    [by eauto| |exact HN].
  intros i s1 s1' HN1 Hlt Hs. inversion Hs; subst. by apply newborn_actStep.
Qed.

Lemma tick_newborn s s3 :
  beforeCull s = Ok s3 ->
  exists i', length (ants s3) <= i' /\ Newborn (length (ants s)) i' s3.
Proof.
  unfold beforeCull. intros H.
  destruct (phase2 (phase1 s)) as [[s2 m2]| |] eqn:E2; try discriminate.
  simpl in H. apply phase2_newborn in E2. rewrite phase1_length in E2.
  by eapply phase3_newborn.
Qed.

Lemma agedAnt_egg k x y nn u :
  1 < eggToAdultTicks params ->
  agedAnt k (newEgg x y nn u) = Ant.mk x y 1 49 Stage.egg 1 u nn None.
Proof.
  intros H. unfold agedAnt, hatch, newEgg. cbn.
  assert ((eggToAdultTicks params <=? 1) = false) as -> by (apply Nat.leb_gt; lia).
  reflexivity.
Qed.

Lemma agedAnt_hatchling k x y nn u :
  eggToAdultTicks params <= 1 ->
  Ant.health (agedAnt k (newEgg x y nn u)) = 100%Q /\
  Ant.stage (agedAnt k (newEgg x y nn u)) <> Stage.egg.
Proof.
  intros H. unfold agedAnt, hatch, newEgg. cbn.
  assert ((eggToAdultTicks params <=? 1) = true) as -> by (by apply Nat.leb_le).
  cbn. by destruct (lifespanReached _ _).
Qed.

Lemma update_cull s s' :
  update s = Ok s' -> exists s3, beforeCull s = Ok s3 /\ s' = cull s3.
Proof.
  unfold update. destruct (beforeCull s) as [s3| |]; try discriminate.
  simpl. intros H. inversion H. eauto.
Qed.

Lemma cull_keeps s b :
  b ∈ ants s -> alive b = true -> notOld b = true -> b ∈ ants (cull s).
Proof.
  intros Hb Ha Hn. unfold cull. cbn. apply list_elem_of_In.
  apply filter_In. split; [|done]. apply filter_In. split; [|done].
  by apply list_elem_of_In.
Qed.

(** ** A tick over well-shaped genomes returns *)

Lemma forOf_returns {S} (size : S -> nat) (body : nat -> S -> Result S)
    (Inv : nat -> S -> Prop) (bound : nat) :
  (forall i s, Inv i s -> i < size s ->
     exists s1, body i s = Ok s1 /\ Inv (Datatypes.S i) s1 /\
       size s1 <= Datatypes.S (size s) /\ (bound <= i -> size s1 = size s)) ->
  forall fuel i s, Inv i s -> (size s - i) + (bound - i) <= fuel ->
    exists s', forOf size body fuel i s = Ok s'.
Proof.
  intros Hstep. induction fuel as [|fuel IH]; intros i s HI Hf; simpl.
  - destruct (size s <=? i) eqn:E; [by eauto|]. apply Nat.leb_gt in E. lia.
  - destruct (size s <=? i) eqn:E; [by eauto|]. apply Nat.leb_gt in E.
    destruct (Hstep i s HI E) as (s1 & -> & HI1 & Hsz & Hb).
    apply IH; [done|].
    destruct (decide (bound <= i)) as [Hbi|Hbi]; [rewrite (Hb Hbi)|]; lia.
Qed.

Lemma genomesShaped_phase1 sw sb s :
  genomesShaped sw sb s -> genomesShaped sw sb (phase1 s).
Proof.
  intros H j b Hb. destruct (phase1_frame s) as [HF _].
  destruct (Forall2_lookup_r _ _ _ _ _ HF Hb) as (a & Ha & [action ->]).
  exact (H j a Ha).
Qed.

Lemma mateStep_returns sw sb i s m :
  genomesShaped sw sb s -> length sb = length sw ->
  exists s' m', mateStep i (s, m) = Ok (s', m') /\ genomesShaped sw sb s'.
Proof.
  intros Hg Hlen. unfold mateStep.
  destruct (ants s !! i) as [this|] eqn:Hi; [|by eauto].
  destruct (wantsMate m s i); [|by eauto].
  destruct (findPartner _ m s) as [j|]; [|by eauto].
  destruct (ants s !! j) as [partner|] eqn:Hj; [|by eauto].
  destruct (length (ants s) <? maxAnts params); [|by eauto].
  destruct (Hg i this Hi) as [Hw Hb]. destruct (Hg j partner Hj) as [Hw' Hb'].
  destruct (crossover_returns (Ant.neuralNetwork this)
              (Ant.neuralNetwork partner) (draws s))
    as (child & k & -> & Sw & Sb); [congruence|congruence| |].
  { rewrite <- (length_map length (biases _)), <- (length_map length (weights _)).
    fold (shape (biases (Ant.neuralNetwork this))).
    fold (shape (weights (Ant.neuralNetwork this))). congruence. }
  simpl. eexists _, _. split; [reflexivity|].
  intros e b He. cbn in He.
  apply lookup_app_Some in He as [He|[_ He]]; [by eapply Hg|].
  apply list_lookup_singleton_Some in He as [_ <-]. cbn. split; congruence.
Qed.

Lemma phase2_returns sw sb s :
  genomesShaped sw sb s -> length sb = length sw ->
  exists s2 m2, phase2 s = Ok (s2, m2).
Proof.
  intros Hg Hlen. unfold phase2.
  destruct (forOf_returns (fun st : Simulation * gset nat => length (ants st.1))
              mateStep
              (fun _ st => Newborn (length (ants s)) 0 st.1 /\
                           genomesShaped sw sb st.1)
              (length (ants s))) with (fuel := 2 * length (ants s)) (i := 0)
              (s := (s, (∅ : gset nat))) as [[s2 m2] H].
  - intros i [s1 m1] [HN Hg1] Hlt. simpl in HN, Hg1, Hlt.
    destruct (mateStep_returns sw sb i s1 m1 Hg1 Hlen) as (s' & m' & Hs & Hg').
    exists (s', m'). split; [done|]. split; [split; [by eapply newborn_mateStep|done]|].
    simpl. split.
    + destruct (mateStep_length _ _ _ _ _ Hs) as [->|[_ ->]]; lia.
    + intros Hn. rewrite (mateStep_no_push _ _ _ _ HN Hn) in Hs. by inversion Hs.
  - split; [apply newborn_start|done].
  - simpl. lia.
  - eauto.
Qed.

Lemma phase3_returns s : exists s3, phase3 s = Ok s3.
Proof.
  unfold phase3.
  apply (forOf_returns _ _ (Newborn (length (ants s))) (length (ants s))).
  - intros i s1 HN Hlt. eexists. split; [reflexivity|].
    split; [by apply newborn_actStep|]. split.
    + destruct (lookup_lt_is_Some_2 _ _ Hlt) as [this Hi].
      apply (step_length _ _ _ _ (actStep_effect i s1 this Hi)).
    + intros Hn. by eapply actStep_no_push.
  - apply newborn_start.
  - lia.
Qed.

(** A tick returns on every population whose genomes all have one shape, with
    as many bias layers as weight layers: no loop runs out of fuel and no
    crossover meets a missing layer. *)
Theorem update_returns (sw sb : list nat) (s : Simulation) :
  genomesShaped sw sb s -> length sb = length sw ->
  exists s', update s = Ok s'.
Proof.
  intros Hg Hlen. unfold update, beforeCull.
  destruct (phase2_returns sw sb (phase1 s) (genomesShaped_phase1 _ _ _ Hg) Hlen)
    as (s2 & m2 & ->).
  simpl. destruct (phase3_returns s2) as [s3 ->]. simpl. eauto.
Qed.

(** ** The population cap *)

Lemma mateStep_at_cap i s m :
  maxAnts params <= length (ants s) -> mateStep i (s, m) = Ok (s, m).
Proof.
  intros Hcap. unfold mateStep. repeat case_match; try done.
  match goal with H : (_ <? _) = true |- _ => apply Nat.ltb_lt in H; lia end.
Qed.

Lemma asexual_at_cap i s :
  maxAnts params <= length (ants s) ->
  processAction (Some Action.asexual) i s = s.
Proof.
  intros Hcap. unfold processAction. destruct (ants s !! i); [|done]. simpl.
  case_match; [|done].
  match goal with H : (_ <? _) = true |- _ => apply Nat.ltb_lt in H; lia end.
Qed.

Lemma cull_length s : length (ants (cull s)) <= length (ants s).
Proof.
  unfold cull. cbn.
  etransitivity; [apply filter_length_le|apply filter_length_le].
Qed.

Lemma phase2_cap n s s2 m2 :
  length (ants s) <= Nat.max n (maxAnts params) ->
  phase2 s = Ok (s2, m2) ->
  length (ants s2) <= Nat.max n (maxAnts params).
Proof.
  unfold phase2. intros Hle H.
  eapply (forOf_inv _ _ (fun _ (st : Simulation * gset nat) =>
            length (ants st.1) <= Nat.max n (maxAnts params))) in H
    as (i' & _ & _ & HN); [exact HN| |exact Hle].
  intros i [s1 m1] [s1' m1'] HI _ Hs. simpl in *.
  destruct (mateStep_length _ _ _ _ _ Hs) as [->|[? ->]]; lia.
Qed.

Lemma phase3_cap n s s3 :
  length (ants s) <= Nat.max n (maxAnts params) ->
  phase3 s = Ok s3 ->
  length (ants s3) <= Nat.max n (maxAnts params).
Proof.
  unfold phase3. intros Hle H.
  eapply (forOf_inv _ _ (fun _ (st : Simulation) =>
            length (ants st) <= Nat.max n (maxAnts params))) in H
    as (i' & _ & _ & HN); [exact HN| |exact Hle].
  intros i s1 s1' HI Hlt Hs. inversion Hs; subst.
  destruct (lookup_lt_is_Some_2 _ _ Hlt) as [this Hi].
  destruct (actStep_effect i s1 this Hi) as (_ & _ & [[-> _]|(_ & ? & _ & -> & _)]); lia.
Qed.

(** C4.  The population at the end of a tick is at most the larger of
    [maxAnts] and the population at its start, hence at most [maxAnts] plus
    the ants already present; and both reproduction paths test the cap before
    they push: at or above the cap, the mating step and the [asexual] action
    leave the simulation as it is. *)
Theorem C4_population_cap (s s' : Simulation) :
  update s = Ok s' ->
  length (ants s') <= Nat.max (length (ants s)) (maxAnts params) /\
  length (ants s') <= maxAnts params + length (ants s) /\
  (forall i s1 m, maxAnts params <= length (ants s1) ->
     mateStep i (s1, m) = Ok (s1, m)) /\
  (forall i s1, maxAnts params <= length (ants s1) ->
     processAction (Some Action.asexual) i s1 = s1) /\
  (forall i s1 m s2 m2, mateStep i (s1, m) = Ok (s2, m2) ->
     length (ants s2) <= Nat.max (length (ants s1)) (maxAnts params)) /\
  (forall i s1, length (ants (processAction (Some Action.asexual) i s1))
                  <= Nat.max (length (ants s1)) (maxAnts params)).
Proof.
  intros Hup. destruct (update_cull _ _ Hup) as (s3 & H3 & ->).
  assert (length (ants (cull s3)) <= Nat.max (length (ants s)) (maxAnts params)) as Hmax.
  { etransitivity; [apply cull_length|].
    unfold beforeCull in H3.
    destruct (phase2 (phase1 s)) as [[s2 m2]| |] eqn:E2; try discriminate.
    simpl in H3. eapply phase3_cap; [|exact H3].
    eapply phase2_cap; [|exact E2]. rewrite phase1_length. lia. }
  split; [done|]. split; [lia|].
  split; [intros; by apply mateStep_at_cap|].
  split; [intros; by apply asexual_at_cap|].
  split.
  - intros i s1 m s2 m2 Hs.
    destruct (mateStep_length _ _ _ _ _ Hs) as [->|[? ->]]; lia.
  - intros i s1. destruct (ants s1 !! i) as [this|] eqn:Hi.
    + destruct (processAction_effect (Some Action.asexual) i s1 this Hi)
        as (_ & _ & [[-> _]|(_ & ? & _ & -> & _)]); lia.
    + unfold processAction. rewrite Hi. lia.
Qed.

(** C5.  Whenever a tick returns, every ant left in the population has
    positive health and is not old.  A tick can fail to return only by
    throwing: the loops never run short of fuel, and on a population whose
    genomes all have one shape the tick does return. *)
Theorem C5_survivors (s : Simulation) :
  (forall s', update s = Ok s' ->
     Forall (fun ant => (0 < Ant.health ant)%Q /\ Ant.stage ant <> Stage.old)
       (ants s')) /\
  update s <> OutOfFuel /\
  (forall sw sb, genomesShaped sw sb s -> length sb = length sw ->
     exists s', update s = Ok s').
Proof.
  split; [|split; [apply update_never_out_of_fuel|intros sw sb; apply update_returns]].
  intros s' Hup. destruct (update_cull _ _ Hup) as (s3 & _ & ->).
  apply Forall_forall. intros a Ha. unfold cull in Ha. cbn in Ha.
  apply list_elem_of_In, filter_In in Ha as [Ha Hold].
  apply filter_In in Ha as [_ Halive].
  split.
  - unfold alive, Qltb in Halive. apply negb_true_iff in Halive.
    destruct (Qlt_le_dec 0 (Ant.health a)) as [?|Hle]; [done|].
    apply Qle_bool_iff in Hle. congruence.
  - unfold notOld in Hold. by apply bool_decide_eq_true in Hold.
Qed.

(** ** Identifiers *)

Lemma uniqueIds_step s s' :
  uniqueIds s ->
  (forall j b, ants s !! j = Some b ->
     exists b', ants s' !! j = Some b' /\ Ant.id b' = Ant.id b) ->
  ((length (ants s') = length (ants s) /\ uuids s' = uuids s) \/
   (exists egg, ants s' !! length (ants s) = Some egg /\
      Ant.id egg = uuids s /\
      length (ants s') = S (length (ants s)) /\ uuids s' = S (uuids s))) ->
  uniqueIds s'.
Proof.
  intros [Hlt Huniq] Hkeep Hpush.
  assert (forall j b', ants s' !! j = Some b' ->
            (exists b, ants s !! j = Some b /\ Ant.id b = Ant.id b' /\ Ant.id b' < uuids s) \/
            (length (ants s) = j /\ Ant.id b' = uuids s /\ uuids s' = S (uuids s))) as Hsrc.
  { intros j b' Hb'. destruct (decide (j < length (ants s))) as [Hj|Hj].
    - destruct (lookup_lt_is_Some_2 _ _ Hj) as [b Hb].
      destruct (Hkeep j b Hb) as (b2 & Hb2 & Hid).
      assert (b2 = b') as -> by congruence.
      left. exists b. repeat split; try done. rewrite Hid. eauto.
    - apply lookup_lt_Some in Hb' as Hj'.
      destruct Hpush as [[Hl _]|(egg & Hegg & Hid & Hl & Hu)]; [lia|].
      assert (j = length (ants s)) as -> by lia.
      right. assert (egg = b') as -> by congruence. done. }
  assert (uuids s <= uuids s') as Hmono.
  { destruct Hpush as [[_ ->]|(_ & _ & _ & _ & ->)]; lia. }
  split.
  - intros j b' Hb'. destruct (Hsrc j b' Hb') as [(b & _ & _ & ?)|(_ & -> & ->)]; lia.
  - intros j k b' c' Hb' Hc' Hid.
    destruct (Hsrc j b' Hb') as [(b & Hb & Hidb & Hltb)|(Hj & Hidb & _)];
      destruct (Hsrc k c' Hc') as [(c & Hc & Hidc & Hltc)|(Hk & Hidc & _)];
      try lia.
    eapply Huniq; eauto. congruence.
Qed.

Lemma uniqueIds_phase1 s : uniqueIds s -> uniqueIds (phase1 s).
Proof.
  intros H. apply (uniqueIds_step s); [done| |].
  - intros j b Hb. destruct (phase1_lookup s j b Hb) as [action ->]. eauto.
  - left. destruct (phase1_frame s) as [_ ->]. by rewrite phase1_length.
Qed.

Lemma uniqueIds_mateStep i s m s' m' :
  uniqueIds s -> mateStep i (s, m) = Ok (s', m') -> uniqueIds s'.
Proof.
  intros H Hstep.
  destruct (mateStep_effect _ _ _ _ _ Hstep)
    as [[-> _]|(this & j & partner & child & k & Hi & _ & _ & _ & _ & _ & _ & _ & -> & _)];
    [done|].
  apply (uniqueIds_step s); [done| |].
  - intros j' b Hb. exists b. cbn. rewrite lookup_app_l by (by eapply lookup_lt_Some). done.
  - right. eexists. cbn. rewrite lookup_app_r, Nat.sub_diag by done.
    split; [reflexivity|]. rewrite length_app. simpl. repeat split; lia.
Qed.

Lemma step_keeps_ids i this s s' :
  StepEffect i this s s' -> ants s !! i = Some this ->
  forall j b, ants s !! j = Some b ->
    exists b', ants s' !! j = Some b' /\ Ant.id b' = Ant.id b /\
      (j <> i -> Ant.stage b' = Ant.stage b /\ Ant.age b' = Ant.age b).
Proof.
  intros ((this1 & k & Hcore & _ & _ & _ & _ & Hself) & Hothers & _) Hi j b Hb.
  destruct (decide (j = i)) as [->|Hne].
  - assert (b = this) as -> by congruence.
    exists (agedAnt k this1). split; [done|].
    destruct (agedAnt_core k this1) as (_ & _ & _ & -> & _).
    destruct Hcore as (_ & _ & _ & -> & _). done.
  - destruct (Hothers j b Hne Hb) as [H|[[h H] _]]; [by eauto|].
    exists (Ant.set_health h b). by destruct b.
Qed.

Lemma uniqueIds_actStep i s :
  uniqueIds s -> i < length (ants s) -> uniqueIds (actStep i s).
Proof.
  intros H Hlt. destruct (lookup_lt_is_Some_2 _ _ Hlt) as [this Hi].
  pose proof (actStep_effect i s this Hi) as HE.
  apply (uniqueIds_step s); [done| |].
  - intros j b Hb. destruct (step_keeps_ids _ _ _ _ HE Hi j b Hb) as (b' & ? & ? & _).
    eauto.
  - destruct HE as (_ & _ & [?|(_ & _ & Hegg & ? & ?)]); [by left|].
    right. eexists. split; [exact Hegg|]. done.
Qed.

Lemma tick_uniqueIds s s3 : uniqueIds s -> beforeCull s = Ok s3 -> uniqueIds s3.
Proof.
  unfold beforeCull. intros H0 H.
  destruct (phase2 (phase1 s)) as [[s2 m2]| |] eqn:E2; try discriminate.
  simpl in H. unfold phase2 in E2.
  eapply (forOf_inv _ _ (fun _ (st : Simulation * gset nat) => uniqueIds st.1)) in E2
    as (_ & _ & _ & H2); [| |by apply uniqueIds_phase1].
  - unfold phase3 in H.
    eapply (forOf_inv _ _ (fun _ st => uniqueIds st)) in H
      as (_ & _ & _ & H3); [exact H3| |exact H2].
    intros i s1 s1' HI Hlt Hs. inversion Hs; subst. by apply uniqueIds_actStep.
  - intros i [s1 m1] [s1' m1'] HI _ Hs. by eapply uniqueIds_mateStep.
Qed.

(** ** The stream of draws only advances *)

Lemma noiseLayer_draws layer : forall k, k <= (noiseLayer layer k).2.
Proof.
  induction layer as [|v l IH]; intros k; simpl; [done|].
  specialize (IH (S k)). destruct (noiseLayer l (S k)). simpl in *. lia.
Qed.

Lemma noiseLayers_draws layers : forall k out k',
  noiseLayers layers k = Ok (out, k') -> k <= k'.
Proof.
  induction layers as [|[lay|] l IH]; intros k out k' H; simpl in H;
    try discriminate.
  - inversion H. lia.
  - pose proof (noiseLayer_draws lay k) as H1.
    destruct (noiseLayer lay k) as [lay' k1]. simpl in H1.
    destruct (noiseLayers l k1) as [[rest k2]| |] eqn:E; try discriminate.
    simpl in H. inversion H; subst. apply IH in E. lia.
Qed.

Lemma crossover_draws a b k child k' :
  crossover a b k = Ok (child, k') -> k <= k'.
Proof.
  unfold crossover. intros H.
  destruct (noiseLayers _ k) as [[ws k1]| |] eqn:E1; try discriminate.
  simpl in H. destruct (noiseLayers _ k1) as [[bs k2]| |] eqn:E2; try discriminate.
  simpl in H. inversion H; subst.
  apply noiseLayers_draws in E1. apply noiseLayers_draws in E2. lia.
Qed.

Lemma mateStep_draws i s m s' m' :
  mateStep i (s, m) = Ok (s', m') -> draws s <= draws s'.
Proof.
  intros Hstep.
  destruct (mateStep_effect _ _ _ _ _ Hstep)
    as [[-> _]|(this & j & partner & child & k & _ & _ & _ & _ & _ & _ & _ & Hc & -> & _)];
    [done|].
  cbn. by eapply crossover_draws.
Qed.

Lemma visionLoop_draws this offsets : forall s,
  draws s <= draws (visionLoop this offsets s).2.
Proof.
  induction offsets as [|[dx dy] rest IH]; intros s; simpl; [done|].
  pose proof (getCell_draws (Ant.x this + dx) (Ant.y this + dy) s) as Hd.
  destruct (getCell _ _ s) as [cell s1]. simpl in Hd.
  specialize (IH s1). destruct (visionLoop this rest s1). simpl in *. lia.
Qed.

Lemma decideStep_draws i s : draws s <= draws (decideStep i s).
Proof.
  unfold decideStep. destruct (ants s !! i) as [ant|]; [|done].
  unfold decideAction. case_decide; [done|]. unfold processVision.
  pose proof (visionLoop_draws ant visionOffsets s) as Hd.
  destruct (visionLoop ant visionOffsets s) as [v s1]. simpl in *. lia.
Qed.

Lemma phase1_draws s : draws s <= draws (phase1 s).
Proof.
  unfold phase1. generalize (seq 0 (length (ants s))). intros l. revert s.
  induction l as [|i l IH]; intros s; simpl; [done|].
  etransitivity; [apply (decideStep_draws i s)|apply IH].
Qed.

(** ** One ant followed through the tick *)

Lemma phase2_keeps s s2 m2 :
  phase2 s = Ok (s2, m2) ->
  draws s <= draws s2 /\ forall j b, ants s !! j = Some b -> ants s2 !! j = Some b.
Proof.
  unfold phase2. intros H.
  eapply (forOf_inv _ _ (fun _ (st : Simulation * gset nat) =>
            draws s <= draws st.1 /\
            forall j b, ants s !! j = Some b -> ants st.1 !! j = Some b)) in H
    as (_ & _ & _ & HI); [exact HI| |by split].
  intros i [s1 m1] [s1' m1'] [Hd HI] _ Hstep. simpl in *.
  pose proof (mateStep_draws _ _ _ _ _ Hstep) as Hd'.
  split; [lia|]. intros j b Hb. apply HI in Hb.
  destruct (mateStep_effect _ _ _ _ _ Hstep)
    as [[-> _]|(this & j' & partner & child & k & _ & _ & _ & _ & _ & _ & _ & _ & -> & _)];
    [done|].
  cbn. rewrite lookup_app_l by (by eapply lookup_lt_Some). done.
Qed.

Lemma lifespanReached_age r b b' :
  Ant.age b' = Ant.age b -> lifespanReached r b' = lifespanReached r b.
Proof. unfold lifespanReached. by intros ->. Qed.

Lemma tracked_actStep m a k0 i s :
  Tracked m a k0 i s -> i < length (ants s) ->
  Tracked m a k0 (S i) (actStep i s).
Proof.
  intros (Hk0 & b & Hb & Hid & Hform) Hlt.
  destruct (lookup_lt_is_Some_2 _ _ Hlt) as [this Hi].
  pose proof (actStep_effect i s this Hi) as HE.
  assert (draws s <= draws (actStep i s)) as Hmono.
  { destruct HE as ((_ & k & _ & _ & ? & ? & _) & _). lia. }
  split; [lia|].
  destruct (decide (i = m)) as [->|Hne].
  - assert (this = b) as -> by congruence.
    rewrite decide_False in Hform by lia. destruct Hform as [Hstage Hage].
    destruct HE as ((this1 & k & Hcore & _ & Hk1 & Hk2 & Hdraw & Hself) & _).
    destruct Hcore as (Hage1 & Hstage1 & _ & Hid1 & _).
    exists (agedAnt k this1). split; [done|].
    destruct (agedAnt_core k this1) as (_ & _ & _ & -> & _ & -> & _).
    split; [congruence|]. rewrite decide_True by lia.
    split; [congruence|].
    assert (hatch (Ant.tick this1) = Ant.tick this1) as Hh.
    { unfold hatch. rewrite decide_False; [done|]. cbn. congruence. }
    exists k. split; [lia|]. split.
    + rewrite Hdraw; [lia|]. rewrite Hh. cbn. congruence.
    + unfold agedAnt. rewrite Hh. rewrite decide_True by (cbn; congruence).
      destruct (lifespanReached (Math_random k) (Ant.tick this1)) eqn:E.
      * rewrite (lifespanReached_age _ (Ant.tick this1)) by done. by rewrite E.
      * rewrite E. cbn. congruence.
  - destruct (step_keeps_ids _ _ _ _ HE Hi m b Hb) as (b' & Hb' & Hid' & Hsame).
    destruct (Hsame ltac:(done)) as [Hst Hag].
    exists b'. split; [done|]. split; [congruence|].
    destruct (decide (m < i)) as [Hmi|Hmi].
    + rewrite decide_True by lia. destruct Hform as (Hage & k & ? & ? & Hstage).
      split; [congruence|]. exists k. split; [done|]. split; [lia|].
      rewrite (lifespanReached_age _ b) by done. congruence.
    + rewrite decide_False by lia. destruct Hform. split; congruence.
Qed.

Lemma tick_tracked m a s s3 :
  ants s !! m = Some a -> Ant.stage a = Stage.adult ->
  beforeCull s = Ok s3 ->
  exists a3 k, ants s3 !! m = Some a3 /\ Ant.id a3 = Ant.id a /\
    Ant.age a3 = S (Ant.age a) /\ draws s <= k /\ k < draws s3 /\
    Ant.stage a3 =
      if lifespanReached (Math_random k) a3 then Stage.old else Stage.adult.
Proof.
  intros Ha Hadult H. unfold beforeCull in H.
  destruct (phase2 (phase1 s)) as [[s2 m2]| |] eqn:E2; try discriminate.
  simpl in H. destruct (phase2_keeps _ _ _ E2) as [Hd2 Hkeep].
  destruct (phase1_lookup s m a Ha) as [action H1].
  apply Hkeep in H1. pose proof (phase1_draws s) as Hd1.
  unfold phase3 in H.
  eapply (forOf_inv _ _ (Tracked m a (draws s))) in H
    as (i' & _ & Hi' & (_ & b & Hb & Hid & Hform)).
  - rewrite decide_True in Hform by (apply lookup_lt_Some in Hb; lia).
    destruct Hform as (Hage & k & ? & ? & Hstage). eauto 10.
  - intros i s1 s1' HT Hlt Hs. inversion Hs; subst. by apply tracked_actStep.
  - split; [lia|]. eexists. split; [exact H1|]. split; [done|].
    rewrite decide_False by lia. done.
Qed.

Lemma lifespanReached_iff r b :
  Ant.age b = antLifespan params ->
  lifespanReached r b = true <-> (r <= 1 # 2)%Q.
Proof.
  intros Hage. unfold lifespanReached. rewrite Hage, Qle_bool_iff.
  generalize (inject_Z (Z.of_nat (antLifespan params))). intros L.
  split; intros; lra.
Qed.

Lemma filter_length_lt {A} (f : A -> bool) (l : list A) x :
  In x l -> f x = false -> length (List.filter f l) < length l.
Proof.
  induction l as [|y l IH]; simpl; [done|]. intros [->|Hin] Hx.
  - rewrite Hx. pose proof (filter_length_le f l). lia.
  - specialize (IH Hin Hx). destruct (f y); simpl; lia.
Qed.

Lemma cull_drops s x :
  In x (ants s) -> notOld x = false -> length (ants (cull s)) < length (ants s).
Proof.
  intros Hin Hold. unfold cull. cbn.
  destruct (alive x) eqn:Halive.
  - eapply Nat.lt_le_trans; [|apply (filter_length_le alive)].
    eapply filter_length_lt; [|exact Hold]. apply filter_In. by split.
  - eapply Nat.le_lt_trans; [apply filter_length_le|].
    by eapply filter_length_lt.
Qed.

(** C2 (as amended).  An adult with [age = antLifespan - 1] is one tick
    older at the end of phase 3, and the retirement test then compares its age
    with [antLifespan] plus a jitter [(r - 1/2) * 0.05] made from one draw
    [r] of the tick: when [r <= 1/2] the ant turns old and the cull of that
    same tick removes it (no ant with its identifier is left, and the
    population is smaller than the array the cull received); when the jitter
    is above [antLifespan * 2^-52], hence positive and not lost in the double
    sum, the ant stays an adult and, its health being positive, stays in the
    population. *)
Theorem C2_retirement (s s' : Simulation) (m : nat) (a : Ant.t) :
  uniqueIds s ->
  ants s !! m = Some a ->
  Ant.stage a = Stage.adult ->
  S (Ant.age a) = antLifespan params ->
  update s = Ok s' ->
  exists s3 a3 k,
    beforeCull s = Ok s3 /\ s' = cull s3 /\
    ants s3 !! m = Some a3 /\ Ant.id a3 = Ant.id a /\
    Ant.age a3 = antLifespan params /\
    draws s <= k /\ k < draws s3 /\
    ((Math_random k <= 1 # 2)%Q ->
       Ant.stage a3 = Stage.old /\
       (forall b, b ∈ ants s' -> Ant.id b <> Ant.id a) /\
       length (ants s') < length (ants s3)) /\
    ((doubleSpacing (inject_Z (Z.of_nat (antLifespan params)))
        < (Math_random k - (1 # 2)) * (5 # 100))%Q ->
       Ant.stage a3 = Stage.adult /\
       ((0 < Ant.health a3)%Q -> a3 ∈ ants s')).
Proof.
  intros Hids Ha Hadult Hage Hup.
  destruct (update_cull _ _ Hup) as (s3 & H3 & ->).
  destruct (tick_tracked m a s s3 Ha Hadult H3)
    as (a3 & k & Ha3 & Hid & Hage3 & Hk0 & Hk & Hstage).
  pose proof (tick_uniqueIds _ _ Hids H3) as [_ Huniq].
  exists s3, a3, k. repeat (split; [done || congruence|]).
  pose proof (lifespanReached_iff (Math_random k) a3 ltac:(congruence)) as Hiff.
  split.
  - intros Hr. apply Hiff in Hr. rewrite Hr in Hstage.
    split; [done|]. split.
    + intros b Hb Hidb. unfold cull in Hb. cbn in Hb.
      apply list_elem_of_In, filter_In in Hb as [Hb Hnot].
      apply filter_In in Hb as [Hb _].
      apply list_elem_of_In, list_elem_of_lookup in Hb as [j Hj].
      assert (j = m) as -> by (eapply Huniq; eauto; congruence).
      assert (b = a3) as -> by congruence.
      unfold notOld in Hnot. apply bool_decide_eq_true in Hnot. done.
    + eapply cull_drops; [apply list_elem_of_In; by eapply list_elem_of_lookup_2|].
      unfold notOld. apply bool_decide_eq_false. by intros ?.
  - intros Hr. destruct (lifespanReached (Math_random k) a3) eqn:E.
    { assert (Math_random k <= 1 # 2)%Q as Hle by (by apply Hiff).
      assert (0 <= inject_Z (Z.of_nat (antLifespan params)))%Q as HL.
      { change 0%Q with (inject_Z 0). rewrite <- Zle_Qle. lia. }
      unfold doubleSpacing in Hr. lra. }
    split; [done|]. intros Hh.
    apply cull_keeps; [by eapply list_elem_of_lookup_2| |].
    + unfold alive, Qltb. apply negb_true_iff.
      destruct (Qle_bool (Ant.health a3) 0) eqn:E'; [|done].
      apply Qle_bool_iff in E'. lra.
    + unfold notOld. apply bool_decide_eq_true. congruence.
Qed.

(** ** The ants born during the tick, at its end *)

Lemma tick_keeps_ids s s3 :
  beforeCull s = Ok s3 ->
  forall j a, ants s !! j = Some a ->
    exists a3, ants s3 !! j = Some a3 /\ Ant.id a3 = Ant.id a.
Proof.
  unfold beforeCull. intros H.
  destruct (phase2 (phase1 s)) as [[s2 m2]| |] eqn:E2; try discriminate.
  simpl in H. destruct (phase2_keeps _ _ _ E2) as [_ Hkeep].
  unfold phase3 in H.
  eapply (forOf_inv _ _ (fun _ st =>
            forall j a, ants s !! j = Some a ->
              exists b, ants st !! j = Some b /\ Ant.id b = Ant.id a)) in H
    as (_ & _ & _ & HI); [exact HI| |].
  - intros i s1 s1' HI Hlt Hs j a Ha. inversion Hs; subst.
    destruct (HI j a Ha) as (b & Hb & Hid).
    destruct (lookup_lt_is_Some_2 _ _ Hlt) as [this Hi].
    destruct (step_keeps_ids _ _ _ _ (actStep_effect i s1 this Hi) Hi j b Hb)
      as (b' & Hb' & Hid' & _).
    exists b'. split; [done|]. congruence.
  - intros j a Ha. destruct (phase1_lookup s j a Ha) as [action H1].
    apply Hkeep in H1. eauto.
Qed.

(** C10 (as amended).  The array at the end of phase 3 begins with the ants
    that were there when the tick began, identifier by identifier, and goes on
    with the ants pushed during the tick.  Every pushed ant has been visited
    by the ageing pass of that same tick: it ends the tick with [age = 1] and
    [stageAge = 1].  With [eggToAdultTicks > 1] it has paid the upkeep and is
    in the live population as an egg with [health = 49]; with
    [eggToAdultTicks <= 1] the same pass has hatched it and set its health
    to 100. *)
Theorem C10_newborn_aged_in_birth_tick (s s' : Simulation) :
  update s = Ok s' ->
  exists s3, beforeCull s = Ok s3 /\ s' = cull s3 /\
    length (ants s) <= length (ants s3) /\
    (forall j a, ants s !! j = Some a ->
       exists a3, ants s3 !! j = Some a3 /\ Ant.id a3 = Ant.id a) /\
    forall e b, length (ants s) <= e -> ants s3 !! e = Some b ->
      Ant.age b = 1 /\ Ant.stageAge b = 1 /\ Ant.nextAction b = None /\
      (1 < eggToAdultTicks params ->
         Ant.health b = 49%Q /\ Ant.stage b = Stage.egg /\ b ∈ ants s') /\
      (eggToAdultTicks params <= 1 ->
         Ant.health b = 100%Q /\ Ant.stage b <> Stage.egg).
Proof.
  intros Hup. destruct (update_cull _ _ Hup) as (s3 & H3 & ->).
  exists s3. split; [done|]. split; [done|].
  destruct (tick_newborn _ _ H3) as (i' & Hi' & [Hlen HN]).
  split; [done|]. split; [by apply tick_keeps_ids|]. intros e b He Hb.
  destruct (HN e b He Hb) as [(x & y & nn & u & Hform) _].
  rewrite decide_True in Hform by (apply lookup_lt_Some in Hb; lia).
  destruct Hform as [k ->].
  destruct (agedAnt_core k (newEgg x y nn u)) as (_ & _ & -> & _ & _ & -> & ->).
  split; [done|]. split; [done|]. split; [done|]. split.
  - intros Hegg. rewrite agedAnt_egg in * by done. cbn.
    split; [done|]. split; [done|].
    apply cull_keeps; [by eapply list_elem_of_lookup_2|done..].
  - intros Hegg. by apply agedAnt_hatchling.
Qed.

(** ** Two adjacent adults that both propose [mate] *)

Lemma forOf_step {S} (size : S -> nat) body fuel i (s s1 : S) :
  i < size s -> body i s = Ok s1 ->
  forOf size body (Datatypes.S fuel) i s = forOf size body fuel (Datatypes.S i) s1.
Proof.
  intros Hlt Hb. simpl. apply Nat.leb_gt in Hlt. by rewrite Hlt, Hb.
Qed.

Lemma forOf_done {S} (size : S -> nat) body fuel i (s : S) :
  size s <= i -> forOf size body fuel i s = Ok s.
Proof.
  intros Hle. apply Nat.leb_le in Hle. destruct fuel; simpl; by rewrite Hle.
Qed.

Lemma forOf_throws {S} (size : S -> nat) body fuel i (s : S) :
  i < size s -> body i s = TypeError ->
  forOf size body (Datatypes.S fuel) i s = TypeError.
Proof.
  intros Hlt Hb. simpl. apply Nat.leb_gt in Hlt. by rewrite Hlt, Hb.
Qed.

Lemma findPartner_pair s p0 p1 :
  ants s = [p0; p1] ->
  (Ant.x p1, Ant.y p1) ∈ neighborsOf p0 ->
  Ant.nextAction p1 = Some Action.mate -> Ant.stage p1 = Stage.adult ->
  findPartner (neighborsOf p0) ∅ s = Some 1.
Proof.
  intros Hs Hadj Hact Hstage.
  assert (wantsMate ∅ s 1 = true) as Hw.
  { unfold wantsMate. rewrite Hs. simpl. apply bool_decide_eq_true.
    repeat split; try done. }
  unfold neighborsOf in *. unfold findPartner, getAntAt. rewrite Hs.
  destruct p0 as [x0 y0 ? ? ? ? ? ? ?], p1 as [x1 y1 ? ? ? ? ? ? ?].
  cbn in *.
  rewrite !elem_of_cons, elem_of_nil in Hadj.
  repeat case_decide; cbn; rewrite ?Hw; try done;
    destruct Hadj as [Hadj|[Hadj|[Hadj|[Hadj|[]]]]]; inversion Hadj; lia.
Qed.

Lemma mateStep_idle i s m this :
  ants s !! i = Some this ->
  (i ∈ m \/ Ant.nextAction this <> Some Action.mate) ->
  mateStep i (s, m) = Ok (s, m).
Proof.
  intros Hi Hidle. unfold mateStep, wantsMate. rewrite Hi.
  rewrite bool_decide_eq_false_2; [done|].
  intros (? & ? & ?). destruct Hidle; done.
Qed.

Lemma actStep_waiting i s this :
  ants s !! i = Some this ->
  (Ant.nextAction this = Some Action.mate \/ Ant.nextAction this = None) ->
  actStep i s = ageing i s.
Proof.
  intros Hi [Hw|Hw]; unfold actStep, act; rewrite Hi, Hw.
  - by rewrite decide_True.
  - rewrite decide_False by done. by rewrite processAction_idle.
Qed.

Lemma ageing_state i s a :
  ants s !! i = Some a ->
  ageing i s =
    mkSim (<[i := agedAnt (draws s) a]> (ants s)) (grid s)
      (if decide (Ant.stage (hatch (Ant.tick a)) = Stage.adult)
       then S (draws s) else draws s)
      (uuids s).
Proof.
  intros Hi.
  pose proof (ageing_ants i s a Hi) as Ha.
  pose proof (ageing_grid i s) as Hg.
  pose proof (ageing_uuids i s) as Hu.
  assert (draws (ageing i s) =
          if decide (Ant.stage (hatch (Ant.tick a)) = Stage.adult)
          then S (draws s) else draws s) as Hd.
  { case_decide; [by eapply ageing_draws_adult|].
    unfold ageing, retire.
    rewrite (updAnt_twice_ants i s a Ant.tick hatch Hi).
    rewrite list_lookup_insert_eq by (by eapply lookup_lt_Some).
    by rewrite decide_False. }
  destruct (ageing i s). cbn in *. congruence.
Qed.

Lemma agedAnt_adult k a :
  Ant.stage a = Stage.adult ->
  Ant.stage (hatch (Ant.tick a)) = Stage.adult /\
  agedAnt k a =
    if lifespanReached (Math_random k) (Ant.tick a)
    then Ant.set_stage Stage.old (Ant.tick a) else Ant.tick a.
Proof.
  intros Hs. assert (hatch (Ant.tick a) = Ant.tick a) as Hh.
  { unfold hatch. rewrite decide_False; [done|]. cbn. congruence. }
  unfold agedAnt. rewrite Hh. split; [done|]. by rewrite decide_True.
Qed.

Lemma lifespan_not_reached r a :
  (0 <= r)%Q -> S (Ant.age a) < antLifespan params ->
  lifespanReached r (Ant.tick a) = false.
Proof.
  intros Hr Hage. unfold lifespanReached. cbn.
  destruct (Qle_bool _ _) eqn:E; [|done]. apply Qle_bool_iff in E.
  assert (inject_Z (Z.of_nat (S (Ant.age a))) + 1
          <= inject_Z (Z.of_nat (antLifespan params)))%Q as Hle.
  { rewrite <- (inject_Z_plus _ 1). rewrite <- Zle_Qle. lia. }
  lra.
Qed.

Lemma mateStep_pair s p0 p1 :
  ants s = [p0; p1] ->
  Ant.nextAction p0 = Some Action.mate -> Ant.stage p0 = Stage.adult ->
  Ant.nextAction p1 = Some Action.mate -> Ant.stage p1 = Stage.adult ->
  (Ant.x p1, Ant.y p1) ∈ neighborsOf p0 ->
  2 < maxAnts params ->
  mateStep 0 (s, ∅) =
    bindR (crossover (Ant.neuralNetwork p0) (Ant.neuralNetwork p1) (draws s))
      (fun '(nn, k) =>
         Ok (mkSim [p0; p1; newEgg (Ant.x p0) (Ant.y p0) nn (uuids s)]
               (grid s) k (S (uuids s)), ∅ ∪ {[0]} ∪ {[1]})).
Proof.
  intros Hs Ha0 Hs0 Ha1 Hs1 Hadj Hcap.
  unfold mateStep. rewrite Hs. cbn [lookup list_lookup].
  assert (wantsMate ∅ s 0 = true) as ->.
  { unfold wantsMate. rewrite Hs. cbn. apply bool_decide_eq_true.
    repeat split; done. }
  rewrite (findPartner_pair s p0 p1 Hs Hadj Ha1 Hs1).
  cbn [lookup list_lookup length].
  assert ((2 <? maxAnts params) = true) as -> by (by apply Nat.ltb_lt).
  by destruct (crossover _ _ _) as [[]| |].
Qed.

(** The state that phase 2 makes of two adjacent adults that both propose
    [mate], and the state phase 3 makes of that. *)
Lemma phase2_pair s p0 p1 child k :
  ants s = [p0; p1] ->
  Ant.nextAction p0 = Some Action.mate -> Ant.stage p0 = Stage.adult ->
  Ant.nextAction p1 = Some Action.mate -> Ant.stage p1 = Stage.adult ->
  (Ant.x p1, Ant.y p1) ∈ neighborsOf p0 ->
  2 < maxAnts params ->
  crossover (Ant.neuralNetwork p0) (Ant.neuralNetwork p1) (draws s) = Ok (child, k) ->
  phase2 s =
    Ok (mkSim [p0; p1; newEgg (Ant.x p0) (Ant.y p0) child (uuids s)]
          (grid s) k (S (uuids s)),
        ∅ ∪ {[0]} ∪ {[1]}).
Proof.
  intros Hs Ha0 Hs0 Ha1 Hs1 Hadj Hcap Hc. unfold phase2. rewrite Hs.
  change (2 * length [p0; p1]) with 4.
  pose proof (mateStep_pair s p0 p1 Hs Ha0 Hs0 Ha1 Hs1 Hadj Hcap) as H0.
  rewrite Hc in H0. simpl in H0.
  erewrite forOf_step; [|cbn; rewrite Hs; cbn; lia|exact H0].
  erewrite forOf_step; [|cbn; lia|].
  2:{ apply (mateStep_idle 1 _ _ p1); [done|]. left.
      apply elem_of_union_r. by apply elem_of_singleton. }
  erewrite forOf_step; [|cbn; lia|].
  2:{ eapply (mateStep_idle 2); [done|]. right. done. }
  apply forOf_done. cbn. lia.
Qed.

Lemma phase2_pair_throws s p0 p1 :
  ants s = [p0; p1] ->
  Ant.nextAction p0 = Some Action.mate -> Ant.stage p0 = Stage.adult ->
  Ant.nextAction p1 = Some Action.mate -> Ant.stage p1 = Stage.adult ->
  (Ant.x p1, Ant.y p1) ∈ neighborsOf p0 ->
  2 < maxAnts params ->
  crossover (Ant.neuralNetwork p0) (Ant.neuralNetwork p1) (draws s) = TypeError ->
  phase2 s = TypeError.
Proof.
  intros Hs Ha0 Hs0 Ha1 Hs1 Hadj Hcap Hc. unfold phase2. rewrite Hs.
  change (2 * length [p0; p1]) with 4.
  pose proof (mateStep_pair s p0 p1 Hs Ha0 Hs0 Ha1 Hs1 Hadj Hcap) as H0.
  rewrite Hc in H0. simpl in H0.
  apply forOf_throws; [cbn; rewrite Hs; cbn; lia|exact H0].
Qed.

Lemma actStep_waiting_state i s this :
  ants s !! i = Some this ->
  (Ant.nextAction this = Some Action.mate \/ Ant.nextAction this = None) ->
  actStep i s =
    mkSim (<[i := agedAnt (draws s) this]> (ants s)) (grid s)
      (if decide (Ant.stage (hatch (Ant.tick this)) = Stage.adult)
       then S (draws s) else draws s)
      (uuids s).
Proof.
  intros Hi Hw. rewrite (actStep_waiting i s this Hi Hw). by apply ageing_state.
Qed.

Lemma phase3_trio p0 p1 egg g k u :
  (Ant.nextAction p0 = Some Action.mate \/ Ant.nextAction p0 = None) ->
  (Ant.nextAction p1 = Some Action.mate \/ Ant.nextAction p1 = None) ->
  (Ant.nextAction egg = Some Action.mate \/ Ant.nextAction egg = None) ->
  Ant.stage p0 = Stage.adult -> Ant.stage p1 = Stage.adult ->
  exists k',
    phase3 (mkSim [p0; p1; egg] g k u) =
      Ok (mkSim [agedAnt k p0; agedAnt (S k) p1; agedAnt (S (S k)) egg] g k' u).
Proof.
  intros H0 H1 H2 Hs0 Hs1. unfold phase3. cbn [ants length].
  change (2 * 3) with 6.
  erewrite forOf_step;
    [|cbn; lia
     |cbn beta; erewrite actStep_waiting_state; [reflexivity|reflexivity|exact H0]].
  cbn [ants grid draws uuids insert list_insert].
  rewrite decide_True by (by apply agedAnt_adult).
  erewrite forOf_step;
    [|cbn; lia
     |cbn beta; erewrite actStep_waiting_state; [reflexivity|reflexivity|exact H1]].
  cbn [ants grid draws uuids insert list_insert].
  rewrite decide_True by (by apply agedAnt_adult).
  erewrite forOf_step;
    [|cbn; lia
     |cbn beta; erewrite actStep_waiting_state; [reflexivity|reflexivity|exact H2]].
  cbn [ants grid draws uuids insert list_insert].
  eexists. apply forOf_done. cbn. lia.
Qed.

(** C6 (as amended).  Two adults on orthogonally adjacent cells, alone in the
    population, that both propose [mate] below the cap: when the tick returns,
    phase 2 has crossed their genomes over and pushed exactly one egg on the
    initiating parent's cell; neither parent has executed an action (each is
    its record after phase 1, aged once: same cell, health minus one), the
    array before the cull being exactly the two parents and the egg, and the
    grid being the one phase 1 left.  The population has grown by exactly one
    when all three pass the cull, which they do when each parent has
    [health > 1] and [age + 1 < antLifespan] and [eggToAdultTicks > 1]. *)
Theorem C6_pair_mating (s s' : Simulation) (a0 a1 : Ant.t) :
  ants s = [a0; a1] ->
  Ant.stage a0 = Stage.adult -> Ant.stage a1 = Stage.adult ->
  (Ant.x a1, Ant.y a1) ∈ neighborsOf a0 ->
  (forall b, b ∈ ants (phase1 s) -> Ant.nextAction b = Some Action.mate) ->
  length (ants s) < maxAnts params ->
  update s = Ok s' ->
  exists child k s3,
    let p0 := Ant.set_nextAction (Some Action.mate) a0 in
    let p1 := Ant.set_nextAction (Some Action.mate) a1 in
    let egg := newEgg (Ant.x a0) (Ant.y a0) child (uuids s) in
    crossover (Ant.neuralNetwork a0) (Ant.neuralNetwork a1) (draws (phase1 s))
      = Ok (child, k) /\
    beforeCull s = Ok s3 /\ s' = cull s3 /\
    ants s3 = [agedAnt k p0; agedAnt (S k) p1; agedAnt (S (S k)) egg] /\
    grid s3 = grid (phase1 s) /\
    (randomInRange ->
     (1 < Ant.health a0)%Q -> (1 < Ant.health a1)%Q ->
     S (Ant.age a0) < antLifespan params ->
     S (Ant.age a1) < antLifespan params ->
     1 < eggToAdultTicks params ->
     ants s' = [Ant.tick p0; Ant.tick p1;
                Ant.mk (Ant.x a0) (Ant.y a0) 1 49 Stage.egg 1 (uuids s) child None] /\
     length (ants s') = S (length (ants s))).
Proof.
  intros Hs Hs0 Hs1 Hadj Hmate Hcap Hup.
  rewrite Hs in Hcap. cbn in Hcap.
  destruct (phase1_frame s) as [HF Hu]. rewrite Hs in HF.
  apply Forall2_cons_inv_l in HF as (q0 & l1 & [act0 Hq0] & HF & H1).
  apply Forall2_cons_inv_l in HF as (q1 & l2 & [act1 Hq1] & HF & ->).
  apply Forall2_nil_inv_l in HF as ->.
  assert (act0 = Some Action.mate) as ->.
  { specialize (Hmate q0). rewrite H1 in Hmate. subst q0.
    apply Hmate, list_elem_of_here. }
  assert (act1 = Some Action.mate) as ->.
  { specialize (Hmate q1). rewrite H1 in Hmate. subst q1.
    apply Hmate, list_elem_of_further, list_elem_of_here. }
  subst q0 q1.
  set (p0 := Ant.set_nextAction (Some Action.mate) a0) in *.
  set (p1 := Ant.set_nextAction (Some Action.mate) a1) in *.
  destruct (update_cull _ _ Hup) as (s3 & H3 & ->).
  pose proof H3 as Hbc. unfold beforeCull in H3.
  destruct (crossover (Ant.neuralNetwork a0) (Ant.neuralNetwork a1)
              (draws (phase1 s))) as [[child k]| |] eqn:Hc.
  - rewrite (phase2_pair (phase1 s) p0 p1 child k H1) in H3 by done.
    cbn [bindR fst] in H3.
    destruct (phase3_trio p0 p1
                (newEgg (Ant.x p0) (Ant.y p0) child (uuids (phase1 s)))
                (grid (phase1 s)) k (S (uuids (phase1 s))))
      as [k' H3']; try (by left); try (by right); try done.
    rewrite H3' in H3. inversion H3; subst s3. clear H3 H3'.
    rewrite Hu in *. exists child, k. eexists. cbn zeta.
    split; [done|]. split; [exact Hbc|].
    split; [reflexivity|]. split; [reflexivity|]. split; [reflexivity|].
    intros Hr Hh0 Hh1 Hg0 Hg1 Hegg.
    rewrite (proj2 (agedAnt_adult k p0 Hs0)).
    rewrite (proj2 (agedAnt_adult (S k) p1 Hs1)).
    rewrite !lifespan_not_reached by (done || apply Hr).
    rewrite (agedAnt_egg _ _ _ _ _ Hegg).
    rewrite Hs. unfold cull. cbn [ants set_ants].
    assert (alive (Ant.tick p0) = true) as A0.
    { unfold alive, Qltb. cbn. apply negb_true_iff.
      destruct (Qle_bool _ _) eqn:E; [|done]. apply Qle_bool_iff in E. lra. }
    assert (alive (Ant.tick p1) = true) as A1.
    { unfold alive, Qltb. cbn. apply negb_true_iff.
      destruct (Qle_bool _ _) eqn:E; [|done]. apply Qle_bool_iff in E. lra. }
    assert (notOld (Ant.tick p0) = true) as N0.
    { apply bool_decide_eq_true. cbn. congruence. }
    assert (notOld (Ant.tick p1) = true) as N1.
    { apply bool_decide_eq_true. cbn. congruence. }
    cbn [List.filter]. rewrite A0, A1. cbn [List.filter alive Qltb].
    cbn [List.filter]. rewrite N0, N1. done.
  - rewrite (phase2_pair_throws (phase1 s) p0 p1 H1) in H3 by done.
    discriminate.
  - by apply crossover_never_out_of_fuel in Hc.
Qed.

(** ** Vision *)

Lemma getAntAt_ants x y s s' : ants s' = ants s -> getAntAt x y s' = getAntAt x y s.
Proof. unfold getAntAt. by intros ->. Qed.

Lemma visionLoop_spec this offsets : forall s,
  let r := visionLoop this offsets s in
  length r.1 = length offsets /\
  ants r.2 = ants s /\
  (forall k c, grid s !! k = Some c -> grid r.2 !! k = Some c) /\
  forall n dx dy, offsets !! n = Some (dx, dy) ->
    exists cell,
      grid r.2 !! (Ant.x this + dx, Ant.y this + dy)%Z = Some cell /\
      r.1 !! n =
        Some (cellValue (getAntAt (Ant.x this + dx) (Ant.y this + dy) s) cell).
Proof.
  induction offsets as [|[dx0 dy0] rest IH]; intros s; cbn zeta.
  - simpl. repeat split; try done.
  - simpl.
    pose proof (getCell_ants (Ant.x this + dx0) (Ant.y this + dy0) s) as Ha.
    pose proof (getCell_lookup (Ant.x this + dx0) (Ant.y this + dy0) s) as Hl.
    pose proof (getCell_stable (Ant.x this + dx0) (Ant.y this + dy0) s) as Hst.
    destruct (getCell _ _ s) as [cell s1]. simpl in Ha, Hl, Hst.
    specialize (IH s1). cbn zeta in IH.
    destruct (visionLoop this rest s1) as [values s2]. simpl in *.
    destruct IH as (Hlen & Hants & Hstable & Hvals).
    split; [by rewrite Hlen|]. split; [congruence|].
    split; [by auto|].
    intros [|n] dx dy Hn; simpl in Hn.
    + inversion Hn; subst. exists cell. split; [by apply Hstable|].
      simpl. by rewrite (getAntAt_ants _ _ s s1 Ha).
    + destruct (Hvals n dx dy Hn) as (c & Hc & Hv). exists c. split; [done|].
      simpl. by rewrite <- (getAntAt_ants _ _ s s1 Ha).
Qed.

Lemma getAntAt_occupied s i this :
  ants s !! i = Some this ->
  is_Some (getAntAt (Ant.x this) (Ant.y this) s).
Proof.
  intros Hi. unfold getAntAt.
  destruct (list_find_elem_of
              (fun ant => Ant.x ant = Ant.x this /\ Ant.y ant = Ant.y this)
              (ants s) this) as [[j b] ->]; [by eapply list_elem_of_lookup_2|done|].
  by eexists.
Qed.

(** C3 (as amended).  [processVision] returns nine values, one per cell of
    the 3 x 3 neighbourhood in row-major order ([dy] outer, [dx] inner), and
    leaves every cell of it classified in the grid; a cell encodes 2 when
    [getAntAt] finds any ant on it (the ant that looks counts: the centre
    always encodes 2), and otherwise 1 for food, 0 for terrain and -1 for
    empty.  For an ant that is not an egg, [decideAction] hands this vector
    to the network and maps the sampled index onto the action set of the
    stage. *)
Theorem C3_processVision (this : Ant.t) (s : Simulation) :
  let r := processVision this s in
  length r.1 = 9 /\ ants r.2 = ants s /\
  (forall k c, grid s !! k = Some c -> grid r.2 !! k = Some c) /\
  (forall dx dy, (-1 <= dx <= 1)%Z -> (-1 <= dy <= 1)%Z ->
     exists cell,
       grid r.2 !! (Ant.x this + dx, Ant.y this + dy)%Z = Some cell /\
       r.1 !! Z.to_nat ((dy + 1) * 3 + (dx + 1)) =
         Some (match getAntAt (Ant.x this + dx) (Ant.y this + dy) s with
               | Some _ => 2
               | None =>
                   match cell with
                   | Cell.food => 1
                   | Cell.terrain => 0
                   | Cell.empty => -1
                   end
               end)%Z) /\
  (forall i, ants s !! i = Some this -> r.1 !! 4 = Some 2%Z) /\
  (Ant.stage this <> Stage.egg ->
   let actions :=
     if decide (Ant.stage this = Stage.adult) then adultActions
     else otherActions in
   decideAction this s =
     (index actions
        (Z.rem (sampleIndex (Math_random (draws r.2))
                  (softmax_predict (Ant.neuralNetwork this) r.1))
               (Z.of_nat (length actions))),
      set_draws (S (draws r.2)) r.2)).
Proof.
  cbn zeta.
  assert (Ant.stage this <> Stage.egg ->
          decideAction this s =
            (index (if decide (Ant.stage this = Stage.adult) then adultActions
                    else otherActions)
               (Z.rem (sampleIndex (Math_random (draws (processVision this s).2))
                         (softmax_predict (Ant.neuralNetwork this)
                            (processVision this s).1))
                      (Z.of_nat (length (if decide (Ant.stage this = Stage.adult)
                                         then adultActions else otherActions)))),
             set_draws (S (draws (processVision this s).2))
               (processVision this s).2)) as Hdecide.
  { intros Hegg. unfold decideAction. rewrite decide_False by done.
    by destruct (processVision this s). }
  unfold processVision in *.
  destruct (visionLoop_spec this visionOffsets s) as (Hlen & Hants & Hstable & Hvals).
  split; [done|]. split; [done|]. split; [done|].
  assert (forall dx dy, (-1 <= dx <= 1)%Z -> (-1 <= dy <= 1)%Z ->
            visionOffsets !! Z.to_nat ((dy + 1) * 3 + (dx + 1)) = Some (dx, dy)) as Hoff.
  { intros dx dy Hdx Hdy.
    assert (dx = -1 \/ dx = 0 \/ dx = 1)%Z as [->|[->| ->]] by lia;
    assert (dy = -1 \/ dy = 0 \/ dy = 1)%Z as [->|[->| ->]] by lia; reflexivity. }
  split.
  { intros dx dy Hdx Hdy.
    destruct (Hvals _ dx dy (Hoff dx dy Hdx Hdy)) as (cell & Hc & Hv).
    exists cell. split; [done|]. rewrite Hv. unfold cellValue. done. }
  split; [|exact Hdecide].
  intros i Hi.
  destruct (Hvals 4 0%Z 0%Z eq_refl) as (cell & _ & Hv). rewrite Hv.
  rewrite !Z.add_0_r. destruct (getAntAt_occupied s i this Hi) as [j ->]. done.
Qed.

(** ** Eating *)

Lemma Math_min_spec a b :
  (Math_min a b <= a /\ Math_min a b <= b /\
   (Math_min a b = a \/ Math_min a b = b))%Q.
Proof.
  unfold Math_min. destruct (Qle_bool a b) eqn:E.
  - apply Qle_bool_iff in E. repeat split; [lra|done|by left].
  - assert (~ (a <= b)%Q) as Hn.
    { intros H. apply Qle_bool_iff in H. congruence. }
    repeat split; [lra|lra|by right].
Qed.

(** C8.  [eat] on a cell classified food raises the health to
    [min(100, health + 20)] (strictly more than before when it was below the
    cap of 100, still 100 when it was 100) and leaves the cell empty; a second
    [eat] on that cell changes nothing at all. *)
Theorem C8_eat (i : nat) (s : Simulation) (this : Ant.t) :
  ants s !! i = Some this ->
  (getCell (Ant.x this) (Ant.y this) s).1 = Cell.food ->
  let s1 := processAction (Some Action.eat) i s in
  exists this1,
    ants s1 !! i = Some this1 /\
    Ant.health this1 = Math_min 100 (Ant.health this + 20) /\
    ((Ant.health this < 100)%Q -> (Ant.health this < Ant.health this1)%Q) /\
    ((Ant.health this == 100)%Q -> (Ant.health this1 == 100)%Q) /\
    (Ant.health this1 <= 100)%Q /\
    Ant.x this1 = Ant.x this /\ Ant.y this1 = Ant.y this /\
    grid s1 !! (Ant.x this, Ant.y this) = Some Cell.empty /\
    processAction (Some Action.eat) i s1 = s1.
Proof.
  intros Hi Hfood. cbn zeta.
  assert (processAction (Some Action.eat) i s =
          clearCell (Ant.x this) (Ant.y this)
            (updAnt i (fun a => Ant.set_health (Math_min 100 (Ant.health a + 20)) a)
               (getCell (Ant.x this) (Ant.y this) s).2)) as ->.
  { unfold processAction. rewrite Hi. cbn [isMove].
    destruct (getCell (Ant.x this) (Ant.y this) s) as [cell s0].
    simpl in Hfood. subst cell. by rewrite decide_True. }
  pose proof (getCell_ants (Ant.x this) (Ant.y this) s) as Ha.
  set (s0 := (getCell (Ant.x this) (Ant.y this) s).2) in *.
  set (this1 := Ant.set_health (Math_min 100 (Ant.health this + 20)) this).
  assert (ants (clearCell (Ant.x this) (Ant.y this)
                  (updAnt i (fun a => Ant.set_health (Math_min 100 (Ant.health a + 20)) a) s0))
            !! i = Some this1) as H1.
  { cbn. rewrite Ha, list_lookup_alter_eq, Hi. done. }
  exists this1. split; [exact H1|]. split; [done|].
  destruct (Math_min_spec 100 (Ant.health this + 20)) as (Hle1 & Hle2 & Hcase).
  change (Ant.health this1) with (Math_min 100 (Ant.health this + 20)).
  split.
  { intros Hlt. destruct Hcase as [Hc|Hc]; rewrite Hc in *; clear -Hlt; lra. }
  split.
  { intros Heq. destruct Hcase as [Hc|Hc]; rewrite Hc in *; clear -Heq Hle1; lra. }
  split; [done|]. split; [done|]. split; [done|].
  split; [cbn; apply lookup_insert_eq|].
  unfold processAction at 1. rewrite H1. cbn [isMove].
  rewrite (getCell_known _ _ _ Cell.empty) by (cbn; apply lookup_insert_eq).
  by rewrite decide_False.
Qed.

(** ** Clearing a cell *)

(** C9 (as amended).  [clearCell(x, y)] sets the cell to empty whatever it
    held and touches nothing else: a food cell becomes empty, and so does a
    terrain cell or a cell never seen; the grid is left as it was exactly when
    the cell already was empty.  The test for food is made by the caller:
    [eat] on a cell that is not food does not reach [clearCell] and leaves the
    simulation as [getCell] returned it. *)
Theorem C9_clearCell (s : Simulation) (x y : Z) :
  grid (clearCell x y s) !! (x, y) = Some Cell.empty /\
  (forall k, k <> (x, y) -> grid (clearCell x y s) !! k = grid s !! k) /\
  ants (clearCell x y s) = ants s /\
  (grid (clearCell x y s) = grid s <-> grid s !! (x, y) = Some Cell.empty) /\
  (forall i this, ants s !! i = Some this ->
     (getCell (Ant.x this) (Ant.y this) s).1 <> Cell.food ->
     processAction (Some Action.eat) i s = (getCell (Ant.x this) (Ant.y this) s).2).
Proof.
  split; [apply lookup_insert_eq|].
  split; [intros k Hk; cbn; by rewrite lookup_insert_ne|].
  split; [done|]. split.
  - cbn. split.
    + intros H. rewrite <- H. apply lookup_insert_eq.
    + intros H. by apply insert_id.
  - intros i this Hi Hnf. unfold processAction. rewrite Hi. cbn [isMove].
    destruct (getCell (Ant.x this) (Ant.y this) s) as [cell s0].
    simpl in *. by rewrite decide_False.
Qed.

End Proofs.

(** * Further properties of the script *)

(** Name the result of the call of [getCell] in the goal, with what the call
    is known to do. *)
Ltac call_getCell cell s1 He Hl Ha :=
  match goal with
  | |- context [getCell ?a ?b ?s] =>
      pose proof (eff_getCell a b s) as He;
      pose proof (getCell_lookup a b s) as Hl;
      pose proof (getCell_ants a b s) as Ha;
      destruct (getCell a b s) as [cell s1];
      simpl in He, Hl, Ha
  end.

Section FootprintProofs.
Context {W : World}.

Local Abbreviation Effects := (rtc Effect).



Lemma effects_step s1 s2 s3 : Effects s1 s2 -> Effect s2 s3 -> Effects s1 s3.
Proof. intros. by eapply rtc_r. Qed.

Lemma visionLoop_effects this offsets : forall s,
  Effects s (visionLoop this offsets s).2.
Proof.
  induction offsets as [|[dx dy] rest IH]; intros s; simpl; [done|].
  pose proof (eff_getCell (Ant.x this + dx) (Ant.y this + dy) s) as H1.
  destruct (getCell _ _ s) as [cell s1]. simpl in H1.
  specialize (IH s1). destruct (visionLoop this rest s1) as [values s2].
  simpl in *. by eapply rtc_l.
Qed.

Lemma decideStep_effects i s : Effects s (decideStep i s).
Proof.
  unfold decideStep. destruct (ants s !! i) as [ant|]; [|done].
  unfold decideAction. case_decide.
  - apply rtc_once. apply eff_nextAction.
  - unfold processVision.
    pose proof (visionLoop_effects ant visionOffsets s) as H1.
    destruct (visionLoop ant visionOffsets s) as [v s1]. simpl in H1.
    eapply effects_step; [|apply eff_nextAction].
    eapply effects_step; [exact H1|]. apply eff_random. lia.
Qed.

Lemma phase1_effects s : Effects s (phase1 s).
Proof.
  unfold phase1. generalize (seq 0 (length (ants s))). intros l. revert s.
  induction l as [|i l IH]; intros s; simpl; [done|].
  etransitivity; [apply (decideStep_effects i s)|apply IH].
Qed.

Lemma mateStep_effects i s m s' m' :
  mateStep i (s, m) = Ok (s', m') -> Effects s s'.
Proof.
  intros Hstep.
  destruct (mateStep_effect _ _ _ _ _ Hstep)
    as [[-> _]|(this & j & partner & child & k & Hi & _ & _ & _ & _ & Hj & Hlt & Hc & -> & _)];
    [done|].
  apply rtc_once. apply (eff_push i this child k s); try done.
  - by eapply crossover_draws.
  - right. eauto.
Qed.

Lemma processAction_effects action i s : Effects s (processAction action i s).
Proof.
  unfold processAction. destruct (ants s !! i) as [this|] eqn:Hi; [|done].
  destruct (isMove action) eqn:Hmove.
  - call_getCell cell s1 H1 Hl Ha. case_decide.
    + by apply rtc_once.
    + eapply effects_step; [by apply rtc_once|].
      eapply (eff_move i this); [by rewrite Ha|exact Hl|done|].
      destruct action as [[]|]; try discriminate; lia.
  - destruct action as [[]|]; try discriminate; try done.
    + (* attack *)
      match goal with |- context [match ?t with Some _ => _ | None => _ end] =>
        destruct t as [j|] end; [|done].
      destruct (ants s !! j) as [tgt|]; [|done].
      case_decide.
      * eapply effects_step; [apply rtc_once, (eff_damage j 50); done|].
        apply eff_heal. by right.
      * apply rtc_once, (eff_damage j 10). done.
    + (* eat *)
      call_getCell cell s1 H1 Hl Ha. case_decide.
      * subst cell. eapply effects_step.
        -- eapply effects_step; [by apply rtc_once|].
           apply (eff_heal i 100 20). by left.
        -- apply (eff_clear i (Ant.set_health (Math_min 100 (Ant.health this + 20)) this)).
           ++ cbn. by rewrite Ha, list_lookup_alter_eq, Hi.
           ++ exact Hl.
      * by apply rtc_once.
    + (* sleep *)
      apply rtc_once, (eff_heal i 100 5). by left.
    + (* asexual *)
      destruct (length (ants s) <? maxAnts params) eqn:Hlt; [|done].
      apply Nat.ltb_lt in Hlt.
      eapply effects_step; [apply rtc_once, (eff_halve i)|].
      apply (eff_push i (Ant.set_health (Ant.health this / 2) this)
               (mkNN (weights (Ant.neuralNetwork this))
                     (biases (Ant.neuralNetwork this)))
               (draws s + 60)
               (updAnt i (fun a => Ant.set_health (Ant.health a / 2) a) s)).
      * cbn. by rewrite list_lookup_alter_eq, Hi.
      * cbn. lia.
      * cbn. by rewrite length_alter.
      * left. done.
Qed.

Lemma actStep_effects i s : Effects s (actStep i s).
Proof.
  unfold actStep, ageing.
  eapply effects_step; [|apply eff_retire].
  eapply effects_step; [|apply eff_hatch].
  eapply effects_step; [|apply eff_tick].
  unfold act. destruct (ants s !! i); [|done]. case_decide; [done|].
  apply processAction_effects.
Qed.

Lemma tick_effects s s3 : beforeCull s = Ok s3 -> Effects s s3.
Proof.
  unfold beforeCull. intros H.
  destruct (phase2 (phase1 s)) as [[s2 m2]| |] eqn:E2; try discriminate.
  simpl in H. unfold phase2 in E2.
  eapply (forOf_inv _ _ (fun _ (st : Simulation * gset nat) => Effects s st.1)) in E2
    as (_ & _ & _ & H2); [| |apply phase1_effects].
  - unfold phase3 in H.
    eapply (forOf_inv _ _ (fun _ st => Effects s st)) in H
      as (_ & _ & _ & H3); [exact H3| |exact H2].
    intros i s1 s1' HI Hlt Hs. inversion Hs; subst.
    etransitivity; [exact HI|apply actStep_effects].
  - intros i [s1 m1] [s1' m1'] HI _ Hs. simpl in HI |- *.
    etransitivity; [exact HI|by eapply mateStep_effects].
Qed.

(** An invariant of every elementary effect that the cull keeps is an
    invariant of the tick. *)
Lemma tick_invariant (I : Simulation -> Prop) :
  (forall s s', Effect s s' -> I s -> I s') ->
  (forall s, I s -> I (cull s)) ->
  forall s s', I s -> update s = Ok s' -> I s'.
Proof.
  intros Hstep Hcull s s' H0 Hup.
  destruct (update_cull _ _ Hup) as (s3 & H3 & ->).
  apply Hcull. apply tick_effects in H3. clear Hup.
  induction H3 as [|s1 s2 s3 H12 _ IH]; [done|].
  apply IH. by eapply Hstep.
Qed.

End FootprintProofs.

Section Invariants.
Context {W : World}.

(** ** The grid during a tick *)

Lemma cellAfter_refl c : cellAfter c c.
Proof. by left. Qed.

Lemma cellAfter_trans c1 c2 c3 : cellAfter c1 c2 -> cellAfter c2 c3 -> cellAfter c1 c3.
Proof.
  intros [->|[-> ->]] [->|[H ->]]; try (by left); by right.
Qed.

Lemma effect_grid s s' :
  Effect s s' ->
  forall k c, grid s !! k = Some c ->
    exists c', grid s' !! k = Some c' /\ cellAfter c c'.
Proof.
  intros HE k c Hk.
  assert (grid s' = grid s -> exists c', grid s' !! k = Some c' /\ cellAfter c c') as Hsame.
  { intros ->. exists c. split; [done|apply cellAfter_refl]. }
  destruct HE; try (by apply Hsame).
  - exists c. split; [by apply getCell_stable|apply cellAfter_refl].
  - destruct (decide (k = (Ant.x this, Ant.y this))) as [->|Hne].
    + exists Cell.empty. split; [cbn; apply lookup_insert_eq|].
      right. split; [congruence|done].
    + exists c. split; [cbn; by rewrite lookup_insert_ne|apply cellAfter_refl].
  - apply Hsame. unfold retire. destruct (ants s !! i); [|done].
    case_decide; [|done]. by destruct (lifespanReached _ _).
Qed.

Lemma effects_grid s s' :
  rtc Effect s s' ->
  forall k c, grid s !! k = Some c ->
    exists c', grid s' !! k = Some c' /\ cellAfter c c'.
Proof.
  induction 1 as [s|s1 s2 s3 H12 _ IH]; intros k c Hk.
  - exists c. split; [done|apply cellAfter_refl].
  - destruct (effect_grid _ _ H12 k c Hk) as (c2 & H2 & Hc2).
    destruct (IH k c2 H2) as (c3 & H3 & Hc3).
    exists c3. split; [done|]. by eapply cellAfter_trans.
Qed.

(** X1.  Terrain is permanent and no food grows during a tick: a cell
    that is classified when the tick begins holds the same type when the tick
    ends, unless it was food and an ant ate it, which leaves it empty. *)
Theorem update_keeps_grid (s s' : Simulation) :
  update s = Ok s' ->
  forall k c, grid s !! k = Some c ->
    grid s' !! k = Some c \/ (c = Cell.food /\ grid s' !! k = Some Cell.empty).
Proof.
  intros Hup k c Hk. destruct (update_cull _ _ Hup) as (s3 & H3 & ->).
  destruct (effects_grid _ _ (tick_effects _ _ H3) k c Hk) as (c' & Hc' & [->|[-> ->]]).
  - by left.
  - right. done.
Qed.

(** ** Health never exceeds its cap *)

Lemma Forall_alter_ants (P : Ant.t -> Prop) (f : Ant.t -> Ant.t) i s :
  (forall a, P a -> P (f a)) ->
  Forall P (ants s) -> Forall P (ants (updAnt i f s)).
Proof.
  intros Hf H. cbn. apply Forall_lookup. intros j b Hb.
  destruct (decide (i = j)) as [->|Hne].
  - rewrite list_lookup_alter_eq in Hb.
    destruct (ants s !! j) as [a|] eqn:Ha; [|done]. simpl in Hb.
    inversion Hb; subst. apply Hf. by eapply Forall_lookup_1.
  - rewrite list_lookup_alter_ne in Hb by done. by eapply Forall_lookup_1.
Qed.

Lemma Forall_retire (P : Ant.t -> Prop) i s :
  (forall a, P a -> P (Ant.set_stage Stage.old a)) ->
  Forall P (ants s) -> Forall P (ants (retire i s)).
Proof.
  intros Hf H. unfold retire. destruct (ants s !! i); [|done].
  case_decide; [|done]. destruct (lifespanReached _ _); [|done].
  by apply (Forall_alter_ants P _ i (set_draws (S (draws s)) s)).
Qed.

Lemma Forall_cull (P : Ant.t -> Prop) s :
  Forall P (ants s) -> Forall P (ants (cull s)).
Proof.
  intros H. apply Forall_forall. intros a Ha. unfold cull in Ha. cbn in Ha.
  apply list_elem_of_In, filter_In in Ha as [Ha _].
  apply filter_In in Ha as [Ha _].
  by eapply Forall_forall; [exact H|apply list_elem_of_In].
Qed.

(** An invariant of the single ants: kept by every mutation of an ant that
    the tick makes and true of every egg that is pushed. *)
Lemma effect_Forall (P : Ant.t -> Prop) s s' :
  (forall a action, P a -> P (Ant.set_nextAction action a)) ->
  (forall a x y, P a -> P (Ant.set_pos x y a)) ->
  (forall a d, (0 <= d)%Q -> P a -> P (Ant.set_health (Ant.health a - d) a)) ->
  (forall a cap gain, cap = 100%Q \/ cap = maxAntHealth params ->
     P a -> P (Ant.set_health (Math_min cap (Ant.health a + gain)) a)) ->
  (forall a, P a -> P (Ant.set_health (Ant.health a / 2) a)) ->
  (forall a, P a -> P (Ant.tick a)) ->
  (forall a, P a -> P (hatch a)) ->
  (forall a, P a -> P (Ant.set_stage Stage.old a)) ->
  (forall parent nn x y u,
     P parent ->
     (weights nn = weights (Ant.neuralNetwork parent) /\
      biases nn = biases (Ant.neuralNetwork parent) \/
      exists partner k0 k, P partner /\
        crossover (Ant.neuralNetwork parent) (Ant.neuralNetwork partner) k0
          = Ok (nn, k)) ->
     P (newEgg x y nn u)) ->
  Effect s s' -> Forall P (ants s) -> Forall P (ants s').
Proof.
  intros Hact Hpos Hdmg Hheal Hhalf Htick Hhatch Hold Hegg HE H.
  destruct HE.
  - by rewrite getCell_ants.
  - done.
  - apply Forall_alter_ants; [|done]. intros; by apply Hact.
  - apply Forall_alter_ants; [|done]. intros; by apply Hpos.
  - apply Forall_alter_ants; [|done]. intros; by apply Hdmg.
  - apply Forall_alter_ants; [|done]. intros; by apply Hheal.
  - apply Forall_alter_ants; [|done]. intros; by apply Hhalf.
  - done.
  - cbn. apply Forall_app. split; [done|]. apply Forall_singleton.
    apply (Hegg parent); [by eapply Forall_lookup_1|].
    match goal with Hg : _ \/ _ |- _ =>
      destruct Hg as [?|(j & partner & k0 & Hj & Hc)] end; [by left|].
    right. exists partner, k0, k. split; [by eapply Forall_lookup_1|done].
  - apply Forall_alter_ants; [|done]. intros; by apply Htick.
  - apply Forall_alter_ants; [|done]. intros; by apply Hhatch.
  - by apply Forall_retire.
Qed.

Lemma Math_min_le_l a b : (Math_min a b <= a)%Q.
Proof.
  unfold Math_min. destruct (Qle_bool a b) eqn:E; [lra|].
  assert (~ (a <= b)%Q) as Hn.
  { intros H. apply Qle_bool_iff in H. congruence. }
  lra.
Qed.

(** X2.  No action raises a health above the caps that the code applies: when
    every health is at most [M] before the tick, [M] being at least
    100 and at least [maxAntHealth], every health is at most [M] after it. *)
Theorem update_health_cap (M : Q) (s s' : Simulation) :
  (100 <= M)%Q -> (maxAntHealth params <= M)%Q ->
  Forall (fun a => (Ant.health a <= M)%Q) (ants s) ->
  update s = Ok s' ->
  Forall (fun a => (Ant.health a <= M)%Q) (ants s').
Proof.
  intros H100 Hmax H0 Hup.
  apply (tick_invariant (fun s => Forall (fun a => (Ant.health a <= M)%Q) (ants s)))
    with (s := s); try done; [|apply Forall_cull].
  intros s1 s2 HE. apply effect_Forall; try done; cbn.
  - intros a d Hd Ha. lra.
  - intros a cap gain Hcap _.
    pose proof (Math_min_le_l cap (Ant.health a + gain)) as Hle.
    destruct Hcap as [Hc|Hc]; subst cap; lra.
  - intros a Ha.
    destruct (Qlt_le_dec (Ant.health a) 0) as [Hneg|Hpos].
    + assert (Ant.health a / 2 <= 0)%Q; [|lra].
      assert (Ant.health a / 2 == Ant.health a * (1 # 2))%Q as -> by field. lra.
    + assert (Ant.health a / 2 == Ant.health a * (1 # 2))%Q as -> by field. lra.
  - intros a Ha. lra.
  - intros a Ha. unfold hatch. repeat case_match; cbn; try done.
  - intros. lra.
Qed.

End Invariants.

Section Invariants2.
Context {W : World}.

(** ** Ants on open ground *)

Lemma openGround_alter (f : Ant.t -> Ant.t) i s :
  (forall a, Ant.x (f a) = Ant.x a /\ Ant.y (f a) = Ant.y a) ->
  onOpenGround s -> onOpenGround (updAnt i f s).
Proof.
  intros Hf H b Hb. cbn in *.
  apply list_elem_of_lookup in Hb as [j Hj].
  destruct (decide (i = j)) as [->|Hne].
  - rewrite list_lookup_alter_eq in Hj.
    destruct (ants s !! j) as [a|] eqn:Ha; [|done]. simpl in Hj.
    inversion Hj; subst. destruct (Hf a) as [-> ->].
    apply H. by eapply list_elem_of_lookup_2.
  - rewrite list_lookup_alter_ne in Hj by done.
    apply H. by eapply list_elem_of_lookup_2.
Qed.

Lemma effect_openGround s s' : Effect s s' -> onOpenGround s -> onOpenGround s'.
Proof.
  intros HE H. destruct HE;
    try (apply openGround_alter; [intros []; by split|done]).
  - intros b Hb. rewrite getCell_ants in Hb.
    destruct (H b Hb) as (c & Hc & Hn). exists c. split; [|done].
    by apply getCell_stable.
  - done.
  - intros b Hb. cbn in *.
    apply list_elem_of_lookup in Hb as [j Hj].
    destruct (decide (i = j)) as [->|Hne].
    + rewrite list_lookup_alter_eq in Hj.
      destruct (ants s !! j) as [a|] eqn:Ha; [|done]. simpl in Hj.
      inversion Hj; subst. cbn. eauto.
    + rewrite list_lookup_alter_ne in Hj by done.
      apply H. by eapply list_elem_of_lookup_2.
  - intros b Hb. cbn in *. destruct (H b Hb) as (c & Hc & Hn).
    destruct (decide ((Ant.x this, Ant.y this) = (Ant.x b, Ant.y b))) as [He|Hne].
    + exists Cell.empty. rewrite He. split; [apply lookup_insert_eq|done].
    + exists c. split; [by rewrite lookup_insert_ne|done].
  - intros b Hb. cbn in *. apply elem_of_app in Hb as [Hb|Hb]; [by apply H|].
    apply list_elem_of_singleton in Hb as ->. cbn.
    apply H. by eapply list_elem_of_lookup_2.
  - unfold hatch. intros b Hb. cbn in *.
    apply (openGround_alter hatch i s); [|done|done].
    intros a. unfold hatch. repeat case_match; done.
  - unfold retire. destruct (ants s !! i); [|done]. case_decide; [|done].
    destruct (lifespanReached _ _); [|done].
    apply (openGround_alter _ i (set_draws (S (draws s)) s)); [|done].
    intros []; by split.
Qed.

(** X3.  Ants never enter terrain: when every ant stands on a classified cell
    that is not terrain before the tick, every ant of the population after
    the tick does, the eggs laid during the tick included. *)
Theorem update_keeps_open_ground (s s' : Simulation) :
  onOpenGround s -> update s = Ok s' -> onOpenGround s'.
Proof.
  apply (tick_invariant onOpenGround).
  - apply effect_openGround.
  - intros s1 H b Hb. apply H. unfold cull in Hb. cbn in Hb.
    apply list_elem_of_In, filter_In in Hb as [Hb _].
    apply filter_In in Hb as [Hb _]. by apply list_elem_of_In.
Qed.

(** ** The shape of the genomes *)

Lemma genomesShaped_Forall sw sb s :
  genomesShaped sw sb s <->
  Forall (fun a => shape (weights (Ant.neuralNetwork a)) = sw /\
                   shape (biases (Ant.neuralNetwork a)) = sb) (ants s).
Proof. unfold genomesShaped. by rewrite Forall_lookup. Qed.

Lemma shape_layers l : length (shape l) = length l.
Proof. unfold shape. by rewrite length_map. Qed.

Lemma tick_genomesShaped (sw sb : list nat) (s s' : Simulation) :
  length sb = length sw ->
  genomesShaped sw sb s -> update s = Ok s' -> genomesShaped sw sb s'.
Proof.
  intros Hlen H0 Hup. apply genomesShaped_Forall.
  apply genomesShaped_Forall in H0. revert s s' H0 Hup.
  apply (tick_invariant
           (fun s => Forall (fun a => shape (weights (Ant.neuralNetwork a)) = sw /\
                                      shape (biases (Ant.neuralNetwork a)) = sb)
                       (ants s))); [|intros s; apply Forall_cull].
  intros s1 s2 HE. apply effect_Forall; try done.
  - intros a Ha. unfold hatch. repeat case_match; done.
  - intros parent nn x y u [Hw Hb] [[Ew Eb]|(partner & k0 & k & [Hw' Hb'] & Hc)]; cbn.
    + by rewrite Ew, Eb.
    + destruct (crossover_returns (Ant.neuralNetwork parent)
                  (Ant.neuralNetwork partner) k0)
        as (child & k' & Hc' & Sw & Sb); [congruence|congruence| |].
      { rewrite <- (shape_layers (biases _)), <- (shape_layers (weights _)).
        congruence. }
      rewrite Hc' in Hc. inversion Hc; subst. split; congruence.
Qed.

(** X4.  A tick keeps the common shape of the genomes: when every genome of the
    population has the weight rows of lengths [sw] and the bias rows of
    lengths [sb], as many of the ones as of the others, so has every genome
    after the tick, those of the eggs laid during the tick included. *)
Theorem update_keeps_genome_shape (sw sb : list nat) (s s' : Simulation) :
  length sb = length sw ->
  genomesShaped sw sb s -> update s = Ok s' -> genomesShaped sw sb s'.
Proof. apply tick_genomesShaped. Qed.

(** ** [stageAge] and [age] *)

(** X5.  [stageAge] is never set back, not even at hatching: it
    stays equal to [age] on every ant for which the two were equal. *)
Theorem update_keeps_stageAge (s s' : Simulation) :
  Forall (fun a => Ant.stageAge a = Ant.age a) (ants s) ->
  update s = Ok s' ->
  Forall (fun a => Ant.stageAge a = Ant.age a) (ants s').
Proof.
  apply (tick_invariant
           (fun s => Forall (fun a => Ant.stageAge a = Ant.age a) (ants s)));
    [|intros s1; apply Forall_cull].
  intros s1 s2 HE. apply effect_Forall; try done; cbn.
  - intros a Ha. by rewrite Ha.
  - intros a Ha. unfold hatch. repeat case_match; done.
Qed.

(** ** Identifiers after the cull *)

Lemma uniqueIds_NoDup s :
  uniqueIds s <->
  Forall (fun a => Ant.id a < uuids s) (ants s) /\ NoDup (map Ant.id (ants s)).
Proof.
  unfold uniqueIds. rewrite Forall_lookup, NoDup_alt. split.
  - intros [H1 H2]. split; [done|]. intros j k u Hj Hk.
    rewrite list_lookup_fmap in Hj, Hk.
    destruct (ants s !! j) as [b|] eqn:Hb; [|done].
    destruct (ants s !! k) as [c|] eqn:Hc; [|done].
    simpl in *. eapply H2; eauto. congruence.
  - intros [H1 H2]. split; [done|]. intros j k b c Hb Hc Hid.
    apply (H2 j k (Ant.id b)); rewrite list_lookup_fmap.
    + by rewrite Hb.
    + rewrite Hc. simpl. congruence.
Qed.

Lemma NoDup_map_filter {A B} (g : A -> B) (f : A -> bool) (l : list A) :
  NoDup (map g l) -> NoDup (map g (List.filter f l)).
Proof.
  induction l as [|a l IH]; simpl; [done|].
  intros H. apply NoDup_cons in H as [Hn H]. destruct (f a); simpl; [|by apply IH].
  apply NoDup_cons. split; [|by apply IH].
  intros Hin. apply Hn. apply list_elem_of_In in Hin. apply list_elem_of_In.
  apply in_map_iff in Hin as (x & Hx & Hin). apply in_map_iff.
  exists x. split; [done|]. by apply filter_In in Hin as [? _].
Qed.

Lemma uniqueIds_cull s : uniqueIds s -> uniqueIds (cull s).
Proof.
  rewrite !uniqueIds_NoDup. intros [H1 H2]. split.
  - by apply (Forall_cull (fun a => Ant.id a < uuids s)).
  - unfold cull. cbn. by do 2 apply NoDup_map_filter.
Qed.

(** X6.  Identifiers stay pairwise distinct from tick to tick: every egg
    takes a fresh one, and the counter of issued identifiers never moves
    back. *)
Theorem update_keeps_ids_unique (s s' : Simulation) :
  uniqueIds s -> update s = Ok s' ->
  uniqueIds s' /\ uuids s <= uuids s'.
Proof.
  intros H0 Hup. destruct (update_cull _ _ Hup) as (s3 & H3 & ->).
  split; [by apply uniqueIds_cull, (tick_uniqueIds s)|].
  change (uuids (cull s3)) with (uuids s3).
  apply tick_effects in H3. clear Hup H0.
  induction H3 as [s|s1 s2 s3 H12 _ IH]; [done|].
  etransitivity; [|exact IH]. destruct H12; cbn; try lia.
  - by rewrite getCell_uuids.
  - unfold retire. repeat case_match; cbn; lia.
Qed.

End Invariants2.

Section Visits.
Context {W : World}.

(** ** What the ageing pass leaves behind *)

(** Phase 3 visits every ant of the array, the eggs pushed during the
    tick included, and what is true of an ant when its visit ends and is not
    undone by a change of health is true of every ant when the phase ends. *)
Lemma tick_visited (P : Ant.t -> Prop) :
  (forall k a, P (agedAnt k a)) ->
  (forall h b, P b -> P (Ant.set_health h b)) ->
  forall s s3, beforeCull s = Ok s3 -> Forall P (ants s3).
Proof.
  intros Haged Hhealth s s3 H. unfold beforeCull in H.
  destruct (phase2 (phase1 s)) as [[s2 m2]| |]; try discriminate.
  simpl in H. unfold phase3 in H.
  eapply (forOf_inv _ _ (fun i st =>
            forall j b, j < i -> ants st !! j = Some b -> P b)) in H
    as (i' & _ & Hi' & HI).
  - apply Forall_lookup. intros j b Hb. apply (HI j b); [|done].
    apply lookup_lt_Some in Hb. lia.
  - intros i s1 s1' HI Hlt Hs j b' Hj Hb'. inversion Hs; subst.
    destruct (lookup_lt_is_Some_2 _ _ Hlt) as [this Hi].
    destruct (actStep_effect i s1 this Hi) as ((this1 & k & _ & _ & _ & _ & _ & Hself) & Hothers & _).
    destruct (decide (j = i)) as [->|Hne].
    + assert (b' = agedAnt k this1) as -> by congruence. apply Haged.
    + assert (j < length (ants s1)) as Hj1 by lia.
      destruct (lookup_lt_is_Some_2 _ _ Hj1) as [b Hb].
      assert (P b) as HP by (apply (HI j b); [lia|done]).
      destruct (Hothers j b Hne Hb) as [Hsame|[[h Hh] _]].
      * assert (b' = b) as -> by congruence. done.
      * assert (b' = Ant.set_health h b) as -> by congruence. by apply Hhealth.
  - intros j b Hj. lia.
Qed.

Lemma agedAnt_egg_stage k a :
  Ant.stage (agedAnt k a) = Stage.egg ->
  Ant.stageAge (agedAnt k a) < eggToAdultTicks params.
Proof.
  unfold agedAnt, hatch. cbn.
  destruct (decide (Ant.stage a = Stage.egg)) as [He|He]; cbn.
  - destruct (eggToAdultTicks params <=? S (Ant.stageAge a)) eqn:E; cbn.
    + by destruct (lifespanReached _ _).
    + apply Nat.leb_gt in E. rewrite He. cbn. done.
  - destruct (decide (Ant.stage a = Stage.adult)) as [Ha|Ha]; cbn.
    + destruct (lifespanReached _ _); cbn; congruence.
    + congruence.
Qed.

(** X7.  No egg is left waiting past its hatching time: in the population
    after a tick, every egg has [stageAge < eggToAdultTicks]. *)
Theorem update_hatches_due_eggs (s s' : Simulation) :
  update s = Ok s' ->
  Forall (fun a => Ant.stage a = Stage.egg ->
                   Ant.stageAge a < eggToAdultTicks params) (ants s').
Proof.
  intros Hup. destruct (update_cull _ _ Hup) as (s3 & H3 & ->).
  apply Forall_cull. revert H3. apply tick_visited.
  - intros k a. apply agedAnt_egg_stage.
  - intros h b Hb. done.
Qed.

Lemma lifespanReached_overdue r a :
  (r < 1)%Q -> lifespanReached r a = false -> Ant.age a <= antLifespan params.
Proof.
  intros Hr H. unfold lifespanReached in H.
  assert (~ (inject_Z (Z.of_nat (antLifespan params)) + (r - (1 # 2)) * (5 # 100)
             <= inject_Z (Z.of_nat (Ant.age a)))%Q) as Hn.
  { intros Hle. apply Qle_bool_iff in Hle. congruence. }
  destruct (decide (Ant.age a <= antLifespan params)) as [?|Hgt]; [done|].
  exfalso. apply Hn.
  assert (inject_Z (Z.of_nat (antLifespan params)) + 1
          <= inject_Z (Z.of_nat (Ant.age a)))%Q as Hle.
  { rewrite <- (inject_Z_plus _ 1). rewrite <- Zle_Qle. lia. }
  lra.
Qed.

Lemma agedAnt_adult_age k a :
  (Math_random k < 1)%Q ->
  Ant.stage (agedAnt k a) = Stage.adult ->
  Ant.age (agedAnt k a) <= antLifespan params.
Proof.
  intros Hr. unfold agedAnt.
  destruct (decide (Ant.stage (hatch (Ant.tick a)) = Stage.adult)) as [Ha|Ha].
  - destruct (lifespanReached _ _) eqn:E; [cbn; discriminate|].
    intros _. by eapply lifespanReached_overdue.
  - congruence.
Qed.

(** X8.  No adult outlives [antLifespan]: when the draws of [Math.random()]
    are below 1, every adult of the population after a tick has
    [age <= antLifespan]. *)
Theorem update_retires_overdue_adults (s s' : Simulation) :
  (forall n, (Math_random n < 1)%Q) ->
  update s = Ok s' ->
  Forall (fun a => Ant.stage a = Stage.adult ->
                   Ant.age a <= antLifespan params) (ants s').
Proof.
  intros Hr Hup. destruct (update_cull _ _ Hup) as (s3 & H3 & ->).
  apply Forall_cull. revert H3. apply tick_visited.
  - intros k a. by apply agedAnt_adult_age.
  - intros h b Hb. done.
Qed.

(** ** Every ant followed through the tick *)

Lemma processAction_self action i s this :
  ants s !! i = Some this ->
  exists this1, ants (processAction action i s) !! i = Some this1 /\
    (Z.abs (Ant.x this1 - Ant.x this) + Z.abs (Ant.y this1 - Ant.y this) <= 1)%Z.
Proof.
  intros Hi. destruct (isMove action) eqn:Hmove.
  - unfold processAction. rewrite Hi, Hmove.
    call_getCell cell s1 He Hl Ha. case_decide.
    + exists this. rewrite Ha. split; [done|]. lia.
    + eexists. split; [cbn; rewrite Ha; by apply alter_at|].
      destruct action as [[]|]; try discriminate; cbn; lia.
  - destruct (processAction_effect action i s this Hi)
      as ((this1 & H1 & _ & Hpos) & _).
    destruct (Hpos Hmove) as [Hx Hy]. exists this1. split; [done|]. lia.
Qed.

Lemma actStep_self i s this :
  ants s !! i = Some this ->
  exists this1 k,
    sameCore this this1 /\
    (Z.abs (Ant.x this1 - Ant.x this) + Z.abs (Ant.y this1 - Ant.y this) <= 1)%Z /\
    ants (actStep i s) !! i = Some (agedAnt k this1).
Proof.
  intros Hi.
  destruct (act_effect i s this Hi) as ((this1 & H1 & Hcore & _) & _).
  assert (Z.abs (Ant.x this1 - Ant.x this) + Z.abs (Ant.y this1 - Ant.y this) <= 1)%Z
    as Hpos.
  { unfold act in H1. rewrite Hi in H1. case_decide.
    - assert (this1 = this) as -> by congruence. lia.
    - destruct (processAction_self (Ant.nextAction this) i s this Hi)
        as (this2 & H2 & Hd).
      assert (this2 = this1) as -> by congruence. done. }
  exists this1, (draws (act i s)). split; [done|]. split; [done|].
  unfold actStep. rewrite (ageing_ants i (act i s) this1 H1).
  apply list_lookup_insert_eq. by eapply lookup_lt_Some.
Qed.

Lemma agedAnt_rank k a :
  stageRank (Ant.stage a) <= stageRank (Ant.stage (agedAnt k a)).
Proof.
  unfold agedAnt, hatch. destruct a as [? ? ? ? st ? ? ? ?]. cbn.
  destruct st; cbn; repeat case_match; cbn; try lia; try done.
Qed.

Lemma tickedSoFar_health v a b h :
  tickedSoFar v a b -> tickedSoFar v a (Ant.set_health h b).
Proof. destruct b. done. Qed.

Lemma tick_ticked s s3 :
  beforeCull s = Ok s3 ->
  forall j a, ants s !! j = Some a ->
    exists b, ants s3 !! j = Some b /\ tickedFrom a b.
Proof.
  intros H j a Ha. unfold beforeCull in H.
  destruct (phase2 (phase1 s)) as [[s2 m2]| |] eqn:E2; try discriminate.
  simpl in H. destruct (phase2_keeps _ _ _ E2) as [_ Hkeep].
  destruct (phase1_lookup s j a Ha) as [action H1]. apply Hkeep in H1.
  unfold phase3 in H.
  eapply (forOf_inv _ _ (fun i st =>
            exists b, ants st !! j = Some b /\
              tickedSoFar (bool_decide (j < i)) a b)) in H
    as (i' & _ & Hi' & b & Hb & HT).
  - exists b. split; [done|].
    rewrite bool_decide_eq_true_2 in HT by (apply lookup_lt_Some in Hb; lia).
    destruct HT as (? & ? & ? & ? & ? & ?). by repeat split.
  - intros i s1 s1' (b & Hb & HT) Hlt Hs. inversion Hs; subst.
    destruct (lookup_lt_is_Some_2 _ _ Hlt) as [this Hi].
    destruct (decide (j = i)) as [->|Hne].
    + assert (this = b) as -> by congruence.
      rewrite bool_decide_eq_false_2 in HT by lia.
      destruct HT as (Hid & Hnn & Hage & Hsage & Hx & Hy & Hst).
      destruct (actStep_self i s1 b Hi) as (this1 & k & Hcore & Hpos & Hself).
      exists (agedAnt k this1). split; [done|].
      rewrite bool_decide_eq_true_2 by lia.
      destruct (agedAnt_core k this1) as (Ex & Ey & _ & Eid & Enn & Eage & Esage).
      destruct Hcore as (Cage & Cst & Csage & Cid & Cnn & _).
      pose proof (agedAnt_rank k this1) as Hrank.
      unfold tickedSoFar. rewrite Ex, Ey, Eid, Enn, Eage, Esage.
      repeat split; try congruence; try lia.
    + destruct (actStep_effect i s1 this Hi) as (_ & Hothers & _).
      assert (bool_decide (j < S i) = bool_decide (j < i)) as ->.
      { apply bool_decide_ext. lia. }
      destruct (Hothers j b Hne Hb) as [Hsame|[[h Hh] _]]; [by eauto|].
      exists (Ant.set_health h b). split; [done|]. by apply tickedSoFar_health.
  - exists (Ant.set_nextAction action a). split; [done|].
    rewrite bool_decide_eq_false_2 by lia. by destruct a.
Qed.

(** X9.  Where the population after a tick comes from: each of its ants was in
    the population before the tick, with the same identifier and the same
    genome, and is now exactly one tick older, at most one cell away and in
    no earlier stage; or it is an egg laid during the tick, visited once by
    the ageing pass. *)
Theorem update_tracks_population (s s' : Simulation) :
  update s = Ok s' ->
  forall b, b ∈ ants s' ->
    (exists a, a ∈ ants s /\ tickedFrom a b) \/
    (Ant.age b = 1 /\ Ant.stageAge b = 1 /\ Ant.nextAction b = None).
Proof.
  intros Hup b Hb. destruct (update_cull _ _ Hup) as (s3 & H3 & ->).
  unfold cull in Hb. cbn in Hb.
  apply list_elem_of_In, filter_In in Hb as [Hb _].
  apply filter_In in Hb as [Hb _].
  apply list_elem_of_In, list_elem_of_lookup in Hb as [e He].
  destruct (decide (e < length (ants s))) as [Hold|Hnew].
  - destruct (lookup_lt_is_Some_2 _ _ Hold) as [a Ha].
    destruct (tick_ticked _ _ H3 e a Ha) as (b' & Hb' & HT).
    assert (b' = b) as -> by congruence.
    left. exists a. split; [by eapply list_elem_of_lookup_2|done].
  - right. destruct (tick_newborn _ _ H3) as (i' & Hi' & [_ HN]).
    destruct (HN e b ltac:(lia) He) as [(x & y & nn & u & Hform) _].
    rewrite decide_True in Hform by (apply lookup_lt_Some in He; lia).
    destruct Hform as [k ->].
    destruct (agedAnt_core k (newEgg x y nn u)) as (_ & _ & -> & _ & _ & -> & ->).
    done.
Qed.

End Visits.

Section Actions.
Context {W : World}.

(** ** The grid as a memo of the terrain *)

Lemma getCell_draws_le x y s : draws (getCell x y s).2 <= S (draws s).
Proof. unfold getCell. destruct (grid s !! (x, y)); simpl; lia. Qed.

(** X10.  [getCell] classifies a cell once and for all: the call leaves the cell
    in the grid with the type it returns, touches no other cell and no ant,
    and every later call returns the same type without drawing again; a call
    on a classified cell changes nothing, a call on a cell never seen makes
    exactly one draw. *)
Theorem getCell_memo (x y : Z) (s : Simulation) :
  let r := getCell x y s in
  grid r.2 !! (x, y) = Some r.1 /\
  getCell x y r.2 = r /\
  (forall k, k <> (x, y) -> grid r.2 !! k = grid s !! k) /\
  ants r.2 = ants s /\ uuids r.2 = uuids s /\
  (forall c, grid s !! (x, y) = Some c -> r = (c, s)) /\
  (grid s !! (x, y) = None -> draws r.2 = S (draws s)).
Proof.
  cbn zeta. split; [apply getCell_lookup|]. split.
  { rewrite (getCell_known x y _ _ (getCell_lookup x y s)).
    by destruct (getCell x y s). }
  split.
  { intros k Hk. unfold getCell. destruct (grid s !! (x, y)); simpl; [done|].
    by rewrite lookup_insert_ne. }
  split; [apply getCell_ants|]. split; [apply getCell_uuids|]. split.
  - intros c Hc. by apply getCell_known.
  - intros Hn. unfold getCell. by rewrite Hn.
Qed.

(** X11.  The type of a cell never seen follows the draw [r] made for it: food
    below [foodDensity], terrain from there up to [foodDensity +
    terrainDensity], empty from there on.  So no terrain is generated when
    [terrainDensity <= 0], no food when [foodDensity <= 0] and the draw is
    not negative, and no empty cell when the densities add up to 1 or more
    and the draw is below 1. *)
Theorem getCell_fresh (x y : Z) (s : Simulation) :
  grid s !! (x, y) = None ->
  let r := Math_random (draws s) in
  let cell := (getCell x y s).1 in
  (cell = Cell.food <-> (r < foodDensity params)%Q) /\
  (cell = Cell.terrain <->
     (foodDensity params <= r)%Q /\
     (r < foodDensity params + terrainDensity params)%Q) /\
  (cell = Cell.empty <->
     (foodDensity params <= r)%Q /\
     (foodDensity params + terrainDensity params <= r)%Q) /\
  ((terrainDensity params <= 0)%Q -> cell <> Cell.terrain) /\
  ((0 <= r)%Q -> (foodDensity params <= 0)%Q -> cell <> Cell.food) /\
  ((r < 1)%Q -> (1 <= foodDensity params + terrainDensity params)%Q ->
     cell <> Cell.empty).
Proof.
  intros Hn. cbn zeta. unfold getCell. rewrite Hn. cbn [fst].
  unfold Qltb.
  destruct (Qle_bool (foodDensity params) (Math_random (draws s))) eqn:E1;
  destruct (Qle_bool (foodDensity params + terrainDensity params)
              (Math_random (draws s))) eqn:E2; cbn [negb];
  try (apply Qle_bool_iff in E1); try (apply Qle_bool_iff in E2);
  try (assert (~ (foodDensity params <= Math_random (draws s))%Q) as N1
         by (intros H; apply Qle_bool_iff in H; congruence));
  try (assert (~ (foodDensity params + terrainDensity params
                  <= Math_random (draws s))%Q) as N2
         by (intros H; apply Qle_bool_iff in H; congruence));
  repeat split; try done; try (intros; lra); try (intros []; lra).
Qed.

(** ** Looking an ant up by its cell *)

Lemma getAntAt_None x y s :
  getAntAt x y s = None <->
  forall a, a ∈ ants s -> ~ (Ant.x a = x /\ Ant.y a = y).
Proof.
  unfold getAntAt. split.
  - intros H a Ha Hpos.
    destruct (list_find_elem_of (fun ant => Ant.x ant = x /\ Ant.y ant = y)
                (ants s) a Ha Hpos) as [[j b] E].
    by rewrite E in H.
  - intros H. destruct (list_find _ (ants s)) as [[j a]|] eqn:E; [|done].
    apply list_find_Some in E as (Ha & Hpos & _).
    destruct (H a); [by eapply list_elem_of_lookup_2|done].
Qed.

(** X12.  [getAntAt] returns the first ant of the array that stands on the cell,
    and [undefined] exactly when no ant stands on it: of several ants on one
    cell, only the earliest in the array can be found. *)
Theorem getAntAt_first (x y : Z) (s : Simulation) :
  match getAntAt x y s with
  | Some j =>
      exists a, ants s !! j = Some a /\ Ant.x a = x /\ Ant.y a = y /\
        forall k b, k < j -> ants s !! k = Some b ->
          ~ (Ant.x b = x /\ Ant.y b = y)
  | None => forall a, a ∈ ants s -> ~ (Ant.x a = x /\ Ant.y a = y)
  end.
Proof.
  destruct (getAntAt x y s) as [j|] eqn:E.
  - apply getAntAt_Some in E as (a & Ha & [Hx Hy] & Hfirst).
    exists a. repeat split; try done. intros k b Hk Hb. by eapply Hfirst.
  - by apply getAntAt_None.
Qed.

(** ** Movement *)

(** X13.  A movement action looks the cell of destination up, which classifies
    it; terrain blocks the move and anything else lets it through, whether or
    not another ant stands there.  No other ant is touched, and at most one
    draw is made. *)
Theorem processAction_move (action : Action.t) (i : nat) (s : Simulation)
    (this : Ant.t) :
  ants s !! i = Some this ->
  isMove (Some action) = true ->
  let '(x', y') := destination action this in
  let cell := (getCell x' y' s).1 in
  let s1 := processAction (Some action) i s in
  (Z.abs (x' - Ant.x this) + Z.abs (y' - Ant.y this) = 1)%Z /\
  grid s1 = grid (getCell x' y' s).2 /\
  grid s1 !! (x', y') = Some cell /\
  ants s1 !! i =
    Some (if decide (cell = Cell.terrain) then this else Ant.set_pos x' y' this) /\
  (forall j, j <> i -> ants s1 !! j = ants s !! j) /\
  uuids s1 = uuids s /\ draws s <= draws s1 <= S (draws s).
Proof.
  intros Hi Hmove.
  assert (exists x' y', destination action this = (x', y') /\
            (Z.abs (x' - Ant.x this) + Z.abs (y' - Ant.y this) = 1)%Z /\
            processAction (Some action) i s =
              if decide ((getCell x' y' s).1 = Cell.terrain)
              then (getCell x' y' s).2
              else updAnt i (Ant.set_pos x' y') (getCell x' y' s).2)
    as (x' & y' & -> & Hd & ->).
  { unfold processAction. rewrite Hi, Hmove.
    destruct action; try discriminate; cbn [destination];
      eexists _, _; (split; [reflexivity|]); (split; [lia|]);
      by destruct (getCell _ _ s). }
  cbn zeta.
  pose proof (getCell_lookup x' y' s) as Hl.
  pose proof (getCell_ants x' y' s) as Ha.
  pose proof (getCell_uuids x' y' s) as Hu.
  pose proof (getCell_draws x' y' s) as Hd1.
  pose proof (getCell_draws_le x' y' s) as Hd2.
  destruct (getCell x' y' s) as [cell s0]. simpl in *.
  split; [done|]. case_decide; cbn.
  - repeat split; try done; try lia; congruence.
  - repeat split; try done; try lia.
    + rewrite Ha. by apply alter_at.
    + intros j Hj. rewrite Ha. by rewrite list_lookup_alter_ne.
Qed.

(** ** Attack *)

Lemma orElse_None {A} (a b : option A) : orElse a b = None <-> a = None /\ b = None.
Proof. destruct a; simpl; split; try done; by intros []. Qed.

(** X14.  An attack changes healths and nothing else.  With no ant on any of the
    four cells that share a side with the attacker's, it changes nothing at
    all.  Otherwise it hits exactly one ant, on such a cell (so never the
    attacker, nor an ant sharing its cell), the first of the array on it: an
    egg loses 50 and feeds the attacker 20, up to [maxAntHealth]; any other
    ant loses 10 and the attacker gains nothing. *)
Theorem processAction_attack (i : nat) (s : Simulation) (this : Ant.t) :
  ants s !! i = Some this ->
  let s1 := processAction (Some Action.attack) i s in
  grid s1 = grid s /\ draws s1 = draws s /\ uuids s1 = uuids s /\
  length (ants s1) = length (ants s) /\
  ((forall b, b ∈ ants s -> ~ adjacent this b) -> s1 = s) /\
  ((exists b, b ∈ ants s /\ adjacent this b) ->
   exists j tgt,
     j <> i /\ ants s !! j = Some tgt /\ adjacent this tgt /\
     firstAt j (ants s) /\
     (forall k, k <> i -> k <> j -> ants s1 !! k = ants s !! k) /\
     if decide (Ant.stage tgt = Stage.egg) then
       ants s1 !! j = Some (Ant.set_health (Ant.health tgt - 50) tgt) /\
       ants s1 !! i =
         Some (Ant.set_health
                 (Math_min (maxAntHealth params) (Ant.health this + 20)) this)
     else
       ants s1 !! j = Some (Ant.set_health (Ant.health tgt - 10) tgt) /\
       ants s1 !! i = Some this).
Proof.
  intros Hi. cbn zeta. unfold processAction. rewrite Hi. cbn [isMove].
  set (target := orElse (getAntAt (Ant.x this) (Ant.y this - 1) s)
                   (orElse (getAntAt (Ant.x this) (Ant.y this + 1) s)
                      (orElse (getAntAt (Ant.x this - 1) (Ant.y this) s)
                         (getAntAt (Ant.x this + 1) (Ant.y this) s)))).
  destruct target as [j|] eqn:Ht; subst target.
  - assert (exists tgt, ants s !! j = Some tgt /\ adjacent this tgt /\
              firstAt j (ants s) /\ j <> i) as (tgt & Hj & Hadj & Hfirst & Hne).
    { repeat (apply orElse_Some in Ht as [Ht|Ht]);
        pose proof (getAntAt_firstAt _ _ _ _ Ht) as Hf;
        pose proof Ht as Ht';
        apply getAntAt_Some in Ht' as (tgt & Hj & [Hx Hy] & _);
        exists tgt; (split; [done|]); unfold adjacent;
        (split; [lia|]); (split; [done|]); intros ->;
        assert (tgt = this) as -> by congruence; lia. }
    rewrite Hj.
    assert (forall f g,
              length (ants (updAnt i f (updAnt j g s))) = length (ants s)) as Hlen.
    { intros f g. cbn. by rewrite !length_alter. }
    case_decide.
    + split; [done|]. split; [done|]. split; [done|]. split; [apply Hlen|].
      split.
      { intros Hnone. destruct (Hnone tgt); [by eapply list_elem_of_lookup_2|done]. }
      intros _. exists j, tgt. repeat (split; [done|]). split.
      { intros k Hk1 Hk2. cbn. by rewrite !list_lookup_alter_ne by lia. }
      rewrite decide_True by done. cbn. split.
      * rewrite list_lookup_alter_ne by lia. by rewrite list_lookup_alter_eq, Hj.
      * rewrite list_lookup_alter_eq, list_lookup_alter_ne by lia. by rewrite Hi.
    + split; [done|]. split; [done|]. split; [done|].
      split; [cbn; by rewrite length_alter|]. split.
      { intros Hnone. destruct (Hnone tgt); [by eapply list_elem_of_lookup_2|done]. }
      intros _. exists j, tgt. repeat (split; [done|]). split.
      { intros k Hk1 Hk2. cbn. by rewrite list_lookup_alter_ne by lia. }
      rewrite decide_False by done. cbn. split.
      * by rewrite list_lookup_alter_eq, Hj.
      * rewrite list_lookup_alter_ne by lia. done.
  - do 5 (split; [done|]).
    intros (b & Hb & Hadj). exfalso.
    apply orElse_None in Ht as [H1 Ht]. apply orElse_None in Ht as [H2 Ht].
    apply orElse_None in Ht as [H3 H4].
    rewrite getAntAt_None in H1, H2, H3, H4.
    unfold adjacent in Hadj.
    assert ((Ant.x b = Ant.x this /\ Ant.y b = Ant.y this - 1) \/
            (Ant.x b = Ant.x this /\ Ant.y b = Ant.y this + 1) \/
            (Ant.x b = Ant.x this - 1 /\ Ant.y b = Ant.y this) \/
            (Ant.x b = Ant.x this + 1 /\ Ant.y b = Ant.y this))%Z
      as [Hc|[Hc|[Hc|Hc]]] by lia;
      [exact (H1 b Hb Hc)|exact (H2 b Hb Hc)|exact (H3 b Hb Hc)|exact (H4 b Hb Hc)].
Qed.

(** ** Sleep *)

(** X15.  Sleeping changes the health of the sleeper and nothing else: it adds 5,
    up to 100.  The cap is applied to the result, so a sleeper whose health
    is above 100 (as an attack on an egg can leave it when [maxAntHealth] is
    above 100) wakes up with 100. *)
Theorem processAction_sleep (i : nat) (s : Simulation) (this : Ant.t) :
  ants s !! i = Some this ->
  let s1 := processAction (Some Action.sleep) i s in
  ants s1 !! i =
    Some (Ant.set_health (Math_min 100 (Ant.health this + 5)) this) /\
  (forall j, j <> i -> ants s1 !! j = ants s !! j) /\
  grid s1 = grid s /\ draws s1 = draws s /\ uuids s1 = uuids s /\
  ((Ant.health this <= 95)%Q ->
   (Math_min 100 (Ant.health this + 5) == Ant.health this + 5)%Q) /\
  ((95 <= Ant.health this)%Q ->
   (Math_min 100 (Ant.health this + 5) == 100)%Q).
Proof.
  intros Hi. cbn zeta. unfold processAction. rewrite Hi. cbn [isMove].
  split; [cbn; by rewrite list_lookup_alter_eq, Hi|].
  split; [intros j Hj; cbn; by rewrite list_lookup_alter_ne|].
  do 3 (split; [done|]).
  unfold Math_min.
  destruct (Qle_bool 100 (Ant.health this + 5)) eqn:E.
  - apply Qle_bool_iff in E. split; intros; lra.
  - assert (~ (100 <= Ant.health this + 5)%Q) as Hn.
    { intros H. apply Qle_bool_iff in H. congruence. }
    split; intros; lra.
Qed.

End Actions.

Section Decisions.
Context {W : World}.

(** ** Deciding *)

Lemma visionLoop_draws_le this offsets : forall s,
  draws (visionLoop this offsets s).2 <= draws s + length offsets.
Proof.
  induction offsets as [|[dx dy] rest IH]; intros s; simpl; [lia|].
  pose proof (getCell_draws_le (Ant.x this + dx) (Ant.y this + dy) s) as Hd.
  destruct (getCell _ _ s) as [cell s1]. simpl in Hd.
  specialize (IH s1). destruct (visionLoop this rest s1). simpl in *. lia.
Qed.

Lemma visionLoop_known this offsets : forall s,
  (forall dx dy, (dx, dy) ∈ offsets ->
     is_Some (grid s !! (Ant.x this + dx, Ant.y this + dy)%Z)) ->
  (visionLoop this offsets s).2 = s.
Proof.
  induction offsets as [|[dx dy] rest IH]; intros s Hk; simpl; [done|].
  destruct (Hk dx dy) as [c Hc]; [apply list_elem_of_here|].
  rewrite (getCell_known _ _ _ _ Hc).
  specialize (IH s). destruct (visionLoop this rest s) as [values s2].
  simpl in *. apply IH. intros dx' dy' Hin. apply Hk. by apply list_elem_of_further.
Qed.

Lemma index_in_range {A} (l : list A) (k : Z) :
  (0 <= k < Z.of_nat (length l))%Z -> exists a, index l k = Some a /\ a ∈ l.
Proof.
  intros Hk. unfold index.
  assert ((k <? 0)%Z = false) as -> by (apply Z.ltb_ge; lia).
  destruct (lookup_lt_is_Some_2 l (Z.to_nat k)) as [a Ha]; [lia|].
  exists a. split; [done|]. by eapply list_elem_of_lookup_2.
Qed.

(** X16.  An egg proposes ["none"] and [decideAction] touches nothing for it.  Any
    other ant looks at its neighbourhood and samples once: between 1 and 10
    draws are made (exactly one, and no cell is added, when the nine cells
    are classified already).  When the network returns at least one
    probability, the proposal is an action of the set of the ant's stage, an
    old ant being left with attack, eat and sleep; when it returns none, the
    proposal is [undefined]. *)
Theorem decideAction_proposes (this : Ant.t) (s : Simulation) :
  let r := decideAction this s in
  ants r.2 = ants s /\ uuids r.2 = uuids s /\
  (Ant.stage this = Stage.egg -> r = (Some Action.none, s)) /\
  (Ant.stage this <> Stage.egg ->
   let probabilities :=
     softmax_predict (Ant.neuralNetwork this) (processVision this s).1 in
   draws s < draws r.2 <= draws s + 10 /\
   ((forall dx dy, (-1 <= dx <= 1)%Z -> (-1 <= dy <= 1)%Z ->
       is_Some (grid s !! (Ant.x this + dx, Ant.y this + dy)%Z)) ->
    grid r.2 = grid s /\ draws r.2 = S (draws s)) /\
   (probabilities <> [] ->
    exists action, r.1 = Some action /\
      action ∈ (if decide (Ant.stage this = Stage.adult) then adultActions
                else otherActions)) /\
   (probabilities = [] -> r.1 = None)).
Proof.
  cbn zeta. destruct (decideAction_frame this s) as [Ha Hu].
  split; [done|]. split; [done|]. split.
  { intros Hegg. unfold decideAction. by rewrite decide_True. }
  intros Hegg. unfold decideAction. rewrite decide_False by done.
  unfold processVision.
  pose proof (visionLoop_draws this visionOffsets s) as Hd1.
  pose proof (visionLoop_draws_le this visionOffsets s) as Hd2.
  pose proof (visionLoop_known this visionOffsets s) as Hknown.
  destruct (visionLoop this visionOffsets s) as [inputVector s1].
  cbn [fst snd draws set_draws grid] in *.
  change (length visionOffsets) with 9 in Hd2.
  split; [lia|]. split.
  { intros Hk. rewrite Hknown; [done|]. intros dx dy Hin. apply Hk.
    - unfold visionOffsets in Hin. cbn in Hin.
      repeat (apply elem_of_cons in Hin as [Hin|Hin]; [inversion Hin; lia|]).
      by apply elem_of_nil in Hin.
    - unfold visionOffsets in Hin. cbn in Hin.
      repeat (apply elem_of_cons in Hin as [Hin|Hin]; [inversion Hin; lia|]).
      by apply elem_of_nil in Hin. }
  split.
  - intros Hne.
    pose proof (sampleIndex_range (Math_random (draws s1)) _ Hne) as Hr.
    apply index_in_range.
    case_decide; cbn [length adultActions otherActions].
    + apply Z.rem_bound_pos; lia.
    + apply Z.rem_bound_pos; lia.
  - intros ->. unfold sampleIndex. cbn.
    case_decide; reflexivity.
Qed.

(** ** When the crossover throws *)

Lemma noiseLayers_throws layers : forall k,
  noiseLayers layers k = TypeError <-> exists i, layers !! i = Some None.
Proof.
  induction layers as [|[lay|] l IH]; intros k; simpl.
  - split; [done|]. intros [i Hi]. done.
  - destruct (noiseLayer lay k) as [lay' k1]. specialize (IH k1).
    destruct (noiseLayers l k1) as [[rest k2]| |] eqn:E; simpl.
    + split; [done|]. intros [[|i] Hi]; [done|].
      simpl in Hi. assert (exists i, l !! i = Some None) as H by eauto.
      apply IH in H. done.
    + split; [|done]. intros _. destruct (proj1 IH eq_refl) as [i Hi].
      by exists (S i).
    + by apply noiseLayers_never_out_of_fuel in E.
  - split; [|done]. intros _. by exists 0.
Qed.

(** X17.  The crossover throws exactly when a layer it selects is missing: some
    layer index below the initiating parent's number of weight layers has no
    weight layer or no bias layer in the parent it is taken from (the
    initiating one at even indices, the partner at odd ones).  Layers of
    different lengths do not make it throw. *)
Theorem crossover_throws_iff (ant partner : NeuralNetwork) (k : nat) :
  crossover ant partner k = TypeError <->
  exists i, i < length (weights ant) /\
    ((if Nat.even i then weights ant else weights partner) !! i = None \/
     (if Nat.even i then biases ant else biases partner) !! i = None).
Proof.
  unfold crossover.
  assert (forall mine theirs,
            (exists i, pickLayers mine theirs (length (weights ant)) !! i = Some None) <->
            exists i, i < length (weights ant) /\
              (if Nat.even i then mine else theirs) !! i = None) as Hpick.
  { intros mine theirs. split.
    - intros [i Hi]. assert (i < length (weights ant)) as Hlt.
      { apply lookup_lt_Some in Hi. by rewrite pickLayers_length in Hi. }
      exists i. split; [done|]. rewrite pickLayers_lookup in Hi by done.
      inversion Hi as [Hi']. by destruct (Nat.even i).
    - intros (i & Hlt & Hi). exists i. rewrite pickLayers_lookup by done.
      f_equal. by destruct (Nat.even i). }
  destruct (noiseLayers (pickLayers (weights ant) (weights partner) _) k)
    as [[ws k1]| |] eqn:E1; simpl.
  - destruct (noiseLayers (pickLayers (biases ant) (biases partner) _) k1)
      as [[bs k2]| |] eqn:E2; simpl.
    + split; [done|]. intros (i & Hlt & [Hi|Hi]).
      * assert (noiseLayers (pickLayers (weights ant) (weights partner)
                  (length (weights ant))) k = TypeError) as H.
        { apply noiseLayers_throws, Hpick. eauto. }
        congruence.
      * assert (noiseLayers (pickLayers (biases ant) (biases partner)
                  (length (weights ant))) k1 = TypeError) as H.
        { apply noiseLayers_throws, Hpick. eauto. }
        congruence.
    + split; [|done]. intros _.
      apply noiseLayers_throws, Hpick in E2 as (i & Hlt & Hi). eauto.
    + by apply noiseLayers_never_out_of_fuel in E2.
  - split; [|done]. intros _.
    apply noiseLayers_throws, Hpick in E1 as (i & Hlt & Hi). eauto.
  - by apply noiseLayers_never_out_of_fuel in E1.
Qed.

(** ** Pairs *)

Lemma findPartner_Some neighbors m s j :
  findPartner neighbors m s = Some j ->
  wantsMate m s j = true /\
  exists nx ny, (nx, ny) ∈ neighbors /\ getAntAt nx ny s = Some j.
Proof.
  induction neighbors as [|[nx ny] rest IH]; simpl; [done|].
  destruct (getAntAt nx ny s) as [other|] eqn:E.
  - destruct (wantsMate m s other) eqn:Hw.
    + intros H. inversion H; subst. split; [done|].
      exists nx, ny. split; [apply list_elem_of_here|done].
    + intros H. destruct (IH H) as (? & nx' & ny' & ? & ?).
      split; [done|]. exists nx', ny'. split; [by apply list_elem_of_further|done].
  - intros H. destruct (IH H) as (? & nx' & ny' & ? & ?).
    split; [done|]. exists nx', ny'. split; [by apply list_elem_of_further|done].
Qed.

Lemma wantsMate_true m s j :
  wantsMate m s j = true ->
  exists a, ants s !! j = Some a /\ Ant.nextAction a = Some Action.mate /\
    Ant.stage a = Stage.adult /\ j ∉ m.
Proof.
  unfold wantsMate. destruct (ants s !! j) as [a|]; [|done].
  intros H. apply bool_decide_eq_true in H. eauto.
Qed.

(** X18.  Phase 2 pairs every ant at most once: the set of paired ants holds two
    ants for each egg laid, all of them adults of the population the phase
    began with that proposed [mate]; so at most one egg is laid for every two
    ants of that population. *)
Theorem phase2_pairs (s s2 : Simulation) (matedAnts : gset nat) :
  phase2 s = Ok (s2, matedAnts) ->
  length (ants s) <= length (ants s2) /\
  size matedAnts = 2 * (length (ants s2) - length (ants s)) /\
  2 * (length (ants s2) - length (ants s)) <= length (ants s) /\
  forall j, j ∈ matedAnts ->
    exists a, ants s !! j = Some a /\
      Ant.nextAction a = Some Action.mate /\ Ant.stage a = Stage.adult.
Proof.
  intros H. unfold phase2 in H.
  eapply (forOf_inv _ _ (fun _ (st : Simulation * gset nat) =>
            Newborn (length (ants s)) 0 st.1 /\
            (forall j a, ants s !! j = Some a -> ants st.1 !! j = Some a) /\
            size st.2 + 2 * length (ants s) = 2 * length (ants st.1) /\
            forall j, j ∈ st.2 ->
              exists a, ants s !! j = Some a /\
                Ant.nextAction a = Some Action.mate /\
                Ant.stage a = Stage.adult)) in H
    as (_ & _ & _ & [Hlen _] & _ & Hsize & Hin).
  - simpl in *. split; [done|]. split; [lia|]. split; [|done].
    assert (size matedAnts <= length (ants s)); [|lia].
    rewrite <- (size_set_seq (C := gset nat) 0 (length (ants s))).
    apply subseteq_size. intros j Hj. apply elem_of_set_seq.
    destruct (Hin j Hj) as (a & Ha & _). apply lookup_lt_Some in Ha. lia.
  - intros i [s1 m1] [s1' m1'] (HN & Hkeep & Hsize & Hin) _ Hstep.
    simpl in HN, Hkeep, Hsize, Hin |- *.
    pose proof (newborn_mateStep _ _ _ _ _ _ HN Hstep) as HN'.
    destruct (mateStep_effect _ _ _ _ _ Hstep)
      as [[-> ->]|(this & j & partner & child & k & Hi & Hact & Hst & Hnotin & Hf & Hj & _ & _ & -> & ->)];
      [done|].
    split; [done|].
    apply findPartner_Some in Hf as (Hw & nx & ny & Hnb & Hat).
    apply wantsMate_true in Hw as (partner' & Hj' & Hactj & Hstj & Hjnot).
    assert (partner' = partner) as -> by congruence.
    assert (i < length (ants s)) as Hi0.
    { destruct (decide (i < length (ants s))); [done|].
      rewrite (newborn_unset _ _ _ i this HN) in Hact; [done|lia|done]. }
    assert (j < length (ants s)) as Hj0.
    { destruct (decide (j < length (ants s))); [done|].
      rewrite (newborn_unset _ _ _ j partner HN) in Hactj; [done|lia|done]. }
    assert (i <> j) as Hij.
    { intros ->. assert (partner = this) as -> by congruence.
      destruct (getAntAt_pos _ _ _ _ _ Hat Hi) as [Hx Hy].
      unfold neighborsOf in Hnb.
      repeat (apply elem_of_cons in Hnb as [Hnb|Hnb]; [inversion Hnb; lia|]).
      by apply elem_of_nil in Hnb. }
    destruct (lookup_lt_is_Some_2 _ _ Hi0) as [a Ha].
    destruct (lookup_lt_is_Some_2 _ _ Hj0) as [b Hb].
    pose proof (Hkeep i a Ha) as Ha'. pose proof (Hkeep j b Hb) as Hb'.
    assert (a = this) as -> by congruence.
    assert (b = partner) as -> by congruence.
    split; [|split].
    + intros j' c Hc. cbn. rewrite lookup_app_l by (by eapply lookup_lt_Some, Hkeep).
      by apply Hkeep.
    + cbn. rewrite length_app. simpl.
      assert (m1 ## ({[i]} : gset nat)) as D1 by (by apply disjoint_singleton_r).
      assert (m1 ∪ {[i]} ## ({[j]} : gset nat)) as D2.
      { apply disjoint_singleton_r. intros Hu.
        apply elem_of_union in Hu as [Hu|Hu]; [done|].
        apply elem_of_singleton in Hu. congruence. }
      rewrite (size_union _ _ D2), (size_union _ _ D1), !size_singleton. lia.
    + intros j' Hj'm. apply elem_of_union in Hj'm as [Hj'm|Hj'm].
      * apply elem_of_union in Hj'm as [Hj'm|Hj'm]; [by apply Hin|].
        apply elem_of_singleton in Hj'm as ->. eauto.
      * apply elem_of_singleton in Hj'm as ->. eauto.
  - cbn [fst snd]. split; [apply newborn_start|]. split; [done|].
    split; [rewrite size_empty; lia|]. intros j Hj. by apply elem_of_empty in Hj.
Qed.

End Decisions.

Section Founding.
Context {W : World}.

(** ** Random genomes *)

Lemma draw_at (a b : nat) :
  a = b -> Some (Math_random a * 2 - 1)%Q = Some (Math_random b * 2 - 1)%Q.
Proof. by intros ->. Qed.

Lemma randomRow_spec n : forall k,
  (randomRow n k).2 = k + n /\
  length (randomRow n k).1 = n /\
  forall j, j < n ->
    (randomRow n k).1 !! j = Some (Math_random (k + j) * 2 - 1)%Q.
Proof.
  induction n as [|n IH]; intros k; simpl.
  - split; [lia|]. split; [done|]. intros j Hj. lia.
  - destruct (IH (S k)) as (H1 & H2 & H3).
    destruct (randomRow n (S k)) as [rest k']. simpl in *.
    split; [lia|]. split; [by rewrite H2|].
    intros [|j] Hj; simpl.
    + apply draw_at. lia.
    + rewrite H3 by lia. apply draw_at. lia.
Qed.

Lemma randomRows_spec count n : forall k,
  (randomRows count n k).2 = k + count * n /\
  shape (randomRows count n k).1 = repeat n count /\
  forall l j, l < count -> j < n ->
    exists row, (randomRows count n k).1 !! l = Some row /\
      row !! j = Some (Math_random (k + l * n + j) * 2 - 1)%Q.
Proof.
  induction count as [|count IH]; intros k; simpl.
  - split; [lia|]. split; [done|]. intros l j Hl. lia.
  - destruct (randomRow_spec n k) as (R1 & R2 & R3).
    destruct (randomRow n k) as [row k1]. simpl in *.
    destruct (IH k1) as (H1 & H2 & H3).
    destruct (randomRows count n k1) as [rest k2]. simpl in *.
    split; [lia|]. split; [by rewrite R2, H2|].
    intros [|l] j Hl Hj; simpl.
    + exists row. split; [done|]. rewrite R3 by done. apply draw_at. lia.
    + destruct (H3 l j ltac:(lia) Hj) as (row' & Hr & Hv).
      exists row'. split; [done|]. rewrite Hv. apply draw_at. lia.
Qed.

(** X19.  [randomWeights] builds three rows of ten numbers, the value at place [j]
    of row [l] being made from the draw number [10 l + j] of the thirty
    draws it makes, as [2 r - 1]: a number of [[-1, 1)] for a draw of
    [[0, 1)].  [randomBiases] is the same function. *)
Theorem randomWeights_spec (k : nat) :
  let r := randomWeights k in
  shape r.1 = [10; 10; 10] /\ r.2 = k + 30 /\
  (forall l j, l < 3 -> j < 10 ->
     exists row, r.1 !! l = Some row /\
       row !! j = Some (Math_random (k + l * 10 + j) * 2 - 1)%Q) /\
  (randomInRange ->
   Forall (Forall (fun v => (-1 <= v)%Q /\ (v < 1)%Q)) r.1) /\
  randomBiases k = randomWeights k.
Proof.
  cbn zeta. unfold randomWeights, randomBiases.
  destruct (randomRows_spec 3 10 k) as (H1 & H2 & H3).
  split; [done|]. split; [lia|]. split; [done|]. split; [|done].
  intros Hr. apply Forall_lookup. intros l row Hrow.
  apply Forall_lookup. intros j v Hv.
  assert (l < 3) as Hl.
  { apply lookup_lt_Some in Hrow.
    rewrite <- (shape_layers (randomRows 3 10 k).1), H2 in Hrow. done. }
  assert (j < 10) as Hj.
  { apply lookup_lt_Some in Hv.
    assert (shape (randomRows 3 10 k).1 !! l = Some (length row)) as Hs.
    { unfold shape. by rewrite list_lookup_fmap, Hrow. }
    rewrite H2 in Hs. destruct l as [|[|[|l]]]; inversion Hs; lia. }
  destruct (H3 l j Hl Hj) as (row' & Hrow' & Hv').
  assert (row' = row) as -> by congruence.
  assert (v = (Math_random (k + l * 10 + j) * 2 - 1)%Q) as -> by congruence.
  destruct (Hr (k + l * 10 + j)) as [H0 Hlt]. split; lra.
Qed.

(** ** The constructor of an ant *)

Lemma Ant_new_spec x y neuralNetwork stage k u :
  let '(ant, k', u') := Ant_new x y neuralNetwork stage k u in
  u' = S u /\ Ant.id ant = u /\ Ant.x ant = x /\ Ant.y ant = y /\
  Ant.age ant = 0 /\ Ant.stageAge ant = 0 /\ Ant.health ant = 100%Q /\
  Ant.nextAction ant = None /\
  Ant.stage ant = match stage with Some st => st | None => Stage.egg end /\
  match neuralNetwork with
  | Some nn => Ant.neuralNetwork ant = nn /\ k' = k
  | None =>
      weights (Ant.neuralNetwork ant) = (randomWeights k).1 /\
      biases (Ant.neuralNetwork ant) = (randomBiases (k + 30)).1 /\
      k' = k + 60
  end.
Proof.
  unfold Ant_new. destruct neuralNetwork as [nn|].
  - repeat split; done.
  - unfold randomWeights, randomBiases.
    destruct (randomRows_spec 3 10 k) as (Hk1 & _).
    destruct (randomRows 3 10 k) as [ws k1]. simpl in Hk1. subst k1.
    replace (k + 3 * 10) with (k + 30) by lia.
    destruct (randomRows_spec 3 10 (k + 30)) as (Hk2 & _).
    destruct (randomRows 3 10 (k + 30)) as [bs k2]. simpl in Hk2. subst k2.
    repeat split; try done. lia.
Qed.

(** X20.  The [asexual] action builds its egg with [new Ant(this.x, this.y)]: the
    constructor takes the next identifier and makes the sixty draws of a
    random genome, which is thrown away at once for a copy of the parent's
    genome; the egg is the constructor's ant with that genome and a health
    of 50, and the parent's health is halved. *)
Theorem processAction_asexual (i : nat) (s : Simulation) (this : Ant.t) :
  ants s !! i = Some this ->
  length (ants s) < maxAnts params ->
  let '(born, k, u) :=
    Ant_new (Ant.x this) (Ant.y this) None None (draws s) (uuids s) in
  let egg :=
    Ant.set_health 50
      (Ant.mk (Ant.x born) (Ant.y born) (Ant.age born) (Ant.health born)
         (Ant.stage born) (Ant.stageAge born) (Ant.id born)
         (mkNN (weights (Ant.neuralNetwork this))
               (biases (Ant.neuralNetwork this)))
         (Ant.nextAction born)) in
  processAction (Some Action.asexual) i s =
    mkSim (<[i := Ant.set_health (Ant.health this / 2) this]> (ants s) ++ [egg])
      (grid s) k u /\
  k = draws s + 60 /\ u = S (uuids s) /\
  Ant.stage egg = Stage.egg /\ Ant.age egg = 0 /\ Ant.stageAge egg = 0 /\
  Ant.x egg = Ant.x this /\ Ant.y egg = Ant.y this /\
  weights (Ant.neuralNetwork egg) = weights (Ant.neuralNetwork this) /\
  biases (Ant.neuralNetwork egg) = biases (Ant.neuralNetwork this).
Proof.
  intros Hi Hcap.
  pose proof (Ant_new_spec (Ant.x this) (Ant.y this) None None (draws s) (uuids s)) as H.
  destruct (Ant_new _ _ None None (draws s) (uuids s)) as [[born k] u].
  destruct H as (-> & Hid & Hx & Hy & Hage & Hsage & Hh & Hact & Hst & _ & _ & ->).
  cbn zeta. split; [|by repeat split].
  unfold processAction. rewrite Hi. cbn [isMove].
  apply Nat.ltb_lt in Hcap. rewrite Hcap. cbn.
  rewrite (alter_insert_at _ _ i this Hi).
  unfold newEgg, Ant.set_health. cbn. by rewrite Hx, Hy, Hage, Hsage, Hid, Hact, Hst.
Qed.

End Founding.

Section Founding2.
Context {W : World}.

(** ** The constructor of the simulation *)

Lemma Math_floor_bounds (q : Q) (a b : Z) :
  (inject_Z a <= q)%Q -> (q < inject_Z b)%Q -> (a <= Math_floor q < b)%Z.
Proof.
  intros Ha Hb. unfold Math_floor. split.
  - rewrite <- (Qfloor_Z a). by apply Qfloor_resp_le.
  - rewrite Zlt_Qlt. eapply Qle_lt_trans; [apply Qfloor_le|done].
Qed.

Lemma populate_spec n seedGenome : forall s,
  let s' := populate n seedGenome s in
  grid s' = grid s /\ uuids s' = uuids s + n /\
  draws s' = draws s + n * founderDraws seedGenome /\
  length (ants s') = length (ants s) + n /\
  (forall j a, ants s !! j = Some a -> ants s' !! j = Some a) /\
  forall j, j < n ->
    exists a, ants s' !! (length (ants s) + j) = Some a /\
      founder seedGenome (draws s + j * founderDraws seedGenome) (uuids s + j) a.
Proof.
  induction n as [|n IH]; intros s; cbn zeta.
  - simpl. repeat split; try lia; done.
  - cbn [populate].
    pose proof (Ant_new_spec (Math_floor (Math_random (draws s) * 100 - 50))
                  (Math_floor (Math_random (S (draws s)) * 100 - 50))
                  seedGenome (Some Stage.adult) (S (S (draws s))) (uuids s)) as HA.
    destruct (Ant_new _ _ seedGenome _ _ _) as [[ant k] u].
    destruct HA as (-> & Hid & Hx & Hy & Hage & Hsage & Hh & Hact & Hst & Hnn).
    assert (k = draws s + founderDraws seedGenome) as Hk.
    { destruct seedGenome; cbn; [destruct Hnn|destruct Hnn as (_ & _ & ?)]; lia. }
    assert (founder seedGenome (draws s) (uuids s) ant) as Hf.
    { unfold founder. repeat (split; [done|]).
      destruct seedGenome; [by destruct Hnn|].
      destruct Hnn as (Hw & Hb & _).
      replace (draws s + 2) with (S (S (draws s))) by lia.
      replace (draws s + 32) with (S (S (draws s)) + 30) by lia. done. }
    specialize (IH (mkSim (ants s ++ [ant]) (grid s) k (S (uuids s)))).
    cbn zeta in IH. cbn [ants grid draws uuids] in IH.
    destruct IH as (Hg & Hu & Hd & Hl & Hkeep & Hnew).
    rewrite length_app in Hl, Hnew. cbn [length] in Hl, Hnew.
    split; [done|]. split; [lia|]. split; [lia|]. split; [lia|]. split.
    + intros j a Ha. apply Hkeep. rewrite lookup_app_l; [done|].
      by eapply lookup_lt_Some.
    + intros [|j] Hj.
      * exists ant. split.
        -- rewrite Nat.add_0_r. apply Hkeep.
           rewrite lookup_app_r, Nat.sub_diag by done. done.
        -- by rewrite Nat.mul_0_l, !Nat.add_0_r.
      * destruct (Hnew j ltac:(lia)) as (a & Ha & Hfa). exists a. split.
        -- replace (length (ants s) + S j) with (length (ants s) + 1 + j) by lia.
           done.
        -- replace (draws s + S j * founderDraws seedGenome)
             with (k + j * founderDraws seedGenome) by lia.
           replace (uuids s + S j) with (S (uuids s) + j) by lia. done.
Qed.

Lemma Simulation_new_shaped (seedGenome : option NeuralNetwork) (k u : nat) :
  match seedGenome with
  | Some nn =>
      genomesShaped (shape (weights nn)) (shape (biases nn))
        (Simulation_new seedGenome k u)
  | None => genomesShaped [10; 10; 10] [10; 10; 10] (Simulation_new seedGenome k u)
  end.
Proof.
  unfold Simulation_new.
  destruct (populate_spec (antDensity params) seedGenome (mkSim [] ∅ k u))
    as (_ & _ & _ & Hl & _ & Hnew).
  cbn [ants grid draws uuids length] in *.
  set (s := populate (antDensity params) seedGenome (mkSim [] ∅ k u)) in *.
  assert (forall j a, ants s !! j = Some a ->
            founder seedGenome (k + j * founderDraws seedGenome) (u + j) a) as Hall.
  { intros j a Ha. destruct (Hnew j) as (a' & Ha' & Hf).
    - apply lookup_lt_Some in Ha. lia.
    - simpl in Ha'. congruence. }
  destruct seedGenome as [nn|].
  - intros j a Ha. destruct (Hall j a Ha) as (_ & _ & _ & _ & _ & _ & _ & _ & ->).
    done.
  - intros j a Ha.
    destruct (Hall j a Ha) as (_ & _ & _ & _ & _ & _ & _ & _ & -> & ->).
    unfold randomWeights, randomBiases.
    destruct (randomRows_spec 3 10 (k + j * founderDraws None + 2)) as (_ & Hs & _).
    destruct (randomRows_spec 3 10 (k + j * founderDraws None + 32)) as (_ & Hs' & _).
    done.
Qed.

(** X21.  A new simulation: an empty grid and [antDensity] adults of age 0 and
    health 100, whatever [maxAnts] is, with consecutive fresh identifiers,
    none with a proposed action; each on a cell drawn in the square from -50
    to 49 when the draws are in [[0, 1)]; each carrying the seed genome when
    there is one, and otherwise a random genome of its own, of three rows of
    ten weights and three rows of ten biases.  A founder costs two draws for
    its cell and sixty for a random genome. *)
Theorem Simulation_new_spec (seedGenome : option NeuralNetwork) (k u : nat) :
  let s := Simulation_new seedGenome k u in
  length (ants s) = antDensity params /\ grid s = ∅ /\
  uuids s = u + antDensity params /\
  draws s = k + antDensity params * founderDraws seedGenome /\
  uniqueIds s /\
  (forall j a, ants s !! j = Some a ->
     founder seedGenome (k + j * founderDraws seedGenome) (u + j) a /\
     (randomInRange ->
      (-50 <= Ant.x a <= 49)%Z /\ (-50 <= Ant.y a <= 49)%Z)) /\
  match seedGenome with
  | Some nn => genomesShaped (shape (weights nn)) (shape (biases nn)) s
  | None => genomesShaped [10; 10; 10] [10; 10; 10] s
  end.
Proof.
  cbn zeta. unfold Simulation_new.
  destruct (populate_spec (antDensity params) seedGenome (mkSim [] ∅ k u))
    as (Hg & Hu & Hd & Hl & _ & Hnew).
  cbn [ants grid draws uuids length] in *.
  set (s := populate (antDensity params) seedGenome (mkSim [] ∅ k u)) in *.
  assert (forall j a, ants s !! j = Some a ->
            founder seedGenome (k + j * founderDraws seedGenome) (u + j) a) as Hall.
  { intros j a Ha. destruct (Hnew j) as (a' & Ha' & Hf).
    - apply lookup_lt_Some in Ha. lia.
    - simpl in Ha'. congruence. }
  split; [done|]. split; [done|]. split; [done|]. split; [done|]. split.
  { split.
    - intros j b Hb. destruct (Hall j b Hb) as (-> & _).
      apply lookup_lt_Some in Hb. lia.
    - intros j j' b c Hb Hc Hid.
      destruct (Hall j b Hb) as (Hidb & _). destruct (Hall j' c Hc) as (Hidc & _).
      lia. }
  split.
  { intros j a Ha. split; [by apply Hall|]. intros Hr.
    destruct (Hall j a Ha) as (_ & -> & -> & _).
    assert (forall n, (-50 <= Math_floor (Math_random n * 100 - 50) <= 49)%Z) as Hb.
    { intros n. destruct (Hr n) as [H0 H1].
      destruct (Math_floor_bounds (Math_random n * 100 - 50) (-50) 50) as [? ?].
      - change (inject_Z (-50)) with (-50)%Q. lra.
      - change (inject_Z 50) with 50%Q. lra.
      - lia. }
    split; apply Hb. }
  apply Simulation_new_shaped.
Qed.

(** ** Frames *)

Lemma spawnFoodLoop_frame n left top right bottom : forall s,
  ants (spawnFoodLoop n left top right bottom s) = ants s /\
  uuids (spawnFoodLoop n left top right bottom s) = uuids s /\
  draws (spawnFoodLoop n left top right bottom s) = draws s + 2 * n.
Proof.
  induction n as [|n IH]; intros s; [simpl; repeat split; lia|].
  cbn [spawnFoodLoop].
  match goal with |- context [spawnFoodLoop n _ _ _ _ ?s1] =>
    destruct (IH s1) as (-> & -> & ->) end.
  cbn. repeat split; lia.
Qed.

Lemma render_frame v s :
  ants (render v s) = ants s /\ uuids (render v s) = uuids s /\
  draws s <= draws (render v s) /\
  forall k c, grid s !! k = Some c -> grid (render v s) !! k = Some c.
Proof.
  unfold render. generalize (renderCells v). intros cells. revert s.
  induction cells as [|[x y] cells IH]; intros s; simpl; [done|].
  destruct (IH (getCell x y s).2) as (-> & -> & Hd & Hk).
  rewrite getCell_ants, getCell_uuids. split; [done|]. split; [done|].
  split; [pose proof (getCell_draws x y s); lia|].
  intros k c Hc. by apply Hk, getCell_stable.
Qed.

Lemma genomesShaped_ants sw sb s s' :
  ants s' = ants s -> genomesShaped sw sb s -> genomesShaped sw sb s'.
Proof. unfold genomesShaped. by intros ->. Qed.

Lemma simulationLoop_returns sw sb now p :
  length sb = length sw -> genomesShaped sw sb (simulation p) ->
  exists p', simulationLoop now p = Ok p' /\ genomesShaped sw sb (simulation p').
Proof.
  intros Hlen Hg. unfold simulationLoop. destruct (updateDue now p).
  - destruct (update_returns sw sb (simulation p) Hg Hlen) as [s1 Hup].
    rewrite Hup. cbn [bindR]. eexists. split; [reflexivity|]. cbn [simulation].
    apply (genomesShaped_ants sw sb
             (if foodDue (S (tickCount p)) then spawnFood (view p) s1 else s1));
      [apply render_frame|].
    apply (genomesShaped_ants sw sb s1).
    + destruct (foodDue _); [|done]. apply spawnFoodLoop_frame.
    + by eapply tick_genomesShaped.
  - cbn [bindR]. eexists. split; [reflexivity|]. cbn [simulation].
    eapply genomesShaped_ants; [apply render_frame|done].
Qed.

Lemma frames_return sw sb nows : forall p,
  length sb = length sw -> genomesShaped sw sb (simulation p) ->
  exists p', frames nows p = Ok p' /\ genomesShaped sw sb (simulation p').
Proof.
  induction nows as [|now nows IH]; intros p Hlen Hg; simpl; [by eauto|].
  destruct (simulationLoop_returns sw sb now p Hlen Hg) as (p1 & -> & Hg1).
  simpl. by apply IH.
Qed.

(** X22.  The main loop never throws on a new simulation: whatever the times of
    the frames, the pause flag, the speed, the camera and the canvas, every
    call of [simulationLoop] returns, when the simulation was made with no
    seed genome, or with a seed genome that has as many bias layers as weight
    layers. *)
Theorem frames_never_throw (seedGenome : option NeuralNetwork) (k u : nat)
    (nows : list Z) (tickCount0 : nat) (lastUpdateTime0 : Z) (isPaused0 : bool)
    (simulationSpeed0 : Q) (view0 : View) :
  match seedGenome with
  | Some nn => length (biases nn) = length (weights nn)
  | None => True
  end ->
  exists p',
    frames nows (mkPage (Simulation_new seedGenome k u) tickCount0
                   lastUpdateTime0 isPaused0 simulationSpeed0 view0) = Ok p'.
Proof.
  intros Hseed.
  pose proof (Simulation_new_shaped seedGenome k u) as Hg.
  destruct seedGenome as [nn|].
  - destruct (frames_return (shape (weights nn)) (shape (biases nn)) nows
                (mkPage (Simulation_new (Some nn) k u) tickCount0
                   lastUpdateTime0 isPaused0 simulationSpeed0 view0))
      as (p' & Hp & _); [by rewrite !shape_layers|done|by eauto].
  - destruct (frames_return [10; 10; 10] [10; 10; 10] nows
                (mkPage (Simulation_new None k u) tickCount0
                   lastUpdateTime0 isPaused0 simulationSpeed0 view0))
      as (p' & Hp & _); [done|done|by eauto].
Qed.

End Founding2.

Section PageProofs.
Context {W : World}.

(** ** Spawning food *)

Lemma cells_le (a b : Q) : (a <= b)%Q -> (a / cellSize <= b / cellSize)%Q.
Proof.
  intros H. unfold cellSize, Qdiv. apply Qmult_le_compat_r; [done|]. discriminate.
Qed.

Lemma cells_lt (a b : Q) : (a < b)%Q -> (a / cellSize < b / cellSize)%Q.
Proof.
  intros H. unfold cellSize, Qdiv. apply Qmult_lt_compat_r; [reflexivity|done].
Qed.

Lemma cells_plus (a b : Q) :
  ((a + b) / cellSize == a / cellSize + b / cellSize)%Q.
Proof. unfold cellSize. field. Qed.

Lemma floor_scaled (r : Q) (n : Z) :
  (0 <= r)%Q -> (r < 1)%Q -> (1 <= n)%Z ->
  (0 <= Math_floor (r * inject_Z n) < n)%Z.
Proof.
  intros H0 H1 Hn. apply Math_floor_bounds.
  - change (inject_Z 0) with 0%Q. apply Qmult_le_0_compat; [done|].
    change 0%Q with (inject_Z 0). rewrite <- Zle_Qle. lia.
  - assert (0 < inject_Z n)%Q as Hpos.
    { change 0%Q with (inject_Z 0). rewrite <- Zlt_Qlt. lia. }
    assert (r * inject_Z n < 1 * inject_Z n)%Q as Hlt
      by (by apply Qmult_lt_compat_r).
    lra.
Qed.

Lemma foodCell_window left top right bottom k :
  randomInRange -> (left <= right)%Z -> (top <= bottom)%Z ->
  (left <= (foodCell left top right bottom k).1 <= right)%Z /\
  (top <= (foodCell left top right bottom k).2 <= bottom)%Z.
Proof.
  intros Hr Hx Hy. unfold foodCell. cbn [fst snd].
  destruct (Hr k) as [A0 A1]. destruct (Hr (S k)) as [B0 B1].
  pose proof (floor_scaled (Math_random k) (right - left + 1) A0 A1 ltac:(lia)).
  pose proof (floor_scaled (Math_random (S k)) (bottom - top + 1) B0 B1 ltac:(lia)).
  lia.
Qed.

Lemma spawnFoodLoop_grid n left top right bottom :
  randomInRange -> (left <= right)%Z -> (top <= bottom)%Z ->
  forall s key,
    grid (spawnFoodLoop n left top right bottom s) !! key = grid s !! key \/
    (grid (spawnFoodLoop n left top right bottom s) !! key = Some Cell.food /\
     (left <= key.1 <= right)%Z /\ (top <= key.2 <= bottom)%Z).
Proof.
  intros Hr Hx Hy. induction n as [|n IH]; intros s key; [by left|].
  cbn [spawnFoodLoop]. fold (foodCell left top right bottom (draws s)).
  match goal with |- context [spawnFoodLoop n _ _ _ _ ?s1] =>
    destruct (IH s1 key) as [IHk|IHk] end; [|by right].
  rewrite IHk. cbn [grid set_draws set_grid].
  destruct (decide (foodCell left top right bottom (draws s) = key)) as [<-|Hne].
  - right. split; [apply lookup_insert_eq|]. by apply foodCell_window.
  - left. by rewrite lookup_insert_ne.
Qed.

Lemma spawnFoodLoop_cells n left top right bottom :
  randomInRange -> (left <= right)%Z -> (top <= bottom)%Z ->
  forall s m, m < n ->
    grid (spawnFoodLoop n left top right bottom s)
      !! foodCell left top right bottom (draws s + 2 * m) = Some Cell.food.
Proof.
  intros Hr Hx Hy. induction n as [|n IH]; intros s m Hm; [lia|].
  cbn [spawnFoodLoop]. fold (foodCell left top right bottom (draws s)).
  destruct m as [|m].
  - rewrite Nat.mul_0_r, Nat.add_0_r.
    match goal with |- context [spawnFoodLoop n _ _ _ _ ?s1] =>
      destruct (spawnFoodLoop_grid n left top right bottom Hr Hx Hy s1
                  (foodCell left top right bottom (draws s))) as [Hk|[Hk _]] end;
      [|done].
    rewrite Hk. cbn. apply lookup_insert_eq.
  - match goal with |- context [spawnFoodLoop n _ _ _ _ ?s1] =>
      pose proof (IH s1 m ltac:(lia)) as Hk end.
    cbn [draws set_draws set_grid] in Hk.
    by replace (draws s + 2 * S m) with (S (S (draws s)) + 2 * m) by lia.
Qed.

(** X23.  [spawnFood] makes two draws for each of its [foodSpawnCount] cells and
    touches the grid only: it leaves the ants alone, and every cell it
    changes is a cell of the visible area, which it makes food whatever the
    cell held, terrain included.  (The draws being in [[0, 1)] and the canvas
    having a width and a height that are not negative.) *)
Theorem spawnFood_spec (v : View) (s : Simulation) :
  randomInRange ->
  (0 <= canvas_width v)%Q -> (0 <= canvas_height v)%Q ->
  let left := Math_floor (camera_x v / cellSize) in
  let top := Math_floor (camera_y v / cellSize) in
  let right := Math_floor ((camera_x v + canvas_width v) / cellSize) in
  let bottom := Math_floor ((camera_y v + canvas_height v) / cellSize) in
  let s' := spawnFood v s in
  ants s' = ants s /\ uuids s' = uuids s /\
  draws s' = draws s + 2 * foodSpawnCount params /\
  (forall key,
     grid s' !! key = grid s !! key \/
     (grid s' !! key = Some Cell.food /\
      (left <= key.1 <= right)%Z /\ (top <= key.2 <= bottom)%Z)) /\
  (forall m, m < foodSpawnCount params ->
     grid s' !! foodCell left top right bottom (draws s + 2 * m) = Some Cell.food).
Proof.
  intros Hr Hw Hh. cbn zeta. unfold spawnFood.
  assert (Math_floor (camera_x v / cellSize)
          <= Math_floor ((camera_x v + canvas_width v) / cellSize))%Z as Hx.
  { apply Qfloor_resp_le, cells_le. lra. }
  assert (Math_floor (camera_y v / cellSize)
          <= Math_floor ((camera_y v + canvas_height v) / cellSize))%Z as Hy.
  { apply Qfloor_resp_le, cells_le. lra. }
  destruct (spawnFoodLoop_frame (foodSpawnCount params)
              (Math_floor (camera_x v / cellSize))
              (Math_floor (camera_y v / cellSize))
              (Math_floor ((camera_x v + canvas_width v) / cellSize))
              (Math_floor ((camera_y v + canvas_height v) / cellSize)) s)
    as (Ha & Hu & Hd).
  split; [done|]. split; [done|]. split; [done|]. split.
  - intros key. by apply spawnFoodLoop_grid.
  - intros m Hm. by apply spawnFoodLoop_cells.
Qed.

(** ** Rendering *)

Lemma elem_of_upTo (n z : Z) : z ∈ upTo n <-> (0 <= z <= n)%Z.
Proof.
  unfold upTo. rewrite list_elem_of_In, in_map_iff. split.
  - intros (i & <- & Hi). apply in_seq in Hi. lia.
  - intros Hz. exists (Z.to_nat z). split; [lia|]. apply in_seq. lia.
Qed.

Lemma elem_of_window (startX startY cols rows x y : Z) :
  (x, y) ∈ flat_map (fun i => map (fun j => (startX + i, startY + j)%Z) (upTo rows))
             (upTo cols) <->
  (startX <= x <= startX + cols)%Z /\ (startY <= y <= startY + rows)%Z.
Proof.
  rewrite list_elem_of_In, in_flat_map. split.
  - intros (i & Hi & Hin). apply list_elem_of_In, elem_of_upTo in Hi.
    apply in_map_iff in Hin as (j & Heq & Hj).
    apply list_elem_of_In, elem_of_upTo in Hj.
    injection Heq as Hx Hy. lia.
  - intros [Hx Hy]. exists (x - startX)%Z. split.
    + apply list_elem_of_In, elem_of_upTo. lia.
    + apply in_map_iff. exists (y - startY)%Z. split.
      * f_equal; lia.
      * apply list_elem_of_In, elem_of_upTo. lia.
Qed.

Lemma elem_of_renderCells (v : View) (x y : Z) :
  (x, y) ∈ renderCells v <->
  let startX := (Math_floor (camera_x v / cellSize) - 1)%Z in
  let startY := (Math_floor (camera_y v / cellSize) - 1)%Z in
  (startX <= x <= startX + Math_ceil (canvas_width v / cellSize) + 2)%Z /\
  (startY <= y <= startY + Math_ceil (canvas_height v / cellSize) + 2)%Z.
Proof.
  cbn zeta. unfold renderCells. rewrite elem_of_window. lia.
Qed.

Lemma getCells_spec cells : forall s,
  let s' := foldl (fun s '(gridX, gridY) => (getCell gridX gridY s).2) s cells in
  (forall key, key ∈ cells -> is_Some (grid s' !! key)) /\
  (forall key c, grid s !! key = Some c -> grid s' !! key = Some c) /\
  draws s' <= draws s + length cells /\
  ((forall key, key ∈ cells -> is_Some (grid s !! key)) -> s' = s).
Proof.
  induction cells as [|[x y] cells IH]; intros s; cbn zeta; simpl.
  - split; [intros key Hk; by apply elem_of_nil in Hk|]. repeat split; try done. lia.
  - destruct (IH (getCell x y s).2) as (Hin & Hst & Hd & Hid). cbn zeta in *.
    split; [|split; [|split]].
    + intros key Hk. apply elem_of_cons in Hk as [->|Hk]; [|by apply Hin].
      exists (getCell x y s).1. apply Hst, getCell_lookup.
    + intros key c Hc. by apply Hst, getCell_stable.
    + pose proof (getCell_draws_le x y s). lia.
    + intros Hk. destruct (Hk (x, y)) as [c Hc]; [apply list_elem_of_here|].
      rewrite (getCell_known _ _ _ _ Hc) in *. cbn [snd] in *.
      apply Hid. intros key Hin'. apply Hk. by apply list_elem_of_further.
Qed.

Lemma cellUnder_rendered (v : View) (px py : Q) :
  (0 <= px)%Q -> (px < canvas_width v)%Q ->
  (0 <= py)%Q -> (py < canvas_height v)%Q ->
  cellUnder v px py ∈ renderCells v.
Proof.
  intros Hx0 Hx1 Hy0 Hy1. unfold cellUnder. apply elem_of_renderCells. cbn zeta.
  assert (forall c w p, (0 <= p)%Q -> (p < w)%Q ->
            (Math_floor (c / cellSize) - 1 <= Math_floor ((p + c) / cellSize)
             <= Math_floor (c / cellSize) - 1 + Math_ceil (w / cellSize) + 2)%Z) as H.
  { intros c w p H0 H1. unfold Math_ceil.
    pose proof (Qlt_floor (c / cellSize)) as Hf.
    pose proof (Qle_ceiling (w / cellSize)) as Hc.
    pose proof (cells_lt p w H1) as Hpw.
    assert (Math_floor (c / cellSize) <= Math_floor ((p + c) / cellSize))%Z as Hlow.
    { apply Qfloor_resp_le, cells_le. lra. }
    destruct (Math_floor_bounds ((p + c) / cellSize)
                (Math_floor ((p + c) / cellSize))
                (Math_floor (c / cellSize) + 1 + Qceiling (w / cellSize)))
      as [_ Hup].
    - apply Qfloor_le.
    - rewrite cells_plus, !inject_Z_plus. unfold Math_floor in *.
      rewrite inject_Z_plus in Hf. change (inject_Z 1) with 1%Q in *. lra.
    - lia. }
  split; by apply H.
Qed.

Lemma render_again (v : View) (s : Simulation) :
  render v (render v s) = render v s /\
  draws (render v s) <= draws s + length (renderCells v).
Proof.
  destruct (getCells_spec (renderCells v) s) as (Hin & _ & Hd & _).
  destruct (getCells_spec (renderCells v) (render v s)) as (_ & _ & _ & Hid).
  cbn zeta in *. fold (render v s) in *. split; [by apply Hid|done].
Qed.

(** X24.  [render] classifies every cell of the window it paints, which holds
    every cell under a pixel of the canvas, makes at most one draw per cell
    of the window, and leaves the ants and the cells classified before as
    they were; painting the same view again changes nothing. *)
Theorem render_spec (v : View) (s : Simulation) :
  let s' := render v s in
  ants s' = ants s /\ uuids s' = uuids s /\
  draws s <= draws s' <= draws s + length (renderCells v) /\
  (forall key c, grid s !! key = Some c -> grid s' !! key = Some c) /\
  (forall key, key ∈ renderCells v -> is_Some (grid s' !! key)) /\
  (forall px py,
     (0 <= px)%Q -> (px < canvas_width v)%Q ->
     (0 <= py)%Q -> (py < canvas_height v)%Q ->
     is_Some (grid s' !! cellUnder v px py)) /\
  render v s' = s'.
Proof.
  cbn zeta. destruct (render_frame v s) as (Ha & Hu & Hd & _).
  destruct (getCells_spec (renderCells v) s) as (Hin & Hst & Hd' & _).
  cbn zeta in *. fold (render v s) in *.
  split; [done|]. split; [done|]. split; [lia|]. split; [done|].
  split; [done|]. split.
  - intros px py Hx0 Hx1 Hy0 Hy1. by apply Hin, cellUnder_rendered.
  - apply render_again.
Qed.

(** X25.  The food that [spawnFood] lays is on the screen: every cell it changes
    is a cell of the window that [render] paints. *)
Theorem spawnFood_rendered (v : View) (s : Simulation) (key : Z * Z) :
  randomInRange ->
  (0 <= canvas_width v)%Q -> (0 <= canvas_height v)%Q ->
  grid (spawnFood v s) !! key <> grid s !! key ->
  key ∈ renderCells v /\ grid (spawnFood v s) !! key = Some Cell.food.
Proof.
  intros Hr Hw Hh Hne.
  assert (Math_floor (camera_x v / cellSize)
          <= Math_floor ((camera_x v + canvas_width v) / cellSize))%Z as Hx.
  { apply Qfloor_resp_le, cells_le. lra. }
  assert (Math_floor (camera_y v / cellSize)
          <= Math_floor ((camera_y v + canvas_height v) / cellSize))%Z as Hy.
  { apply Qfloor_resp_le, cells_le. lra. }
  destruct (spawnFoodLoop_grid (foodSpawnCount params) _ _ _ _ Hr Hx Hy s key)
    as [Hsame|(Hfood & Kx & Ky)]; [done|].
  split; [|done]. destruct key as [x y]. apply elem_of_renderCells. cbn zeta.
  cbn [fst snd] in Kx, Ky.
  assert (forall c w, (0 <= w)%Q ->
            (Math_floor ((c + w) / cellSize)
             <= Math_floor (c / cellSize) - 1 + Math_ceil (w / cellSize) + 2)%Z) as H.
  { intros c w H0. unfold Math_ceil.
    pose proof (Qlt_floor (c / cellSize)) as Hf.
    pose proof (Qle_ceiling (w / cellSize)) as Hc.
    destruct (Math_floor_bounds ((c + w) / cellSize)
                (Math_floor ((c + w) / cellSize))
                (Math_floor (c / cellSize) + 1 + Qceiling (w / cellSize)))
      as [_ Hup].
    - apply Qfloor_le.
    - rewrite cells_plus, !inject_Z_plus. unfold Math_floor in *.
      rewrite inject_Z_plus in Hf. change (inject_Z 1) with 1%Q in *. lra.
    - lia. }
  pose proof (H (camera_x v) (canvas_width v) Hw).
  pose proof (H (camera_y v) (canvas_height v) Hh).
  lia.
Qed.

(** ** The stats drawer *)

Lemma stage_counts (l : list Ant.t) :
  length (List.filter (fun a => bool_decide (Ant.stage a = Stage.egg)) l) +
  length (List.filter (fun a => bool_decide (Ant.stage a = Stage.adult)) l) +
  length (List.filter (fun a => bool_decide (Ant.stage a = Stage.old)) l) =
  length l.
Proof.
  induction l as [|a l IH]; simpl; [done|].
  destruct (Ant.stage a); simpl; lia.
Qed.

(** X26.  After a tick the eggs and the adults that [updateStats] counts add up
    to its total: no old ant is left to be counted in the total alone. *)
Theorem updateStats_after_update (s s' : Simulation) :
  update s = Ok s' ->
  let '(total, eggs, adults) := updateStats s' in
  total = length (ants s') /\ eggs + adults = total.
Proof.
  intros Hup. unfold updateStats. split; [done|].
  pose proof (stage_counts (ants s')) as Hc.
  assert (List.filter (fun a => bool_decide (Ant.stage a = Stage.old)) (ants s') = [])
    as Hold.
  { destruct (update_cull _ _ Hup) as (s3 & _ & ->). unfold cull. cbn.
    induction (List.filter alive (ants s3)) as [|a l IH]; simpl; [done|].
    unfold notOld at 1. destruct (Ant.stage a) eqn:E; simpl; rewrite ?E; simpl; done. }
  rewrite Hold in Hc. simpl in Hc. lia.
Qed.

End PageProofs.

(** ** Colour *)

Lemma Qtruncate_near (q : Q) : (Qabs (q - inject_Z (Qtruncate q)) < 1)%Q.
Proof.
  destruct q as [n d]. unfold Qtruncate. cbn [Qnum Qden].
  assert ((n # d) - inject_Z (Z.quot n (Z.pos d)) == (Z.rem n (Z.pos d) # d))%Q as ->.
  { unfold Qeq, Qminus, Qplus, Qopp, inject_Z. cbn [Qnum Qden].
    pose proof (Z.quot_rem' n (Z.pos d)) as H. nia. }
  unfold Qabs, Qlt. cbn [Qnum Qden].
  pose proof (Z.rem_bound_abs n (Z.pos d) ltac:(done)) as H. lia.
Qed.

Lemma clamp_bound (val : Q) : (0 <= clamp val)%Q /\ (clamp val < 256)%Q.
Proof.
  unfold clamp, JS_rem. split; [apply Qabs_nonneg|].
  set (q := (val * 256 / 256)%Q).
  assert (val * 256 - 256 * inject_Z (Qtruncate q)
          == 256 * (q - inject_Z (Qtruncate q)))%Q as ->.
  { unfold q. field. }
  rewrite Qabs_Qmult. pose proof (Qtruncate_near q) as H.
  change (Qabs 256) with 256%Q. lra.
Qed.

(** X27.  The three numbers [calculateColorFromNN] writes into the colour are
    each at least 0 and below 256 (they need not be integers).  On a genome
    of three weight rows and three bias rows, none of them empty, red is made
    from the first weight and the first bias of the first rows, green from
    those of the second rows and blue from those of the third: no other
    number of the genome has a part in the colour. *)
Theorem calculateColorFromNN_spec (nn : NeuralNetwork) :
  (let '(r, g, b) := calculateColorFromNN nn in
   (0 <= r)%Q /\ (r < 256)%Q /\ (0 <= g)%Q /\ (g < 256)%Q /\
   (0 <= b)%Q /\ (b < 256)%Q) /\
  (forall w0 ws0 w1 ws1 w2 ws2 b0 bs0 b1 bs1 b2 bs2,
     weights nn = [w0 :: ws0; w1 :: ws1; w2 :: ws2] ->
     biases nn = [b0 :: bs0; b1 :: bs1; b2 :: bs2] ->
     calculateColorFromNN nn =
       (clamp (0 + w0 + b0), clamp (0 + w1 + b1), clamp (0 + w2 + b2))%Q).
Proof.
  split.
  - unfold calculateColorFromNN.
    destruct (sumChannels _ 0 (0, 0, 0)%Q) as [[r g] b].
    pose proof (clamp_bound r). pose proof (clamp_bound g).
    pose proof (clamp_bound b). tauto.
  - intros w0 ws0 w1 ws1 w2 ws2 b0 bs0 b1 bs1 b2 bs2 Hw Hb.
    unfold calculateColorFromNN. rewrite Hw, Hb. reflexivity.
Qed.

(** ** The network *)

Section NetworkProofs.
Variable Math_exp : Q -> Q.

Lemma weightedSum_number w out : weightedSum (RowNumber w) out = Some 0%Q.
Proof. reflexivity. Qed.

Lemma predictLayer_numbers (ws : list Q) (bv : option (list Q)) out1 out2 :
  predictLayer Math_exp (map RowNumber ws) bv out1 =
  predictLayer Math_exp (map RowNumber ws) bv out2.
Proof.
  unfold predictLayer. destruct ws as [|w ws]; [done|].
  destruct bv as [bv|]; [|done]. f_equal.
  apply list_eq. intros n. rewrite !list_lookup_imap.
  destruct ((map RowNumber (w :: ws)) !! n) as [row|] eqn:E; [|done].
  rewrite list_lookup_fmap in E.
  destruct ((w :: ws) !! n); [|done]. simpl in E. by inversion E.
Qed.

Lemma predictLayer_aligned (ws bv : list Q) out :
  length ws = length bv ->
  predictLayer Math_exp (map RowNumber ws) (Some bv) out =
    Ok (map (fun b => activate Math_exp (Some (0 + b)%Q)) bv).
Proof.
  intros Hlen. unfold predictLayer.
  destruct ws as [|w ws].
  - destruct bv; [done|discriminate].
  - cbn [map]. f_equal. apply list_eq. intros n.
    change (RowNumber w :: map RowNumber ws) with (map RowNumber (w :: ws)).
    rewrite list_lookup_imap, !list_lookup_fmap.
    destruct (decide (n < length bv)) as [Hn|Hn].
    + destruct (lookup_lt_is_Some_2 bv n Hn) as [b Hb].
      destruct (lookup_lt_is_Some_2 (w :: ws) n ltac:(lia)) as [w' Hw'].
      by rewrite Hb, Hw'.
    + rewrite (lookup_ge_None_2 bv) by lia.
      by rewrite (lookup_ge_None_2 (w :: ws)) by lia.
Qed.

Lemma predictFrom_aligned (ws : list (list Q)) : forall bs layer out rest,
  drop layer bs = rest -> shape ws = shape rest ->
  predictFrom Math_exp (map (map RowNumber) ws) bs layer out =
    Ok (match last rest with
        | Some bl => map (fun b => activate Math_exp (Some (0 + b)%Q)) bl
        | None => out
        end).
Proof.
  induction ws as [|w ws IH]; intros bs layer out rest Hd Hs.
  - destruct rest; [done|discriminate].
  - destruct rest as [|bv rest]; [discriminate|].
    injection Hs as Hlen Hs. cbn [map predictFrom].
    assert (bs !! layer = Some bv) as Hl.
    { pose proof (lookup_drop bs layer 0) as H.
      rewrite Hd, Nat.add_0_r in H. by simpl in H. }
    assert (drop (S layer) bs = rest) as Hd'.
    { rewrite (drop_S bs bv layer Hl) in Hd. by injection Hd. }
    rewrite Hl, predictLayer_aligned by done. cbn [bindR].
    rewrite (IH bs (S layer) _ rest Hd' Hs).
    rewrite last_cons. by destruct (last rest).
Qed.

(** X28.  On the genomes of this script, [predict] does not read its input: a
    layer of such a genome is one row of numbers, so the loop over the
    weights of a neuron has nothing to run over and the sum of a neuron is
    its bias alone.  With at least one weight layer the output is the same
    for every input; when the bias rows are as many and as long as the weight
    rows, it is the sigmoid of each bias of the last row; with no layer at
    all it is the input. *)
Theorem predict_ignores_input (nn : NeuralNetwork) :
  (weights nn <> [] ->
   forall input1 input2,
     predict Math_exp nn input1 = predict Math_exp nn input2) /\
  (forall input lastBiases,
     shape (weights nn) = shape (biases nn) ->
     last (biases nn) = Some lastBiases ->
     predict Math_exp nn input =
       Ok (map (fun b => activate Math_exp (Some (0 + b)%Q)) lastBiases)) /\
  (forall input,
     weights nn = [] ->
     predict Math_exp nn input = Ok (map (fun z => Some (inject_Z z)) input)).
Proof.
  split; [|split].
  - intros Hne input1 input2. unfold predict, predictRows.
    destruct (weights nn) as [|w ws]; [done|]. cbn [map predictFrom].
    by rewrite (predictLayer_numbers w _ _
                  (map (fun z => Some (inject_Z z)) input2)).
  - intros input lastBiases Hs Hlast. unfold predict, predictRows.
    rewrite (predictFrom_aligned (weights nn) (biases nn) 0 _ (biases nn));
      [by rewrite Hlast|done|done].
  - intros input Hw. unfold predict, predictRows. by rewrite Hw.
Qed.

End NetworkProofs.

(** ** Softmax *)

Lemma Math_max_In (values : list Q) (m : Q) :
  Math_max values = Some m -> In m values.
Proof.
  destruct values as [|v rest]; [done|]. simpl. intros H. inversion H as [Hm].
  clear H Hm. revert v. induction rest as [|w rest IH]; intros v; simpl; [by left|].
  destruct (IH (if Qle_bool v w then w else v)) as [H|H].
  - destruct (Qle_bool v w); rewrite <- H; auto.
  - auto.
Qed.

Lemma foldl_Qplus (l : list Q) : forall a, (foldl Qplus a l == a + Qsum l)%Q.
Proof.
  induction l as [|x l IH]; intros a; simpl.
  - unfold Qsum. simpl. ring.
  - rewrite IH. unfold Qsum. simpl. ring.
Qed.

Lemma Qsum_scaled (l : list Q) (c : Q) :
  (Qsum (map (fun v => v / c) l) == Qsum l / c)%Q.
Proof.
  unfold Qsum. induction l as [|x l IH]; simpl.
  - unfold Qdiv. ring.
  - rewrite IH. unfold Qdiv. ring.
Qed.

Lemma Qsum_nonneg (l : list Q) :
  (forall e, In e l -> (0 <= e)%Q) -> (0 <= Qsum l)%Q.
Proof.
  unfold Qsum. induction l as [|x l IH]; intros H; simpl; [lra|].
  pose proof (H x (or_introl eq_refl)).
  assert (0 <= foldr Qplus 0 l)%Q by (apply IH; intros e He; apply H; by right).
  lra.
Qed.

Lemma Qsum_member (l : list Q) (x : Q) :
  (forall e, In e l -> (0 <= e)%Q) -> In x l -> (x <= Qsum l)%Q.
Proof.
  induction l as [|y l IH]; intros H Hin; [done|].
  assert (0 <= Qsum l)%Q as Hl by (apply Qsum_nonneg; intros e He; apply H; by right).
  pose proof (H y (or_introl eq_refl)) as Hy.
  change (Qsum (y :: l)) with (y + Qsum l)%Q.
  destruct Hin as [->|Hin]; [lra|].
  assert (x <= Qsum l)%Q by (apply IH; [intros e He; apply H; by right|done]).
  lra.
Qed.

Section SoftmaxProofs.
Variable Math_exp : Q -> Q.
Hypothesis exp_wd : forall a b, (a == b)%Q -> (Math_exp a == Math_exp b)%Q.
Hypothesis exp_nonneg : forall a, (0 <= Math_exp a)%Q.
Hypothesis exp_zero : (Math_exp 0 == 1)%Q.

(** X29.  [softmax] makes a probability vector of any vector of numbers that is
    not empty: as many values, each between 0 and 1, adding up to 1 (in
    exact arithmetic), so that [sampleIndex] then returns an index of the
    vector; the largest value is brought to [exp(0) = 1] before the division,
    which keeps the divisor at 1 or more.  Of the empty vector it makes the
    empty vector.  ([Math.exp] may be any function that is never negative
    and is 1 at 0.) *)
Theorem softmax_distribution (values : list Q) :
  (values = [] -> softmax Math_exp values = []) /\
  (values <> [] ->
   length (softmax Math_exp values) = length values /\
   (Qsum (softmax Math_exp values) == 1)%Q /\
   Forall (fun p => (0 <= p)%Q /\ (p <= 1)%Q) (softmax Math_exp values) /\
   forall r,
     (0 <= sampleIndex r (softmax Math_exp values)
        < Z.of_nat (length values))%Z).
Proof.
  split; [by intros ->|]. intros Hne.
  unfold softmax. destruct (Math_max values) as [maxVal|] eqn:Hmax;
    [|by destruct values].
  set (expValues := map (fun v => Math_exp (v - maxVal)) values).
  set (sumExp := foldl Qplus 0%Q expValues).
  assert (forall e, In e expValues -> (0 <= e)%Q) as Hpos.
  { intros e He. apply in_map_iff in He as (v & <- & _). apply exp_nonneg. }
  assert (sumExp == Qsum expValues)%Q as Hsum.
  { unfold sumExp. rewrite foldl_Qplus. ring. }
  assert (1 <= sumExp)%Q as Hbig.
  { rewrite Hsum. apply Math_max_In in Hmax.
    assert (In (Math_exp (maxVal - maxVal)) expValues) as Hin.
    { apply in_map_iff. by exists maxVal. }
    pose proof (Qsum_member _ _ Hpos Hin) as Hle.
    assert (Math_exp (maxVal - maxVal) == 1)%Q as Hone.
    { rewrite (exp_wd (maxVal - maxVal) 0); [done|ring]. }
    lra. }
  assert (length (map (fun v => (v / sumExp)%Q) expValues) = length values) as Hlen.
  { unfold expValues. by rewrite !length_map. }
  split; [done|]. split; [|split].
  - rewrite Qsum_scaled, <- Hsum. field. lra.
  - apply Forall_forall. intros p Hp.
    apply list_elem_of_In, in_map_iff in Hp as (e & <- & He).
    pose proof (Hpos e He) as H0. pose proof (Qsum_member _ _ Hpos He) as H1.
    rewrite <- Hsum in H1.
    assert (0 < / sumExp)%Q as Hinv by (apply Qinv_lt_0_compat; lra).
    unfold Qdiv. split.
    + apply Qmult_le_0_compat; lra.
    + assert (e * / sumExp <= sumExp * / sumExp)%Q as Hle
        by (apply Qmult_le_compat_r; lra).
      rewrite Qmult_inv_r in Hle by lra. done.
  - intros r. rewrite <- Hlen. apply sampleIndex_range.
    intros Hnil. rewrite Hnil in Hlen. destruct values; [done|discriminate].
Qed.

End SoftmaxProofs.

(** ** Frames while the simulation stands still *)

Section PausedProofs.
Context {W : World}.

Lemma updateDue_paused now p :
  isPaused p = true \/ (simulationSpeed p == 0)%Q -> updateDue now p = false.
Proof.
  unfold updateDue. intros [->|H]; [done|].
  apply Qeq_bool_iff in H. rewrite H. by destruct (isPaused p).
Qed.

(** X30.  While the simulation is paused, or its speed is 0, the frames do not
    tick: however many calls of [simulationLoop] are made, the tick counter,
    the time of the last update and the ants stay as they are, and the
    simulation is the one the first of these calls has rendered, the later
    calls finding every cell of the window classified. *)
Theorem frames_paused (nows : list Z) (p : Page) :
  isPaused p = true \/ (simulationSpeed p == 0)%Q ->
  exists p',
    frames nows p = Ok p' /\
    tickCount p' = tickCount p /\ lastUpdateTime p' = lastUpdateTime p /\
    ants (simulation p') = ants (simulation p) /\
    draws (simulation p')
      <= draws (simulation p) + length (renderCells (view p)) /\
    (nows <> [] -> simulation p' = render (view p) (simulation p)).
Proof.
  intros Hp. destruct nows as [|now nows].
  - exists p. simpl. repeat split; try done. lia.
  - set (p1 := mkPage (render (view p) (simulation p)) (tickCount p)
                 (lastUpdateTime p) (isPaused p) (simulationSpeed p) (view p)).
    assert (simulationLoop now p = Ok p1) as H1.
    { unfold simulationLoop. by rewrite (updateDue_paused now p Hp). }
    assert (forall l, frames l p1 = Ok p1) as Hrest.
    { induction l as [|now' l IH]; [done|]. cbn [frames].
      assert (simulationLoop now' p1 = Ok p1) as ->; [|done].
      unfold simulationLoop. rewrite (updateDue_paused now' p1 Hp).
      cbn [bindR]. unfold p1. cbn [simulation view tickCount lastUpdateTime
                                    isPaused simulationSpeed].
      by rewrite (proj1 (render_again (view p) (simulation p))). }
    exists p1. cbn [frames]. rewrite H1. cbn [bindR]. rewrite Hrest.
    destruct (render_frame (view p) (simulation p)) as (Ha & _).
    destruct (render_again (view p) (simulation p)) as (_ & Hd).
    unfold p1. cbn [simulation tickCount lastUpdateTime]. repeat split; done.
Qed.

End PausedProofs.

(** * The theorems at concrete inputs *)

(** Run one tick on a concrete world and state: the tick returns, and the
    equation is kept for the theorem that needs it. *)
Ltac run_update W s s' E :=
  destruct (@update W s) as [s'| |] eqn:E;
  [|vm_compute in E; discriminate E..].

Lemma C7_witness :
  (0 <= sampleIndex (3 # 4) [1 # 4; 1 # 4; 1 # 2] < 3)%Z /\
  sampleIndex (3 # 4) (1%Q :: repeat 0%Q 2) = 0%Z.
Proof.
  apply (C7_sampleIndex 0 (3 # 4) [1 # 4; 1 # 4; 1 # 2]%Q 2); vm_compute; congruence.
Defined.

(** The probabilities of the example genomes do not depend on what
    [Math.exp] is away from 0: the ten outputs of [predict] are equal, so
    [softmax] evaluates [Math.exp] at 0 only and gives each index 1/10. *)
Lemma network_uniform (Math_exp : Q -> Q) (nn : NeuralNetwork)
    (inputVector : list Z) :
  (forall a b, (a == b)%Q -> (Math_exp a == Math_exp b)%Q) ->
  (Math_exp 0 == 1)%Q ->
  nn = nnA \/ nn = nnB ->
  length (network Math_exp nn inputVector) = 10 /\
  Forall (fun p => (p == 1 # 10)%Q) (network Math_exp nn inputVector).
Proof.
  intros Hwd H0 Hnn.
  assert (exists v, predict Math_exp nn inputVector = Ok (repeat (Some v) 10))
    as [v Hp].
  { destruct Hnn as [-> | ->]; eexists; reflexivity. }
  unfold network. rewrite Hp.
  change (mapM id (repeat (Some v) 10)) with (Some (repeat v 10)).
  unfold softmax. destruct (Math_max (repeat v 10)) as [m|] eqn:Em;
    [|discriminate Em].
  apply Math_max_In, repeat_spec in Em. subst m.
  rewrite map_repeat.
  assert (Math_exp (v - v) == 1)%Q as He.
  { rewrite <- H0. apply Hwd. ring. }
  set (e := Math_exp (v - v)%Q) in *. split; [reflexivity|].
  cbn. repeat constructor; rewrite He; reflexivity.
Qed.

Lemma randomInRange_example : @randomInRange world_example.
Proof. intros n. simpl. split; reflexivity || discriminate. Qed.

Lemma C1_witness :
  exists child k',
    @crossover world_example nnA nnB 0 = Ok (child, k') /\
    shape (weights child) = shape (weights nnA) /\
    shape (weights child) = shape (weights nnB) /\
    shape (biases child) = shape (biases nnA) /\
    shape (biases child) = shape (biases nnB) /\
    forall i, i < length (weights nnA) ->
      @layerFrom world_example ((if Nat.even i then weights nnA else weights nnB) !! i)
                (weights child !! i) /\
      @layerFrom world_example ((if Nat.even i then biases nnA else biases nnB) !! i)
                (biases child !! i).
Proof.
  apply (@C1_crossover world_example nnA nnB 0).
  - discriminate.
  - apply randomInRange_example.
  - reflexivity.
  - reflexivity.
  - reflexivity.
Defined.

Lemma C10_witness :
  exists s', @update world_example pair_state = Ok s' /\
  exists s3, @beforeCull world_example pair_state = Ok s3 /\ s' = cull s3 /\
    length (ants pair_state) <= length (ants s3) /\
    (forall j a, ants pair_state !! j = Some a ->
       exists a3, ants s3 !! j = Some a3 /\ Ant.id a3 = Ant.id a) /\
    forall e b, length (ants pair_state) <= e -> ants s3 !! e = Some b ->
      Ant.age b = 1 /\ Ant.stageAge b = 1 /\ Ant.nextAction b = None /\
      (1 < eggToAdultTicks (@params world_example) ->
         Ant.health b = 49%Q /\ Ant.stage b = Stage.egg /\ b ∈ ants s') /\
      (eggToAdultTicks (@params world_example) <= 1 ->
         Ant.health b = 100%Q /\ Ant.stage b <> Stage.egg).
Proof.
  run_update world_example pair_state s' E.
  exists s'. split; [reflexivity|].
  exact (@C10_newborn_aged_in_birth_tick world_example pair_state s' E).
Defined.

(** C10 as stated fails when eggs hatch after one tick.  The two adults of
    [pair_state] both propose [mate] (their networks give each of ten
    indices the probability 1/10, and the draw 3/4 selects index 7); the egg
    they lay ends its birth tick as an adult with full health. *)
Lemma C10_counterexample :
  exists s' b,
    @update world_hatch_at_once pair_state = Ok s' /\
    (forall a, a ∈ ants (@phase1 world_hatch_at_once pair_state) ->
       Ant.nextAction a = Some Action.mate) /\
    length (ants pair_state) = 2 /\ ants s' !! 2 = Some b /\
    Ant.age b = 1 /\ Ant.stageAge b = 1 /\
    Ant.stage b = Stage.adult /\ (Ant.health b == 100)%Q /\
    ~ (Ant.health b == 49)%Q.
Proof.
  assert (forall a, a ∈ ants (@phase1 world_hatch_at_once pair_state) ->
            Ant.nextAction a = Some Action.mate) as Hmate.
  { assert (ants (@phase1 world_hatch_at_once pair_state) =
      [Ant.mk 0 0 10 100 Stage.adult 10 0 nnA (Some Action.mate);
       Ant.mk 1 0 10 100 Stage.adult 10 1 nnB (Some Action.mate)]) as ->
      by (vm_compute; reflexivity).
    intros a Ha.
    apply elem_of_cons in Ha as [->|Ha]; [reflexivity|].
    apply elem_of_cons in Ha as [->|Ha]; [reflexivity|].
    by apply elem_of_nil in Ha. }
  run_update world_hatch_at_once pair_state s' E.
  pose proof E as E'. vm_compute in E'. inversion E'; subst s'. clear E'.
  eexists _, _. split; [exact E|]. split; [exact Hmate|].
  split; [reflexivity|].
  split; [reflexivity|]. repeat split; try reflexivity. discriminate.
Qed.

Lemma C4_witness :
  exists s', @update world_example pair_state = Ok s' /\
  length (ants s') <= Nat.max (length (ants pair_state)) (maxAnts (@params world_example)).
Proof.
  run_update world_example pair_state s' E.
  exists s'. split; [reflexivity|].
  apply (@C4_population_cap world_example pair_state s' E).
Defined.

Lemma genomesShaped_pair : genomesShaped [10; 10; 10] [10; 10; 10] pair_state.
Proof.
  intros [|[|j]] a H; [| |done]; inversion H; subst; split; reflexivity.
Qed.

Lemma C5_witness :
  exists s', @update world_example pair_state = Ok s' /\
  Forall (fun ant => (0 < Ant.health ant)%Q /\ Ant.stage ant <> Stage.old)
    (ants s').
Proof.
  destruct (proj2 (proj2 (@C5_survivors world_example pair_state))
              [10; 10; 10] [10; 10; 10] genomesShaped_pair eq_refl) as [s' E].
  exists s'. split; [exact E|].
  exact (proj1 (@C5_survivors world_example pair_state) s' E).
Defined.

Lemma uniqueIds_elder : uniqueIds elder_state.
Proof.
  split.
  - intros [|j] b H; [|done]. inversion H; subst. cbn. lia.
  - intros [|j] [|k] b c Hb Hc; done.
Qed.

Lemma C2_witness :
  exists s' s3 a3 k,
    @update world_low_draws elder_state = Ok s' /\
    @beforeCull world_low_draws elder_state = Ok s3 /\ s' = cull s3 /\
    ants s3 !! 0 = Some a3 /\ Ant.id a3 = 0 /\
    Ant.age a3 = 500 /\
    draws elder_state <= k /\ k < draws s3 /\
    ((@Math_random world_low_draws k <= 1 # 2)%Q ->
       Ant.stage a3 = Stage.old /\
       (forall b, b ∈ ants s' -> Ant.id b <> 0) /\
       length (ants s') < length (ants s3)) /\
    ((doubleSpacing (inject_Z (Z.of_nat (antLifespan (@params world_low_draws))))
        < (@Math_random world_low_draws k - (1 # 2)) * (5 # 100))%Q ->
       Ant.stage a3 = Stage.adult /\
       ((0 < Ant.health a3)%Q -> a3 ∈ ants s')).
Proof.
  run_update world_low_draws elder_state s' E.
  destruct (@C2_retirement world_low_draws elder_state s' 0
              (Ant.mk 0 0 499 100 Stage.adult 499 0 nnA None))
    as (s3 & a3 & k & H); [apply uniqueIds_elder|reflexivity..|exact E|].
  exists s', s3, a3, k. split; [reflexivity|exact H].
Defined.

(** C2 as stated fails when the jitter is positive: with every draw equal to
    3/4, a jitter of 0.0125 that is far above the spacing of the doubles at
    500, the adult of age [antLifespan - 1 = 499] and health 100 is still an
    adult in the population after the tick, and the population has not
    decreased. *)
Lemma C2_counterexample :
  exists s' b,
    @update world_example elder_state = Ok s' /\
    ants elder_state = [Ant.mk 0 0 499 100 Stage.adult 499 0 nnA None] /\
    S 499 = antLifespan (@params world_example) /\
    ants s' = [b] /\ Ant.id b = 0 /\ Ant.age b = 500 /\
    Ant.stage b = Stage.adult /\ (0 < Ant.health b)%Q /\
    length (ants s') = length (ants elder_state) /\
    forall k,
      (doubleSpacing (inject_Z (Z.of_nat (antLifespan (@params world_example))))
       < (@Math_random world_example k - (1 # 2)) * (5 # 100))%Q.
Proof.
  run_update world_example elder_state s' E.
  pose proof E as E'. vm_compute in E'. inversion E'; subst s'. clear E'.
  eexists _, _. split; [exact E|]. repeat split; reflexivity.
Qed.

Lemma C6_witness :
  exists s' child k s3,
    let a0 := Ant.mk 0 0 10 100 Stage.adult 10 0 nnA None in
    let a1 := Ant.mk 1 0 10 100 Stage.adult 10 1 nnB None in
    let p0 := Ant.set_nextAction (Some Action.mate) a0 in
    let p1 := Ant.set_nextAction (Some Action.mate) a1 in
    let egg := newEgg 0 0 child 2 in
    @update world_example pair_state = Ok s' /\
    @crossover world_example nnA nnB (draws (@phase1 world_example pair_state))
      = Ok (child, k) /\
    @beforeCull world_example pair_state = Ok s3 /\ s' = cull s3 /\
    ants s3 = [@agedAnt world_example k p0; @agedAnt world_example (S k) p1;
               @agedAnt world_example (S (S k)) egg] /\
    grid s3 = grid (@phase1 world_example pair_state) /\
    ants s' = [Ant.tick p0; Ant.tick p1;
               Ant.mk 0 0 1 49 Stage.egg 1 2 child None] /\
    length (ants s') = 3.
Proof.
  assert ((1%Z, 0%Z) ∈ neighborsOf (Ant.mk 0 0 10 100 Stage.adult 10 0 nnA None))
    as Hadj.
  { cbn. repeat (apply list_elem_of_here || apply list_elem_of_further). }
  assert (forall b, b ∈ ants (@phase1 world_example pair_state) ->
            Ant.nextAction b = Some Action.mate) as Hmate.
  { assert (ants (@phase1 world_example pair_state) =
      [Ant.mk 0 0 10 100 Stage.adult 10 0 nnA (Some Action.mate);
       Ant.mk 1 0 10 100 Stage.adult 10 1 nnB (Some Action.mate)]) as ->
      by (vm_compute; reflexivity).
    intros b Hb.
    apply elem_of_cons in Hb as [->|Hb]; [reflexivity|].
    apply elem_of_cons in Hb as [->|Hb]; [reflexivity|].
    by apply elem_of_nil in Hb. }
  assert (length (ants pair_state) < maxAnts (@params world_example)) as Hcap
    by (vm_compute; lia).
  assert (11 < antLifespan (@params world_example)) as Hlife by (vm_compute; lia).
  assert (1 < eggToAdultTicks (@params world_example)) as Hegg by (vm_compute; lia).
  run_update world_example pair_state s' E.
  destruct (@C6_pair_mating world_example pair_state s'
              (Ant.mk 0 0 10 100 Stage.adult 10 0 nnA None)
              (Ant.mk 1 0 10 100 Stage.adult 10 1 nnB None)
              eq_refl eq_refl eq_refl Hadj Hmate Hcap E)
    as (child & k & s3 & H1 & H2 & H3 & H4 & H5 & H6).
  destruct (H6 randomInRange_example eq_refl eq_refl Hlife Hlife Hegg) as [H7 H8].
  exists s', child, k, s3. cbn zeta.
  split; [reflexivity|]. split; [exact H1|]. split; [exact H2|].
  split; [exact H3|]. split; [exact H4|]. split; [exact H5|].
  split; [exact H7|exact H8].
Defined.

(** C6 as stated fails when a parent does not survive the upkeep of the tick:
    two adjacent adults of health 1 that both propose [mate] (their networks
    give each of ten indices the probability 1/10, and the draw 3/4 selects
    index 7) leave one egg and nothing else, so the population has gone from
    2 to 1. *)
Lemma C6_counterexample :
  exists s' b,
    @update world_example frail_pair_state = Ok s' /\
    length (ants frail_pair_state) = 2 /\
    (forall a, a ∈ ants (@phase1 world_example frail_pair_state) ->
       Ant.nextAction a = Some Action.mate /\ Ant.stage a = Stage.adult) /\
    ants s' = [b] /\ Ant.stage b = Stage.egg /\
    length (ants s') <> length (ants frail_pair_state) + 1.
Proof.
  assert (forall a, a ∈ ants (@phase1 world_example frail_pair_state) ->
       Ant.nextAction a = Some Action.mate /\ Ant.stage a = Stage.adult) as Hmate.
  { assert (ants (@phase1 world_example frail_pair_state) =
      [Ant.mk 0 0 10 1 Stage.adult 10 0 nnA (Some Action.mate);
       Ant.mk 1 0 10 1 Stage.adult 10 1 nnB (Some Action.mate)]) as ->
      by (vm_compute; reflexivity).
    intros a Ha.
    apply elem_of_cons in Ha as [->|Ha]; [by split|].
    apply elem_of_cons in Ha as [->|Ha]; [by split|].
    by apply elem_of_nil in Ha. }
  run_update world_example frail_pair_state s' E.
  pose proof E as E'. vm_compute in E'. inversion E'; subst s'. clear E'.
  eexists _, _. split; [exact E|]. split; [reflexivity|].
  split; [exact Hmate|].
  split; [reflexivity|]. split; [reflexivity|]. cbn. lia.
Qed.

Lemma C3_witness :
  let this := Ant.mk 0 0 10 50 Stage.adult 10 0 nnA None in
  let r := @processVision world_example this lone_food_state in
  (exists cell,
       grid r.2 !! (0 + 1, 0 + (-1))%Z = Some cell /\
       r.1 !! Z.to_nat ((-1 + 1) * 3 + (1 + 1)) =
         Some (match getAntAt (0 + 1) (0 + (-1)) lone_food_state with
               | Some _ => 2
               | None =>
                   match cell with
                   | Cell.food => 1
                   | Cell.terrain => 0
                   | Cell.empty => -1
                   end
               end)%Z) /\
  r.1 !! 4 = Some 2%Z.
Proof.
  cbn zeta.
  destruct (@C3_processVision world_example
              (Ant.mk 0 0 10 50 Stage.adult 10 0 nnA None) lone_food_state)
    as (_ & _ & _ & Hcells & Hcentre & _).
  split.
  - apply (Hcells 1%Z (-1)%Z); lia.
  - apply (Hcentre 0). reflexivity.
Defined.

(** C3 as stated fails at the centre: an adult alone in the world, standing
    on a food cell, sees 2 there, although no other ant is on the cell and
    the cell is food (which the specification encodes as 1). *)
Lemma C3_counterexample :
  let this := Ant.mk 0 0 10 50 Stage.adult 10 0 nnA None in
  let r := @processVision world_example this lone_food_state in
  ants lone_food_state = [this] /\
  grid r.2 !! (0%Z, 0%Z) = Some Cell.food /\
  r.1 !! 4 = Some 2%Z /\ r.1 !! 4 <> Some 1%Z.
Proof.
  cbn zeta. split; [reflexivity|]. split; [by vm_compute|].
  split; [by vm_compute|]. vm_compute. discriminate.
Qed.

Lemma C8_witness :
  let this := Ant.mk 0 0 10 50 Stage.adult 10 0 nnA None in
  let s1 := @processAction world_example (Some Action.eat) 0 lone_food_state in
  exists this1,
    ants s1 !! 0 = Some this1 /\
    Ant.health this1 = Math_min 100 (50 + 20) /\
    ((50 < 100)%Q -> (50 < Ant.health this1)%Q) /\
    ((50 == 100)%Q -> (Ant.health this1 == 100)%Q) /\
    (Ant.health this1 <= 100)%Q /\
    Ant.x this1 = 0%Z /\ Ant.y this1 = 0%Z /\
    grid s1 !! (0%Z, 0%Z) = Some Cell.empty /\
    @processAction world_example (Some Action.eat) 0 s1 = s1.
Proof.
  apply (@C8_eat world_example 0 lone_food_state
           (Ant.mk 0 0 10 50 Stage.adult 10 0 nnA None)).
  - reflexivity.
  - by vm_compute.
Defined.

Lemma C9_witness :
  grid (clearCell 0 0 lone_food_state) !! (0%Z, 0%Z) = Some Cell.empty /\
  grid (clearCell 0 0 lone_food_state) !! (1%Z, 1%Z) = grid lone_food_state !! (1%Z, 1%Z).
Proof.
  destruct (@C9_clearCell world_example lone_food_state 0 0) as (H1 & H2 & _).
  split; [exact H1|]. apply H2. discriminate.
Defined.

(** C9 as stated fails on a terrain cell: [clearCell] turns it into an empty
    cell, so the grid is not left unchanged. *)
Lemma C9_counterexample :
  grid terrain_state !! (0%Z, 0%Z) = Some Cell.terrain /\
  grid (clearCell 0 0 terrain_state) !! (0%Z, 0%Z) = Some Cell.empty /\
  grid (clearCell 0 0 terrain_state) <> grid terrain_state.
Proof.
  split; [by vm_compute|]. split; [by vm_compute|].
  intros H. apply (f_equal (fun g => g !! (0%Z, 0%Z))) in H.
  vm_compute in H. discriminate.
Qed.

(** ** The further theorems at concrete inputs *)

Lemma update_keeps_grid_witness :
  exists s', @update world_eater lone_food_state = Ok s' /\
    (grid s' !! (0%Z, 0%Z) = Some Cell.food \/
     (Cell.food = Cell.food /\ grid s' !! (0%Z, 0%Z) = Some Cell.empty)).
Proof.
  assert (grid lone_food_state !! (0%Z, 0%Z) = Some Cell.food) as Hk
    by (vm_compute; reflexivity).
  run_update world_eater lone_food_state s' E.
  exists s'. split; [reflexivity|].
  exact (@update_keeps_grid world_eater lone_food_state s' E (0%Z, 0%Z) Cell.food Hk).
Defined.

Lemma update_health_cap_witness :
  exists s', @update world_example pair_state = Ok s' /\
    Forall (fun a => (Ant.health a <= 100)%Q) (ants s').
Proof.
  assert (Forall (fun a => (Ant.health a <= 100)%Q) (ants pair_state)) as H0.
  { repeat constructor; cbn; lra. }
  assert (100 <= 100)%Q as H1 by lra.
  assert (maxAntHealth (@params world_example) <= 100)%Q as H2 by (cbn; lra).
  run_update world_example pair_state s' E.
  exists s'. split; [reflexivity|].
  exact (@update_health_cap world_example 100 pair_state s' H1 H2 H0 E).
Defined.

Lemma onOpenGround_lone : onOpenGround lone_food_state.
Proof.
  intros a Ha. apply list_elem_of_singleton in Ha as ->.
  exists Cell.food. split; [vm_compute; reflexivity|discriminate].
Qed.

Lemma update_keeps_open_ground_witness :
  exists s', @update world_low_draws lone_food_state = Ok s' /\ onOpenGround s'.
Proof.
  run_update world_low_draws lone_food_state s' E.
  exists s'. split; [reflexivity|].
  exact (@update_keeps_open_ground world_low_draws lone_food_state s'
           onOpenGround_lone E).
Defined.

Lemma update_keeps_genome_shape_witness :
  exists s', @update world_example pair_state = Ok s' /\
    @genomesShaped [10; 10; 10] [10; 10; 10] s'.
Proof.
  run_update world_example pair_state s' E.
  exists s'. split; [reflexivity|].
  exact (@update_keeps_genome_shape world_example [10; 10; 10] [10; 10; 10]
           pair_state s' eq_refl genomesShaped_pair E).
Defined.

Lemma update_keeps_stageAge_witness :
  exists s', @update world_example pair_state = Ok s' /\
    Forall (fun a => Ant.stageAge a = Ant.age a) (ants s').
Proof.
  assert (Forall (fun a => Ant.stageAge a = Ant.age a) (ants pair_state)) as H0
    by (repeat constructor).
  run_update world_example pair_state s' E.
  exists s'. split; [reflexivity|].
  exact (@update_keeps_stageAge world_example pair_state s' H0 E).
Defined.

Lemma update_keeps_ids_unique_witness :
  exists s', @update world_example elder_state = Ok s' /\
    uniqueIds s' /\ uuids elder_state <= uuids s'.
Proof.
  run_update world_example elder_state s' E.
  exists s'. split; [reflexivity|].
  exact (@update_keeps_ids_unique world_example elder_state s' uniqueIds_elder E).
Defined.

Lemma update_hatches_due_eggs_witness :
  exists s', @update world_hatch_at_once pair_state = Ok s' /\
    Forall (fun a => Ant.stage a = Stage.egg ->
                     Ant.stageAge a < eggToAdultTicks (@params world_hatch_at_once))
      (ants s').
Proof.
  run_update world_hatch_at_once pair_state s' E.
  exists s'. split; [reflexivity|].
  exact (@update_hatches_due_eggs world_hatch_at_once pair_state s' E).
Defined.

Lemma update_retires_overdue_adults_witness :
  exists s', @update world_example elder_state = Ok s' /\
    Forall (fun a => Ant.stage a = Stage.adult ->
                     Ant.age a <= antLifespan (@params world_example)) (ants s').
Proof.
  assert (forall n, (@Math_random world_example n < 1)%Q) as Hr
    by (intros n; reflexivity).
  run_update world_example elder_state s' E.
  exists s'. split; [reflexivity|].
  exact (@update_retires_overdue_adults world_example elder_state s' Hr E).
Defined.

Lemma update_tracks_population_witness :
  exists s', @update world_example pair_state = Ok s' /\
    forall b, b ∈ ants s' ->
      (exists a, a ∈ ants pair_state /\ tickedFrom a b) \/
      (Ant.age b = 1 /\ Ant.stageAge b = 1 /\ Ant.nextAction b = None).
Proof.
  run_update world_example pair_state s' E.
  exists s'. split; [reflexivity|].
  exact (@update_tracks_population world_example pair_state s' E).
Defined.

Lemma getCell_fresh_witness :
  (@getCell world_example 0 0 elder_state).1 = Cell.empty <->
  (foodDensity (@params world_example) <= 3 # 4)%Q /\
  (foodDensity (@params world_example) + terrainDensity (@params world_example)
   <= 3 # 4)%Q.
Proof.
  destruct (@getCell_fresh world_example 0 0 elder_state eq_refl)
    as (_ & _ & H & _).
  exact H.
Defined.

Lemma processAction_move_witness :
  ants (@processAction world_example (Some Action.up) 0 lone_food_state) !! 0 =
    Some (if decide ((@getCell world_example 0 (0 - 1) lone_food_state).1
                     = Cell.terrain)
          then Ant.mk 0 0 10 50 Stage.adult 10 0 nnA None
          else Ant.set_pos 0 (0 - 1) (Ant.mk 0 0 10 50 Stage.adult 10 0 nnA None)).
Proof.
  destruct (@processAction_move world_example Action.up 0 lone_food_state
              (Ant.mk 0 0 10 50 Stage.adult 10 0 nnA None) eq_refl eq_refl)
    as (_ & _ & _ & H & _).
  exact H.
Defined.

Lemma processAction_attack_witness :
  exists j tgt,
    j <> 0 /\ ants pair_state !! j = Some tgt /\
    ants (@processAction world_example (Some Action.attack) 0 pair_state) !! j =
      Some (Ant.set_health (Ant.health tgt - 10) tgt).
Proof.
  destruct (@processAction_attack world_example 0 pair_state
              (Ant.mk 0 0 10 100 Stage.adult 10 0 nnA None) eq_refl)
    as (_ & _ & _ & _ & _ & H).
  destruct H as (j & tgt & Hne & Hj & Hadj & _ & _ & Hcase).
  { exists (Ant.mk 1 0 10 100 Stage.adult 10 1 nnB None). split.
    - apply list_elem_of_further, list_elem_of_here.
    - reflexivity. }
  exists j, tgt. split; [exact Hne|]. split; [exact Hj|].
  destruct j as [|[|j]]; [done| |done].
  injection Hj as <-. exact (proj1 Hcase).
Defined.

Lemma processAction_sleep_witness :
  ants (@processAction world_example (Some Action.sleep) 0 lone_food_state) !! 0 =
    Some (Ant.set_health (Math_min 100 (50 + 5))
            (Ant.mk 0 0 10 50 Stage.adult 10 0 nnA None)).
Proof.
  destruct (@processAction_sleep world_example 0 lone_food_state
              (Ant.mk 0 0 10 50 Stage.adult 10 0 nnA None) eq_refl)
    as (H & _).
  exact H.
Defined.

Lemma phase2_pairs_witness :
  exists s2 matedAnts,
    @phase2 world_example (@phase1 world_example pair_state) = Ok (s2, matedAnts) /\
    size matedAnts
      = 2 * (length (ants s2) - length (ants (@phase1 world_example pair_state))).
Proof.
  destruct (@phase2 world_example (@phase1 world_example pair_state))
    as [[s2 m2]| |] eqn:E; [|vm_compute in E; discriminate E..].
  exists s2, m2. split; [reflexivity|].
  exact (proj1 (proj2 (@phase2_pairs world_example _ s2 m2 E))).
Defined.

Lemma processAction_asexual_witness :
  length (ants (@processAction world_example (Some Action.asexual) 0 pair_state)) = 3.
Proof.
  assert (length (ants pair_state) < maxAnts (@params world_example)) as Hcap
    by (vm_compute; lia).
  pose proof (@processAction_asexual world_example 0 pair_state
                (Ant.mk 0 0 10 100 Stage.adult 10 0 nnA None) eq_refl Hcap) as H.
  destruct (@Ant_new world_example _ _ None None _ _) as [[born k] u].
  destruct H as (-> & _). reflexivity.
Defined.

Lemma frames_never_throw_witness :
  exists p',
    @frames world_example [0; 100]%Z
      (mkPage (@Simulation_new world_example (Some nnA) 0 0) 0 0 false 30
         view_example) = Ok p'.
Proof.
  exact (@frames_never_throw world_example (Some nnA) 0 0 [0; 100]%Z 0 0%Z false
           30 view_example eq_refl).
Defined.

Lemma spawnFood_spec_witness :
  ants (@spawnFood world_example view_example elder_state) = ants elder_state /\
  draws (@spawnFood world_example view_example elder_state)
    = draws elder_state + 2 * foodSpawnCount (@params world_example).
Proof.
  assert (0 <= canvas_width view_example)%Q as Hw by (cbn; lra).
  assert (0 <= canvas_height view_example)%Q as Hh by (cbn; lra).
  destruct (@spawnFood_spec world_example view_example elder_state
              randomInRange_example Hw Hh) as (H1 & _ & H2 & _).
  split; [exact H1|exact H2].
Defined.

Lemma spawnFood_rendered_witness :
  (8%Z, 8%Z) ∈ renderCells view_example /\
  grid (@spawnFood world_example view_example elder_state) !! (8%Z, 8%Z)
    = Some Cell.food.
Proof.
  assert (0 <= canvas_width view_example)%Q as Hw by (cbn; lra).
  assert (0 <= canvas_height view_example)%Q as Hh by (cbn; lra).
  apply (@spawnFood_rendered world_example view_example elder_state (8%Z, 8%Z)
           randomInRange_example Hw Hh).
  vm_compute. discriminate.
Defined.

Lemma updateStats_after_update_witness :
  exists s', @update world_example pair_state = Ok s' /\
    let '(total, eggs, adults) := updateStats s' in
    total = length (ants s') /\ eggs + adults = total.
Proof.
  run_update world_example pair_state s' E.
  exists s'. split; [reflexivity|].
  exact (@updateStats_after_update world_example pair_state s' E).
Defined.

Lemma exp_example_wd a b : (a == b)%Q -> (exp_example a == exp_example b)%Q.
Proof.
  intros H. unfold exp_example.
  destruct (Qle_bool 0 a) eqn:Ea, (Qle_bool 0 b) eqn:Eb.
  - by rewrite H.
  - apply Qle_bool_iff in Ea. rewrite H in Ea. apply Qle_bool_iff in Ea. congruence.
  - apply Qle_bool_iff in Eb. rewrite <- H in Eb. apply Qle_bool_iff in Eb. congruence.
  - by rewrite H.
Qed.

Lemma exp_example_nonneg a : (0 <= exp_example a)%Q.
Proof.
  unfold exp_example. destruct (Qle_bool 0 a) eqn:E.
  - apply Qle_bool_iff in E. lra.
  - assert (~ (0 <= a)%Q) as Hn.
    { intros H. apply Qle_bool_iff in H. congruence. }
    apply Qlt_le_weak, Qinv_lt_0_compat. lra.
Qed.

Lemma softmax_distribution_witness :
  length (softmax exp_example [1; 2; 3]%Q) = 3 /\
  (Qsum (softmax exp_example [1; 2; 3]%Q) == 1)%Q.
Proof.
  destruct (softmax_distribution exp_example exp_example_wd exp_example_nonneg
              ltac:(reflexivity) [1; 2; 3]%Q) as (_ & H).
  destruct (H ltac:(discriminate)) as (H1 & H2 & _).
  split; [exact H1|exact H2].
Defined.

Lemma frames_paused_witness :
  exists p',
    @frames world_example [0; 16; 33]%Z paused_page = Ok p' /\
    tickCount p' = 0 /\
    ants (simulation p') = ants elder_state.
Proof.
  destruct (@frames_paused world_example [0; 16; 33]%Z paused_page
              (or_introl eq_refl)) as (p' & H1 & H2 & _ & H3 & _).
  exists p'. split; [exact H1|]. split; [exact H2|exact H3].
Defined.
